(** * ehrapy: group-wise feature ranking and free-text annotation

    A shallow embedding of the feature-ranking helpers of
    [ehrapy/tools/_utils.py] and of the annotation helpers of
    [ehrapy/tools/nlp/_medcat.py], with the properties their specification
    states about them.

    Conventions of the embedding:
    - Python exceptions are values of [exn]; a function that may raise
      returns a [result].
    - numpy arrays that the code mutates in place live in a store of array
      objects and are passed around by location ([loc]), so that two
      dictionary entries may hold the same array object.
    - floating point numbers are modelled by exact rationals ([Q]); the
      percentage of the annotation overview, the one number the code
      computes by float arithmetic of its own, is a binary64 float.
    - calls into scipy, statsmodels, numpy's [argsort], thefuzz and the
      annotator, and the choice of the first element of a Python set, are
      parameters of the functions that use them.
    - a pandas table is the list of its rows, each a record from column
      name to cell; a column a row lacks holds a missing value there. *)

From Stdlib Require Import QArith Qminmax.
From Stdlib Require Floats.PrimFloat Numbers.Cyclic.Int63.Uint63.
From stdpp Require Import base option list strings gmap pretty sorting.

(** ** Exceptions and results *)

Inductive exn :=
| ValueError
| KeyError
| IndexError
| TypeError
| StatusNotSupportedError
| EntitiyNotFoundError (msg : string)
(* not a Python exception: a location that the store does not hold; no
   state built by the functions below reaches it *)
| DanglingReference.

Inductive result (A : Type) :=
| Ok (a : A)
| Raise (e : exn).
Arguments Ok {A} a.
Arguments Raise {A} e.

#[global] Instance result_ret : MRet result := λ A a, Ok a.
#[global] Instance result_bind : MBind result := λ A B f m,
  match m with
  | Ok a => f a
  | Raise e => Raise e
  end.

#[global] Instance result_fmap : FMap result := λ A B f m,
  match m with
  | Ok a => Ok (f a)
  | Raise e => Raise e
  end.

Definition from_option {A} (e : exn) (o : option A) : result A :=
  match o with
  | Some a => Ok a
  | None => Raise e
  end.

(** [for x in l: body], where the body may raise and appends one value. *)
Fixpoint for_each {A B} (body : A → result B) (l : list A) : result (list B) :=
  match l with
  | [] => Ok []
  | x :: l' => y ← body x; ys ← for_each body l'; Ok (y :: ys)
  end.

(** A Python dict in insertion order, read by key. *)
Fixpoint dict_get {V} (k : string) (d : list (string * V)) : option V :=
  match d with
  | [] => None
  | (k', v) :: d' => if decide (k' = k) then Some v else dict_get k d'
  end.

(** ** GroupSelector: [_get_groups_order] *)

(** A group identifier as the caller writes it: an integer or a string. *)
Inductive group_id :=
| GInt (n : Z)
| GStr (s : string).

#[global] Instance group_id_eq_dec : EqDecision group_id.
Proof. solve_decision. Defined.

(** The [groups_subset] argument: a bare string (among them ["all"]), a bare
    integer, or a sequence of group identifiers. *)
Inductive groups_arg :=
| GroupsStr (s : string)
| GroupsInt (n : Z)
| GroupsSeq (l : list group_id).

(** Python's [str] on a group identifier. *)
Definition py_str (g : group_id) : string :=
  match g with
  | GInt n => pretty n
  | GStr s => s
  end.

(** Line 132: every element through [str] when the first one is an
    integer, the list as given otherwise. *)
Definition stringified (groups_order : list group_id) : list group_id :=
  match groups_order with
  | GInt _ :: _ => (λ n, GStr (py_str n)) <$> groups_order
  | _ => groups_order
  end.

(** Lines 130-132; [groups_order[0]] raises on an empty list. *)
Definition listed_groups (groups_subset : list group_id) : result (list group_id) :=
  match groups_subset with
  | [] => Raise IndexError
  | _ => Ok (stringified groups_subset)
  end.

Definition _get_groups_order (groups_subset : groups_arg) (group_names : list string)
    (reference : string) : result (list group_id) :=
  groups_order ←
    match groups_subset with
    | GroupsStr s =>
        if decide (s = "all") then Ok (GStr <$> group_names) else Raise ValueError
    | GroupsInt _ => Raise ValueError
    | GroupsSeq l =>
        groups_order ← listed_groups l;
        if decide (reference ≠ "rest" ∧ GStr reference ∉ groups_order)
        then Ok (groups_order ++ [GStr reference])
        else Ok groups_order
    end;
  if decide (reference ≠ "rest" ∧ reference ∉ group_names)
  then Raise ValueError
  else Ok groups_order.

(** ** CategoricalTester: [_evaluate_categorical_features] *)

(** The part of the annotated data matrix the function reads: the
    observation columns ([adata.obs]), the names of the categorical
    features ([adata.uns["non_numerical_columns"]]) and the feature matrix
    by feature name ([adata[:, feature].X]), its category values encoded as
    integers. *)
Record AnnData := {
  obs : list (string * list string);
  non_numerical_columns : list string;
  X : list (string * list Z);
}.

Definition tests_to_lambdas : list (string * Q) :=
  [("chi-square", 1); ("g-test", 0); ("freeman-tukey", -1 # 2);
   ("mod-log-likelihood", -1); ("neyman", -2); ("cressie-read", 2 # 3)]%Q.

(** [np.asarray] on the list of test elements that [np.isin] is given: a
    list with a string in it becomes an array of strings, an integer of it
    written out as by [str]; a list of integers alone is an array of
    integers, and no group of an observation, a string, equals one. *)
Definition test_elements (groups_order : list group_id) : list string :=
  if forallb (λ g, match g with GInt _ => true | GStr _ => false end) groups_order
  then []
  else py_str <$> groups_order.

(** [np.isin(groups_values, groups_order)] at one observation. *)
Definition isin (v : string) (groups_order : list group_id) : bool :=
  bool_decide (v ∈ test_elements groups_order).

(** Line 211: the mask of the ["rest"] branch, one boolean per observation. *)
Definition rest_reference_mask (groups_values : list string) (group : string)
    (groups_order : list group_id) : list bool :=
  (λ v, bool_decide (v ≠ group) && isin v groups_order) <$> groups_values.

(** Line 214: the observations kept when a reference group is given. *)
Definition obs_to_take (groups_values : list string) (group reference : string) : list bool :=
  (λ v, isin v [GStr group; GStr reference]) <$> groups_values.

(** Boolean-mask indexing [a[mask]]. *)
Fixpoint take_mask {A} (a : list A) (mask : list bool) : list A :=
  match a, mask with
  | x :: a', b :: mask' => if b then x :: take_mask a' mask' else take_mask a' mask'
  | _, _ => []
  end.

(** What is handed to [pd.crosstab] for one feature and one group: the
    feature value and the mask value of every observation that takes part
    (lines 210-216). *)
Definition crosstab_input (feature_values : list Z) (groups_values : list string)
    (group reference : string) (groups_order : list group_id) : list (Z * bool) :=
  if decide (reference = "rest") then
    zip feature_values (rest_reference_mask groups_values group groups_order)
  else
    let taken := obs_to_take groups_values group reference in
    zip (take_mask feature_values taken)
        ((λ v, bool_decide (v = reference)) <$> take_mask groups_values taken).

(** [pd.crosstab(index, columns).values]: one row per distinct index value
    and one column per distinct mask value, both ascending ([False] before
    [True]), holding the number of observations. *)
Definition count_pairs (x : Z) (b : bool) (pairs : list (Z * bool)) : nat :=
  length (filter (λ p, p = (x, b)) pairs).

Definition crosstab (pairs : list (Z * bool)) : list (list nat) :=
  let index := merge_sort Z.le (remove_dups pairs.*1) in
  let columns := filter (λ b, b ∈ pairs.*2) [false; true] in
  (λ x, (λ b, count_pairs x b pairs) <$> columns) <$> index.

(** The groups the inner loop computes a column for, in the order it visits
    them (lines 206-208). *)
Definition tested_groups (group_names : list string) (groups_order : list group_id)
    : list string :=
  filter (λ group, GStr group ∈ groups_order) group_names.

Definition skipped_feature (feature groupby : string) : bool :=
  bool_decide (feature = groupby)
  || bool_decide ("ehrapycat_" +:+ feature = groupby)
  || bool_decide (feature = "ehrapycat_" +:+ groupby).

(** Line 197-199: the features the outer loop does not pass over. *)
Definition tested_features (adata : AnnData) (groupby : string) : list string :=
  filter (λ feature, negb (skipped_feature feature groupby)) (non_numerical_columns adata).

(** The five arrays the function returns, each a list of rows. *)
Record categorical_results := {
  categorical_names : list (list string);
  categorical_scores : list (list Q);
  categorical_pvals : list (list Q);
  categorical_logfoldchanges : list (list Q);
  categorical_pts : list (list Q);
}.

Section CategoricalTester.
(** [scipy.stats.chi2_contingency(table, lambda_=...)] on a table that has
    a cell: statistic and p-value of the table. *)
Variable chi2_contingency : list (list nat) → Q → Q * Q.

(** Lines 210-219: the statistic and p-value of one group for one feature.
    When no observation takes part the table has no cell, and
    [chi2_contingency] raises [ValueError]. A table of [crosstab] has no
    empty row or column, so no expected frequency is zero. *)
Definition group_statistics (feature_values : list Z) (groups_values : list string)
    (groups_order : list group_id) (reference : string) (lambda_ : Q) (group : string)
    : result (Q * Q) :=
  let table :=
    crosstab (crosstab_input feature_values groups_values group reference groups_order) in
  if decide (table = []) then Raise ValueError
  else Ok (chi2_contingency table lambda_).

(** Lines 210-221: the body of the loop over groups. *)
Definition group_test (feature_values : list Z) (groups_values : list string)
    (groups_order : list group_id) (reference categorical_method : string)
    (group : string) : result (Q * Q) :=
  lambda_ ← from_option KeyError (dict_get categorical_method tests_to_lambdas);
  group_statistics feature_values groups_values groups_order reference lambda_ group.

(** Lines 198-230: the body of the loop over features; the row each of the
    five lists receives. *)
Definition feature_rows (adata : AnnData) (groups_values : list string)
    (group_names : list string) (groups_order : list group_id)
    (reference categorical_method : string) (feature : string)
    : result (list string * list Q * list Q * list Q * list Q) :=
  feature_values ← from_option KeyError (dict_get feature (X adata));
  tests ← for_each
    (group_test feature_values groups_values groups_order reference categorical_method)
    (tested_groups group_names groups_order);
  Ok (replicate (length group_names) feature,
      tests.*1,
      tests.*2,
      replicate (length group_names) 1%Q,
      replicate (length group_names) 1%Q).

Definition _evaluate_categorical_features (adata : AnnData) (groupby : string)
    (group_names : list string) (groups : groups_arg) (reference : string)
    (categorical_method : string) (pts : bool) : result categorical_results :=
  groups_order ← _get_groups_order groups group_names reference;
  groups_values ← from_option KeyError (dict_get groupby (obs adata));
  rows ← for_each
    (feature_rows adata groups_values group_names groups_order reference categorical_method)
    (tested_features adata groupby);
  Ok {| categorical_names := (λ r, r.1.1.1.1) <$> rows;
        categorical_scores := (λ r, r.1.1.1.2) <$> rows;
        categorical_pvals := (λ r, r.1.1.2) <$> rows;
        categorical_logfoldchanges := (λ r, r.1.2) <$> rows;
        categorical_pts := if pts then (λ r, r.2) <$> rows else [] |}.

End CategoricalTester.

(** A statistic for examples: the number of observations in the first
    column of the table, with a p-value of one. *)
Definition first_column_total (table : list (list nat)) (lambda_ : Q) : Q * Q :=
  (inject_Z (Z.of_nat (sum_list ((λ row, default 0%nat (row !! 0%nat)) <$> table))), 1%Q).

(** Example data: three visits, one per care setting, with a diagnosis
    code each. *)
Definition three_settings : AnnData :=
  {| obs := [("setting", ["icu"; "ward"; "home"])];
     non_numerical_columns := ["setting"; "diagnosis"];
     X := [("diagnosis", [1; 1; 2]%Z)] |}.

(** Example data: two visits in intensive care and one on the ward. *)
Definition two_settings : AnnData :=
  {| obs := [("setting", ["icu"; "icu"; "ward"])];
     non_numerical_columns := ["setting"; "diagnosis"];
     X := [("diagnosis", [1; 2; 1]%Z)] |}.

(** Pearson's statistic of a table: the sum over its cells of
    (observed - expected)^2 / expected, where the expected count of a cell
    is row total * column total / total. It is the statistic of
    [chi2_contingency] for [lambda_ = 1] on a table with more than one
    degree of freedom, where no continuity correction is made. *)
Definition pearson_statistic (table : list (list nat)) : Q :=
  let total := sum_list (sum_list <$> table) in
  let cell (row_total j observed : nat) : Q :=
    let column_total := sum_list ((λ row, default 0%nat (row !! j)) <$> table) in
    let expected :=
      (inject_Z (Z.of_nat (row_total * column_total)) / inject_Z (Z.of_nat total))%Q in
    ((inject_Z (Z.of_nat observed) - expected) * (inject_Z (Z.of_nat observed) - expected)
     / expected)%Q in
  foldr Qplus 0%Q (table ≫= λ row, imap (cell (sum_list row)) row).

(** Example data: six visits in three care settings, with a diagnosis code
    each. *)
Definition six_visits : AnnData :=
  {| obs := [("setting", ["icu"; "icu"; "icu"; "ward"; "ward"; "home"])];
     non_numerical_columns := ["setting"; "diagnosis"];
     X := [("diagnosis", [1; 1; 2; 2; 3; 3]%Z)] |}.

(** The shape of an array built by [np.array] from a list of rows of equal
    length: the number of rows, and the length of a row when there is one. *)
Definition shape {A} (a : list (list A)) : list nat :=
  match a with
  | [] => [0]
  | row :: _ => [length a; length row]
  end.

(** ** The store of array objects *)

(** A numpy array as the code uses it: a structured (record) array, held
    by field in the order of [dtype.names], or a plain two-dimensional
    array, held by row. *)
Inductive ndarray (A : Type) :=
| Rec (fields : list (string * list A))
| Plain (rows : list (list A)).
Arguments Rec {A} fields.
Arguments Plain {A} rows.

Abbreviation loc := positive.

(** A computation over a mutable state that may raise; the state it leaves
    is returned in both cases, as a raise does not undo earlier writes. *)
Definition M (S A : Type) : Type := S → S * result A.

#[global] Instance M_ret {S} : MRet (M S) := λ A a s, (s, Ok a).
#[global] Instance M_bind {S} : MBind (M S) := λ A B f m s,
  match m s with
  | (s', Ok a) => f a s'
  | (s', Raise e) => (s', Raise e)
  end.

Definition lift {S A} (r : result A) : M S A := λ s, (s, r).

(** [for x in l: body]. *)
Fixpoint for_M {S A} (body : A → M S unit) (l : list A) : M S unit :=
  match l with
  | [] => mret ()
  | x :: l' => body x;; for_M body l'
  end.

Section Store.
Context {A : Type}.

(** [a.dtype.names]: [None] for a plain array. *)
Definition dtype_names (a : ndarray A) : option (list string) :=
  match a with
  | Rec fields => Some fields.*1
  | Plain _ => None
  end.

(** [len(a)]: the number of records or of rows. *)
Definition len (a : ndarray A) : nat :=
  match a with
  | Rec [] => 0
  | Rec ((_, column) :: _) => length column
  | Plain rows => length rows
  end.

(** [a[group]] for a field name. *)
Definition field (a : ndarray A) (group : string) : result (list A) :=
  match a with
  | Rec fields => from_option ValueError (dict_get group fields)
  | Plain _ => Raise IndexError
  end.

Fixpoint replace_field (group : string) (column : list A) (fields : list (string * list A))
    : list (string * list A) :=
  match fields with
  | [] => []
  | (g, c) :: fields' =>
      if decide (g = group) then (g, column) :: fields'
      else (g, c) :: replace_field group column fields'
  end.

(** [a[group] = column]: the column must have the length of the field, or
    length one, in which case numpy repeats its value. *)
Definition assign_field (a : ndarray A) (group : string) (column : list A)
    : result (ndarray A) :=
  match a with
  | Rec fields =>
      old ← from_option ValueError (dict_get group fields);
      if decide (length column = length old) then
        Ok (Rec (replace_field group column fields))
      else
        match column with
        | [x] => Ok (Rec (replace_field group (replicate (length old) x) fields))
        | _ => Raise ValueError
        end
  | Plain _ => Raise IndexError
  end.

(** [a[indexes]] for an array of non-negative positions. *)
Definition take_indexes (a : list A) (indexes : list nat) : result (list A) :=
  for_each (λ i, from_option IndexError (a !! i)) indexes.

(** Allocation of a new array object. *)
Definition new_array (a : ndarray A) : M (gmap loc (ndarray A)) loc :=
  λ h, let l := fresh (dom h) in (<[l := a]> h, Ok l).

Definition read (l : loc) : M (gmap loc (ndarray A)) (ndarray A) :=
  λ h, (h, from_option DanglingReference (h !! l)).

Definition write (l : loc) (a : ndarray A) : M (gmap loc (ndarray A)) unit :=
  λ h, (<[l := a]> h, Ok ()).

Definition get_field (l : loc) (group : string) : M (gmap loc (ndarray A)) (list A) :=
  a ← read l; lift (field a group).

Definition set_field (l : loc) (group : string) (column : list A)
    : M (gmap loc (ndarray A)) unit :=
  a ← read l;
  a' ← lift (assign_field a group column);
  write l a'.

End Store.

(** ** PValueAdjuster: [_adjust_pvalues] *)

Definition method_map : list (string * string) :=
  [("benjamini-hochberg", "fdr_bh"); ("bonferroni", "bonferroni")].

(** [np.ones_like(a)]. *)
Definition ones_like (a : ndarray Q) : ndarray Q :=
  match a with
  | Rec fields => Rec ((λ f, (f.1, replicate (length f.2) 1%Q)) <$> fields)
  | Plain rows => Plain ((λ r, replicate (length r) 1%Q) <$> rows)
  end.

Section PValueAdjuster.
(** [statsmodels.stats.multitest.multipletests(pvals, alpha=0.05, method=...)],
    the corrected p-values it returns. *)
Variable multipletests : list Q → string → list Q.

(** Lines 43-48: the body of the loop over groups. *)
Definition adjust_group (pvals pvals_adj : loc) (corr_method group : string)
    : M (gmap loc (ndarray Q)) unit :=
  group_pvals ← get_field pvals group;
  method ← lift (from_option KeyError (dict_get corr_method method_map));
  set_field pvals_adj group (multipletests group_pvals method).

Definition _adjust_pvalues (pvals : loc) (corr_method : string)
    : M (gmap loc (ndarray Q)) loc :=
  a ← read pvals;
  pvals_adj ← new_array (ones_like a);
  names ← lift (from_option TypeError (dtype_names a));
  for_M (adjust_group pvals pvals_adj corr_method) names;;
  mret pvals_adj.

End PValueAdjuster.

(** Bonferroni's correction as statsmodels computes it: every p-value times
    the number of tests, and one where that exceeds one. *)
Definition bonferroni (pvals : list Q) : list Q :=
  (λ p, Qmin 1 (p * inject_Z (Z.of_nat (length pvals)))) <$> pvals.

(** A correction primitive for examples: Bonferroni's correction under the
    method name "bonferroni", the p-values as they are under any other. *)
Definition bonferroni_only (pvals : list Q) (method : string) : list Q :=
  if decide (method = "bonferroni") then bonferroni pvals else pvals.

(** ** The results container [adata.uns] *)

(** What a key of [adata.uns[key_added]] holds: an array object, or the
    [params] dict of technical information. *)
Inductive value :=
| VArr (l : loc)
| VParams.

(** The array objects, and [adata.uns] restricted to the keys that hold
    ranking results: per key, a dict from field name to value. *)
Record world (A : Type) := World {
  mem : gmap loc (ndarray A);
  uns : gmap string (list (string * value));
}.
Arguments World {A} mem uns.
Arguments mem {A} w.
Arguments uns {A} w.

(** [d[k] = v] on a dict in insertion order. *)
Fixpoint dict_set {V} (k : string) (v : V) (d : list (string * V)) : list (string * V) :=
  match d with
  | [] => [(k, v)]
  | (k', v') :: d' =>
      if decide (k' = k) then (k, v) :: d' else (k', v') :: dict_set k v d'
  end.

Section World.
Context {A : Type}.

(** A computation on the array objects, run inside the world. *)
Definition on_mem {B} (m : M (gmap loc (ndarray A)) B) : M (world A) B :=
  λ w, let '(h, r) := m (mem w) in (World h (uns w), r).

Definition get_uns (key_added : string) : M (world A) (list (string * value)) :=
  λ w, (w, from_option KeyError (uns w !! key_added)).

Definition set_uns (key_added : string) (d : list (string * value)) : M (world A) unit :=
  λ w, (World (mem w) (<[key_added := d]> (uns w)), Ok ()).

End World.

(** ** ResultStore: [_merge_arrays] and [_save_rank_features_result] *)

Section ResultStore.
Context {A : Type}.
(** The missing value pandas fills in. *)
Variable nan : A.

(** [pd.DataFrame(recarray)[list(groups_order)]]: the named columns of a
    record array, in the order asked for. The columns of a plain array are
    numbered, so no name selects one. *)
Definition select_columns (recarray : ndarray A) (groups_order : list string)
    : result (list (string * list A)) :=
  match recarray with
  | Rec fields =>
      for_each (λ g, c ← from_option KeyError (dict_get g fields); Ok (g, c)) groups_order
  | Plain _ =>
      match groups_order with
      | [] => Ok []
      | _ => Raise KeyError
      end
  end.

(** [pd.DataFrame(array, columns=groups_order)]: the columns of a plain
    array named by position, every row being as long as [groups_order]; the
    fields of a record array picked by name, with a column of missing values
    for a name it does not have. *)
Definition frame_of_array (array : ndarray A) (groups_order : list string)
    : result (list (string * list A)) :=
  match array with
  | Plain rows =>
      if forallb (λ r, bool_decide (length r = length groups_order)) rows then
        Ok (imap (λ j g, (g, omap (λ r, r !! j) rows)) groups_order)
      else Raise ValueError
  | Rec fields =>
      Ok ((λ g, (g, default (replicate (len array) nan) (dict_get g fields)))
            <$> groups_order)
  end.

(** [pd.concat([top, bottom], ignore_index=True, axis=0)] of two tables
    with the same column labels in the same order. *)
Definition concat_rows (top bottom : list (string * list A)) : list (string * list A) :=
  zip_with (λ c1 c2, (c1.1, c1.2 ++ c2.2)) top bottom.

(** [df.to_records(index=False)]: numpy wants at least one field and no
    field name twice. *)
Definition to_records (df : list (string * list A)) : result (ndarray A) :=
  match df with
  | [] => Raise IndexError
  | _ => if decide (NoDup df.*1) then Ok (Rec df) else Raise ValueError
  end.

Definition merge_values (recarray array : ndarray A) (groups_order : list string)
    : result (ndarray A) :=
  converted_recarray ← select_columns recarray groups_order;
  new_rows ← frame_of_array array groups_order;
  to_records (concat_rows converted_recarray new_rows).

(** [_merge_arrays]: reads the stored array object and returns a new one. *)
Definition _merge_arrays (recarray : loc) (array : ndarray A) (groups_order : list string)
    : M (gmap loc (ndarray A)) loc :=
  stored ← read recarray;
  merged ← lift (merge_values stored array groups_order);
  new_array merged.

Definition field_names : list string :=
  ["names"; "scores"; "pvals"; "pvals_adj"; "logfoldchanges"; "pts"].

(** Lines 101-111: the body of the loop over the six fields. [None] is
    Python's [None]; an array is passed by reference. *)
Definition save_field (key_added : string) (groups_order : list string)
    (entry : option loc * string) : M (world A) unit :=
  match entry.1 with
  | None => mret ()
  | Some values =>
      a ← on_mem (read values);
      if decide (len a = 0) then mret ()
      else
        d ← get_uns key_added;
        match dict_get entry.2 d with
        | None => set_uns key_added (dict_set entry.2 (VArr values) d)
        | Some (VArr recarray) =>
            merged ← on_mem (_merge_arrays recarray a groups_order);
            set_uns key_added (dict_set entry.2 (VArr merged) d)
        | Some VParams => lift (Raise ValueError)
        end
  end.

Definition _save_rank_features_result (key_added : string)
    (names scores pvals pvals_adj logfoldchanges pts : option loc)
    (groups_order : list string) : M (world A) unit :=
  for_M (save_field key_added groups_order)
        (zip [names; scores; pvals; pvals_adj; logfoldchanges; pts] field_names).

End ResultStore.

(** ** ResultSorter: [_sort_features] *)

Section ResultSorter.
Context {A : Type}.
(** [np.argsort] on one column. *)
Variable argsort : list A → list nat.

(** Lines 73-78: the body of the loop over the keys of the results dict. *)
Definition sort_field (group : string) (sorted_indexes : list nat)
    (entry : string * value) : M (world A) unit :=
  if decide (entry.1 = "params") then mret ()
  else
    match entry.2 with
    | VArr l =>
        column ← on_mem (get_field l group);
        sorted ← lift (take_indexes column sorted_indexes);
        on_mem (set_field l group sorted)
    | VParams => lift (Raise KeyError)
    end.

(** Lines 69-78: the body of the loop over groups. *)
Definition sort_group (key_added : string) (pvals_adj : loc) (group : string)
    : M (world A) unit :=
  group_pvals ← on_mem (get_field pvals_adj group);
  d ← get_uns key_added;
  for_M (sort_field group (argsort group_pvals)) d.

Definition _sort_features (key_added : string) : M (world A) unit :=
  λ w,
    match uns w !! key_added with
    | None => (w, Ok ())
    | Some d =>
        (v ← lift (from_option KeyError (dict_get "pvals_adj" d));
         match v with
         | VArr pvals_adj =>
             a ← on_mem (read pvals_adj);
             names ← lift (from_option TypeError (dtype_names a));
             for_M (sort_group key_added pvals_adj) names
         | VParams => lift (Raise TypeError)
         end) w
    end.

End ResultSorter.

(** An [argsort]: stable insertion of each position into the positions
    sorted so far. *)
Fixpoint insert_index {A} (le : A → A → bool) (a : list A) (i : nat) (sorted : list nat)
    : list nat :=
  match sorted with
  | [] => [i]
  | j :: sorted' =>
      match a !! i, a !! j with
      | Some x, Some y =>
          if le y x then j :: insert_index le a i sorted' else i :: sorted
      | _, _ => i :: sorted
      end
  end.

Definition insertion_argsort {A} (le : A → A → bool) (a : list A) : list nat :=
  foldl (λ sorted i, insert_index le a i sorted) [] (seq 0 (length a)).

(** Example results: adjusted p-values and scores of three features for
    the groups "icu" and "ward", beside the technical information. *)
Definition ranked_example : world Q :=
  World {[ 1%positive := Rec [("icu", [1 # 2; 1 # 10; 1 # 3]%Q);
                              ("ward", [1 # 3; 1 # 4; 1 # 5]%Q)];
           2%positive := Rec [("icu", [1; 2; 3]%Q); ("ward", [4; 5; 6]%Q)] ]}
        {[ "rank_features_groups" :=
             [("params", VParams); ("scores", VArr 2%positive);
              ("pvals_adj", VArr 1%positive)] ]}.

(** Example results in which one array object is held under two keys. *)
Definition aliased_example : world Q :=
  World {[ 1%positive := Rec [("icu", [1 # 2; 1 # 10; 1 # 3]%Q)] ]}
        {[ "rank_features_groups" :=
             [("pvals", VArr 1%positive); ("pvals_adj", VArr 1%positive)] ]}.

(** ** AnnotationAggregator: flattening and the annotation table *)

(** A key of the [entities] dict of one row: MedCAT numbers the entities;
    a string key such as ["tokens"] may stand beside them. *)
Inductive entity_id :=
| EInt (n : Z)
| EName (s : string).

#[global] Instance entity_id_eq_dec : EqDecision entity_id.
Proof. solve_decision. Defined.

(** The value of one attribute of an entity. *)
Inductive attr :=
| AStr (s : string)
| AList (l : list string)
| AMeta (m : list (string * list (string * string)))
| AOther.

(** A cell of the flattened table. *)
Inductive cell :=
| CRow (n : Z)
| CStr (s : string)
| CList (l : list string)
| COther.

#[global] Instance cell_eq_dec : EqDecision cell.
Proof. solve_decision. Defined.

Definition cell_of_attr (a : attr) : cell :=
  match a with
  | AStr s => CStr s
  | AList l => CList l
  | AMeta _ | AOther => COther
  end.

(** [entity["meta_anns"]["Status"]["value"]]. *)
Definition status_value (a : attr) : result cell :=
  match a with
  | AMeta m =>
      status ← from_option KeyError (dict_get "Status" m);
      value ← from_option KeyError (dict_get "value" status);
      Ok (CStr value)
  | _ => Raise TypeError
  end.

(** Lines 54-58: one attribute of an entity, written into [single_entity]
    or passed over. *)
Definition copy_attribute (single_entity : list (string * cell)) (entry : string * attr)
    : result (list (string * cell)) :=
  if bool_decide (entry.1 ∈ ["pretty_name"; "cui"; "type_ids"; "types"]) then
    Ok (dict_set entry.1 (cell_of_attr entry.2) single_entity)
  else if decide (entry.1 = "meta_anns") then
    value ← status_value entry.2;
    Ok (dict_set entry.1 value single_entity)
  else Ok single_entity.

Fixpoint copy_attributes (single_entity : list (string * cell)) (entity : list (string * attr))
    : result (list (string * cell)) :=
  match entity with
  | [] => Ok single_entity
  | entry :: entity' =>
      single_entity' ← copy_attribute single_entity entry;
      copy_attributes single_entity' entity'
  end.

(** Lines 48-60: the records of one row, in the order of its entities. *)
Fixpoint flatten_entities (row_id : Z) (entities : list (entity_id * list (string * attr)))
    : result (list (list (string * cell))) :=
  match entities with
  | [] => Ok []
  | (eid, entity) :: entities' =>
      if decide (eid = EName "tokens") then flatten_entities row_id entities'
      else
        single_entity ← copy_attributes [("row_nr", CRow row_id)] entity;
        rest ← flatten_entities row_id entities';
        Ok (single_entity :: rest)
  end.

(** [_flatten_annotated_results]: the value of [flattened_annotated_dict]
    at the keys [0], [1], ... in turn. *)
Fixpoint _flatten_annotated_results
    (annotation_results : list (Z * list (entity_id * list (string * attr))))
    : result (list (list (string * cell))) :=
  match annotation_results with
  | [] => Ok []
  | (row_id, entities) :: annotation_results' =>
      records ← flatten_entities row_id entities;
      rest ← _flatten_annotated_results annotation_results';
      Ok (records ++ rest)
  end.

(** A table: its rows in index order, each a record from column name to
    cell; a column is one of the table when some row has it, and a row
    without it holds a missing value there. *)
Definition has_column (column : string) (df : list (list (string * cell))) : bool :=
  existsb (λ r, bool_decide (is_Some (dict_get column r))) df.

Definition subset_key (subset : list string) (r : list (string * cell)) : list (option cell) :=
  (λ column, dict_get column r) <$> subset.

(** The rows kept by [keep="first"]. *)
Fixpoint first_occurrences (subset : list string) (seen : list (list (option cell)))
    (rows : list (list (string * cell))) : list (list (string * cell)) :=
  match rows with
  | [] => []
  | r :: rows' =>
      if decide (subset_key subset r ∈ seen) then first_occurrences subset seen rows'
      else r :: first_occurrences subset (subset_key subset r :: seen) rows'
  end.

(** [df.drop_duplicates(subset=...)]: a new table; [df] itself is left as
    it is. *)
Definition drop_duplicates (df : list (list (string * cell))) (subset : list string)
    : result (list (list (string * cell))) :=
  match df with
  | [] => Ok []
  | _ =>
      if forallb (λ column, has_column column df) subset
      then Ok (first_occurrences subset [] df)
      else Raise KeyError
  end.

Definition _annotated_results_to_df (flattened_results : list (list (string * cell)))
    : result (list (list (string * cell))) :=
  let df := flattened_results in
  _ ← drop_duplicates df ["cui"; "row_nr"; "meta_anns"];
  Ok df.

Definition row_nr_of (r : list (string * cell)) : Z :=
  match dict_get "row_nr" r with
  | Some (CRow n) => n
  | _ => 0
  end.

Definition row_nr_le (r1 r2 : list (string * cell)) : Prop :=
  (row_nr_of r1 ≤ row_nr_of r2)%Z.

#[global] Instance row_nr_le_dec : RelDecision row_nr_le.
Proof. intros r1 r2. unfold row_nr_le. apply _. Defined.

(** [df.sort_values(by=["row_nr"]).reset_index(drop=True)] for row
    numbers that are integers, as the source declares them
    ([list[tuple[int, str]]]): the rows in ascending order of their row
    numbers. Rows with the same row number are kept in their order here;
    the sort of pandas need not keep it, and no property of this file
    depends on the order of the rows. *)
Definition sort_by_row_nr (df : list (list (string * cell))) : result (list (list (string * cell))) :=
  if has_column "row_nr" df
  then Ok (merge_sort row_nr_le df)
  else Raise KeyError.

(** Example data: one mention of diabetes as the annotator reports it, and
    the results for a text in row 3 that mentions it twice. *)
Definition diabetes_mention : list (string * attr) :=
  [("pretty_name", AStr "Diabetes"); ("cui", AStr "C0011849");
   ("type_ids", AList ["T047"]); ("types", AList ["Disease or Syndrome"]);
   ("acc", AOther);
   ("meta_anns", AMeta [("Status", [("value", "Affirmed"); ("name", "Status")])])].

Definition repeated_mention_results : list (Z * list (entity_id * list (string * attr))) :=
  [(3%Z, [(EInt 0, diabetes_mention); (EInt 1, diabetes_mention)])].

Section Annotate.
(** [cat.multiprocessing(formatted_text_column, ...)]: the nested results
    of the external annotator, by row identifier. *)
Variable multiprocessing :
  list (Z * string) → list (Z * list (entity_id * list (string * attr))).

(** [_filter_null_values] followed by [_format_df_column]. *)
Definition formatted_text_column (text_column : list (Z * option string)) : list (Z * string) :=
  omap (λ row, text ← row.2; Some (row.1, text)) text_column.

(** [annotate_text]: the table it stores under [adata.uns[key_added]]. *)
Definition annotate_text (text_column : list (Z * option string))
    : result (list (list (string * cell))) :=
  let results := multiprocessing (formatted_text_column text_column) in
  flattened_res ← _flatten_annotated_results results;
  df ← _annotated_results_to_df flattened_res;
  sort_by_row_nr df.

End Annotate.

(** ** AnnotationAggregator: [_check_valid_name] *)

(** [df["pretty_name"].values], the names among its cells. *)
Definition pretty_names (df : list (list (string * cell))) : list string :=
  omap (λ r, match dict_get "pretty_name" r with
             | Some (CStr s) => Some s
             | _ => None
             end) df.

(** The characters that [repr] treats apart, by their codes: the single
    and the double quote, the backslash, tab, newline and carriage return. *)
Definition single_quote : Ascii.ascii := Ascii.ascii_of_nat 39.
Definition double_quote : Ascii.ascii := Ascii.ascii_of_nat 34.
Definition backslash : Ascii.ascii := Ascii.ascii_of_nat 92.

Definition hex_digit (n : N) : Ascii.ascii :=
  default Ascii.zero (String.get (N.to_nat n) "0123456789abcdef").

(** One character of a string as [repr] writes it between the quotes
    [quote]: the quote and the backslash after a backslash, tab, newline
    and carriage return as [\t], [\n] and [\r], any other control
    character as [\xhh], and every other character as it is. A byte above
    127 is part of a character outside ASCII and is copied, as [repr] does
    when that character is printable. *)
Definition py_repr_char (quote c : Ascii.ascii) : string :=
  let code := Ascii.N_of_ascii c in
  if decide (c = quote ∨ c = backslash) then String backslash (String c EmptyString)
  else if decide (code = 9%N) then String backslash "t"
  else if decide (code = 10%N) then String backslash "n"
  else if decide (code = 13%N) then String backslash "r"
  else if decide (code < 32 ∨ code = 127)%N then
    String backslash
      ("x" +:+ String (hex_digit (code / 16)) (String (hex_digit (code mod 16)) EmptyString))
  else String c EmptyString.

(** Python's [repr] of a string: in single quotes, or in double quotes
    when the string has a single quote in it and no double quote. *)
Definition py_repr (s : string) : string :=
  let chars := String.list_ascii_of_string s in
  let quote :=
    if decide (single_quote ∈ chars ∧ double_quote ∉ chars) then double_quote
    else single_quote in
  String quote (String.concat "" (py_repr_char quote <$> chars) +:+ String quote EmptyString).

(** Python's text for a list of strings: the [repr] of each, between
    brackets. *)
Definition py_list_text (l : list string) : string :=
  "[" +:+ String.concat ", " (py_repr <$> l) +:+ "]".

Section CheckValidName.
(** [thefuzz.process.extractOne(query, choices, score_cutoff)]: the best
    choice with its score, or [None] when no choice reaches the cutoff. *)
Variable extractOne : string → list string → Z → option (string * Z).

(** Lines 166-170: the body of the loop, on the three variables it
    updates. *)
Definition check_name (df : list (list (string * cell)))
    (state : list string * list string * option string) (nm : string)
    : result (list string * list string * option string) :=
  let '(invalid_names, suggested_names, new_name) := state in
  if decide (nm ∈ pretty_names df) then Ok state
  else
    match extractOne nm (remove_dups (pretty_names df)) 50 with
    | Some (new_name', _) =>
        Ok (invalid_names ++ [nm], suggested_names ++ [new_name'], Some new_name')
    | None => Raise TypeError
    end.

Fixpoint check_names (df : list (list (string * cell)))
    (state : list string * list string * option string) (name : list string)
    : result (list string * list string * option string) :=
  match name with
  | [] => Ok state
  | nm :: name' => state' ← check_name df state nm; check_names df state' name'
  end.

Definition _check_valid_name (df : list (list (string * cell))) (name : list string)
    : result unit :=
  if has_column "pretty_name" df then
    '(invalid_names, suggested_names, new_name) ← check_names df ([], [], None) name;
    match invalid_names with
    | [] => Ok ()
    | _ =>
        let found := "Did not find '" +:+ py_list_text invalid_names
                     +:+ "' in MedCAT's extracted entities." in
        match suggested_names with
        | [] => Raise (EntitiyNotFoundError found)
        | _ => Raise (EntitiyNotFoundError
                        (found +:+ " Do you mean " +:+ default "" new_name +:+ "?"))
        end
    end
  else
    match name with
    | [] => Ok ()
    | _ => Raise KeyError
    end.

End CheckValidName.

(** ** AnnotationAggregator: [_filter_df_by_status] and the overview *)

(** [_filter_df_by_status]. [df[mask]] keeps the columns of [df]; the rows
    it keeps are those whose status cell equals [status], a row without a
    status among them never. *)
Definition _filter_df_by_status (df : list (list (string * cell))) (status : string)
    : result (list (list (string * cell))) :=
  if decide (status = "Both") then Ok df
  else if bool_decide (status ∈ ["Affirmed"; "Other"]) then
    if has_column "meta_anns" df
    then Ok (filter (λ r, dict_get "meta_anns" r = Some (CStr status)) df)
    else Raise KeyError
  else Raise StatusNotSupportedError.

(** One row of the overview, with its index value [cui]. A missing name
    (NaN) is [None]. *)
Record overview_row := OverviewRow {
  cui : string;
  pretty_name : option cell;
  type_ids : cell;
  types : cell;
  n_patient_visit : nat;
  n_patient_visit_percent : PrimFloat.float }.

(** The order of the group keys: Python's order of strings. *)
Definition cui_le (s1 s2 : string) : Prop := String.leb s1 s2 = true.

#[global] Instance cui_le_dec : RelDecision cui_le.
Proof. intros s1 s2. unfold cui_le. apply _. Defined.

(** The key of a row for [groupby("cui")]: a row with a missing key is in
    no group; the keys are the identifier strings of the annotator, and a
    key that is not a string is refused. *)
Definition group_key (r : list (string * cell)) : result (option string) :=
  match dict_get "cui" r with
  | None => Ok None
  | Some (CStr s) => Ok (Some s)
  | Some _ => Raise TypeError
  end.

(** [Series.nunique()]: the number of distinct values, missing ones left
    out. *)
Definition nunique (column : string) (df : list (list (string * cell))) : nat :=
  length (remove_dups (omap (dict_get column) df)).

(** [next(iter(x))[0]] on the values [x] of a group, which has a row at
    least: the first item of the first value. *)
Definition first_item (x : list (option cell)) : result cell :=
  match x with
  | Some (CList (item :: _)) :: _ => Ok (CStr item)
  | Some (CStr (String c _)) :: _ => Ok (CStr (String c EmptyString))
  | Some (CList []) :: _ | Some (CStr EmptyString) :: _ => Raise IndexError
  | _ => Raise TypeError
  end.

(** An integer of the table as a binary64 float. *)
Definition float_of_nat (n : nat) : PrimFloat.float :=
  PrimFloat.of_uint63 (Uint63.of_Z (Z.of_nat n)).

(** Line 153: [(n_patient_visit / total) * 100], a division and a
    multiplication of binary64 floats; 0 / 0 is NaN. *)
Definition visit_percent (n total : nat) : PrimFloat.float :=
  PrimFloat.mul (PrimFloat.div (float_of_nat n) (float_of_nat total)) (float_of_nat 100).

Section Overview.
(** [next(iter(set(x)))] on the values [x] of a group: the value that the
    iteration of the set yields first, which is the interpreter's choice;
    it raises when a value cannot be hashed. *)
Variable first_of_set : list (option cell) → result (option cell).

(** [get_medcat_annotation_overview] on the table [adata.uns[use_key]]:
    the rows of the result in index order. The aggregation is column by
    column; the rounded copy made by [res.round] is not kept. *)
Definition get_medcat_annotation_overview (table : list (list (string * cell)))
    (status : string) : result (list overview_row) :=
  df ← _filter_df_by_status table status;
  if forallb (λ column, has_column column table)
       ["cui"; "pretty_name"; "type_ids"; "types"; "row_nr"] then
    keys ← for_each group_key df;
    let cuis := merge_sort cui_le (remove_dups (omap id keys)) in
    let grouped g := filter (λ r, dict_get "cui" r = Some (CStr g)) df in
    names ← for_each (λ g, first_of_set (dict_get "pretty_name" <$> grouped g)) cuis;
    tuis ← for_each (λ g, first_item (dict_get "type_ids" <$> grouped g)) cuis;
    kinds ← for_each (λ g, first_item (dict_get "types" <$> grouped g)) cuis;
    let total := nunique "row_nr" df in
    Ok (zip_with (λ g '(name, tui, kind),
          let n := nunique "row_nr" (grouped g) in
          OverviewRow g name tui kind n (visit_percent n total))
        cuis (zip (zip names tuis) kinds))
  else Raise KeyError.

End Overview.

(** Example data: the table of three visits; the first mentions diabetes
    twice, the third mentions it as not affirmed. *)
Definition mention (row : Z) (name concept tui kind status : string) : list (string * cell) :=
  [("row_nr", CRow row); ("pretty_name", CStr name); ("cui", CStr concept);
   ("type_ids", CList [tui]); ("types", CList [kind]); ("meta_anns", CStr status)].

Definition three_visits : list (list (string * cell)) :=
  [mention 1 "Diabetes" "C0011849" "T047" "Disease or Syndrome" "Affirmed";
   mention 1 "Diabetes" "C0011849" "T047" "Disease or Syndrome" "Affirmed";
   mention 2 "Fever" "C0015967" "T184" "Sign or Symptom" "Affirmed";
   mention 3 "Diabetes" "C0011849" "T047" "Disease or Syndrome" "Other";
   mention 3 "Cough" "C0010200" "T184" "Sign or Symptom" "Affirmed"].

(** A choice for examples: the value of the first row of the group. *)
Definition first_listed (x : list (option cell)) : result (option cell) :=
  Ok (default None (head x)).

(** Example data: an annotation table with two concepts. *)
Definition two_concepts : list (list (string * cell)) :=
  [[("row_nr", CRow 1); ("pretty_name", CStr "Diabetes"); ("meta_anns", CStr "Affirmed")];
   [("row_nr", CRow 2); ("pretty_name", CStr "Fever"); ("meta_anns", CStr "Affirmed")]].

(** A matcher for examples: the first choice that shares the first
    character of the query scores 90, and nothing else reaches the cutoff. *)
Definition first_letter_match (query : string) (choices : list string) (score_cutoff : Z)
    : option (string * Z) :=
  match query with
  | String c _ =>
      match filter (λ choice, String.prefix (String c EmptyString) choice = true) choices with
      | choice :: _ => if decide (score_cutoff ≤ 90)%Z then Some (choice, 90%Z) else None
      | [] => None
      end
  | EmptyString => None
  end.

(** * Vocabulary of the properties *)

(** The field names of a record array with the length of each field, or the
    length of each row of a plain array: shape and field layout. *)
Definition layout {A} (a : ndarray A) : list (string * nat) + list nat :=
  match a with
  | Rec fields => inl ((λ f, (f.1, length f.2)) <$> fields)
  | Plain rows => inr (length <$> rows)
  end.

(** The writes of a computation are confined to the array object [l],
    whose layout they keep. *)
Definition confined {A} (l : loc) (h h' : gmap loc (ndarray A)) : Prop :=
  (∀ l', l' ≠ l → h' !! l' = h !! l')
  ∧ (∀ a, h !! l = Some a → ∃ a', h' !! l = Some a' ∧ layout a' = layout a).

(** The arguments of a save call that passes one field only: [values] at
    the position [i] of the six fields, [None] elsewhere. *)
Definition only (i : nat) (values : loc) (j : nat) : option loc :=
  if decide (i = j) then Some values else None.

(** The array objects [_sort_features] reorders: those held under a key
    other than ["params"]. *)
Definition sorted_locs (d : list (string * value)) : list loc :=
  omap (λ e : string * value,
          if decide (e.1 = "params") then None
          else match e.2 with
               | VArr l => Some l
               | VParams => None
               end) d.

(** Every key other than ["params"] holds an array. *)
Definition holds_arrays (d : list (string * value)) : Prop :=
  Forall (λ e : string * value, e.1 = "params" ∨ ∃ l, e.2 = VArr l) d.

(** The arrays at [locs] are record arrays with the fields [groups], in that
    order, and [n] records. *)
Definition parallel {A} (h : gmap loc (ndarray A)) (locs : list loc)
    (groups : list string) (n : nat) : Prop :=
  ∀ l, l ∈ locs →
    ∃ fields, h !! l = Some (Rec fields) ∧ fields.*1 = groups
              ∧ Forall (λ f : string * list A, length f.2 = n) fields.

(** The state of the array objects after [_sort_features] has visited the
    groups [done], for the fields [d] of the key, the array objects [h0]
    before the call and the fields [adj0] of the array of adjusted p-values
    before the call: in every array of [sorted_locs] the fields of these
    groups are reordered by the positions computed from the adjusted
    p-values of the group as they were before the call; the other fields
    and the other array objects are as before. *)
Definition sorted_upto {A} (argsort : list A → list nat) (d : list (string * value))
    (h0 : gmap loc (ndarray A)) (adj0 : list (string * list A))
    (done : list string) (h : gmap loc (ndarray A)) : Prop :=
  (∀ l, l ∉ sorted_locs d → h !! l = h0 !! l)
  ∧ ∀ l fields0, l ∈ sorted_locs d → h0 !! l = Some (Rec fields0) →
      ∃ fields,
        h !! l = Some (Rec fields) ∧ fields.*1 = fields0.*1
        ∧ ∀ g c0, dict_get g fields0 = Some c0 →
            (g ∈ done →
               ∃ c_adj sorted,
                 dict_get g adj0 = Some c_adj
                 ∧ take_indexes c0 (argsort c_adj) = Ok sorted
                 ∧ dict_get g fields = Some sorted)
            ∧ (g ∉ done → dict_get g fields = Some c0).

(** The order of two positions of [a] by the values they hold. *)
Definition key_le {A} (le : A → A → bool) (a : list A) (i j : nat) : Prop :=
  match a !! i, a !! j with
  | Some x, Some y => le x y = true
  | _, _ => False
  end.

(** The entities that become records of the annotation table: every entry
    of every row other than the ["tokens"] entry, with its row, in the
    order of the results. *)
Definition entity_occurrences
    (annotation_results : list (Z * list (entity_id * list (string * attr))))
    : list (Z * list (string * attr)) :=
  '(row_id, entities) ← annotation_results;
  (λ e, (row_id, e.2)) <$> filter (λ e, e.1 ≠ EName "tokens") entities.

(** The columns of the annotation table. *)
Definition annotation_columns : list string :=
  ["row_nr"; "pretty_name"; "cui"; "type_ids"; "types"; "meta_anns"].

(** The columns of the overview that count: the concept, the number of its
    visits and their share. *)
Definition visit_counts (o : overview_row) : string * nat * PrimFloat.float :=
  (cui o, n_patient_visit o, n_patient_visit_percent o).


(** Two tables have the same mentions: the same triples of concept, row and
    status occur in their rows. *)
Definition same_mentions (df df' : list (list (string * cell))) : Prop :=
  ∀ key, key ∈ subset_key ["cui"; "row_nr"; "meta_anns"] <$> df
         ↔ key ∈ subset_key ["cui"; "row_nr"; "meta_anns"] <$> df'.

(** * Properties *)

(** Closed decidable facts, by evaluation of their decision procedure. *)
Ltac by_decide := apply (bool_decide_unpack _); vm_compute; exact I.

(** ** GroupSelector *)

Lemma stringified_strings (names : list string) :
  stringified (GStr <$> names) = GStr <$> names.
Proof. by destruct names. Qed.

Lemma listed_groups_nonempty (subset : list group_id) :
  subset ≠ [] → listed_groups subset = Ok (stringified subset).
Proof. by destruct subset. Qed.

Lemma count_occ_app_last (l : list group_id) (g : group_id) :
  g ∉ l → count_occ group_id_eq_dec (l ++ [g]) g = 1.
Proof.
  intros Hnotin. rewrite count_occ_app. simpl.
  destruct (group_id_eq_dec g g) as [_|Hne]; [|done].
  rewrite (proj1 (count_occ_not_In group_id_eq_dec l g)); [done|].
  by rewrite <- list_elem_of_In.
Qed.

Lemma get_groups_order_all (group_names : list string) :
  _get_groups_order (GroupsStr "all") group_names "rest" = Ok (GStr <$> group_names).
Proof.
  reflexivity.
Qed.

Lemma get_groups_order_scalar (groups_subset : groups_arg) group_names reference :
  (∀ l, groups_subset ≠ GroupsSeq l) → groups_subset ≠ GroupsStr "all" →
  _get_groups_order groups_subset group_names reference = Raise ValueError.
Proof.
  intros Hseq Hall. destruct groups_subset as [s|n|l]; [| |by destruct (Hseq l)].
  - unfold _get_groups_order. rewrite decide_False; [done|]. by intros ->.
  - reflexivity.
Qed.

Lemma get_groups_order_unknown_reference (subset : list group_id) group_names reference :
  subset ≠ [] → reference ≠ "rest" → reference ∉ group_names →
  _get_groups_order (GroupsSeq subset) group_names reference = Raise ValueError.
Proof.
  intros Hsubset Hrest Hunknown. unfold _get_groups_order.
  rewrite listed_groups_nonempty by done. cbn [mbind result_bind].
  destruct (decide (reference ≠ "rest" ∧ GStr reference ∉ stringified subset));
    cbn [mbind result_bind]; by rewrite decide_True.
Qed.

(** C8: for an explicit, non-empty group subset and a reference that is a
    known group, is not "rest" and is not among the listed groups (as
    strings, when the list starts with an integer), the canonical order is
    the listed groups followed by the reference, which is its last element
    and occurs in it exactly once. *)
Theorem get_groups_order_appends_reference
    (subset : list group_id) (group_names : list string) (reference : string) :
  subset ≠ [] →
  reference ≠ "rest" →
  reference ∈ group_names →
  GStr reference ∉ stringified subset →
  _get_groups_order (GroupsSeq subset) group_names reference
    = Ok (stringified subset ++ [GStr reference])
  ∧ last (stringified subset ++ [GStr reference]) = Some (GStr reference)
  ∧ count_occ group_id_eq_dec (stringified subset ++ [GStr reference]) (GStr reference) = 1.
Proof.
  intros Hsubset Hrest Hknown Hnew. split_and!.
  - unfold _get_groups_order. rewrite listed_groups_nonempty by done.
    cbn [mbind result_bind].
    rewrite decide_True by done. cbn [mbind result_bind].
    rewrite decide_False by tauto. reflexivity.
  - apply last_snoc.
  - by apply count_occ_app_last.
Qed.

Lemma get_groups_order_appends_reference_witness :
  _get_groups_order (GroupsSeq [GStr "icu"; GStr "ward"]) ["icu"; "ward"; "home"] "home"
    = Ok (stringified [GStr "icu"; GStr "ward"] ++ [GStr "home"])
  ∧ last (stringified [GStr "icu"; GStr "ward"] ++ [GStr "home"]) = Some (GStr "home")
  ∧ count_occ group_id_eq_dec (stringified [GStr "icu"; GStr "ward"] ++ [GStr "home"])
      (GStr "home") = 1.
Proof.
  apply (get_groups_order_appends_reference
           [GStr "icu"; GStr "ward"] ["icu"; "ward"; "home"] "home").
  all: by_decide.
Defined.

(** ** CategoricalTester *)

Lemma filter_all {A} (P : A → Prop) `{!∀ x, Decision (P x)} (l : list A) :
  Forall P l → filter P l = l.
Proof.
  induction 1 as [|x l Hx _ IH]; [done|].
  rewrite filter_cons_True by done. by rewrite IH.
Qed.

Lemma for_each_Forall2 {A B} (body : A → result B) (l : list A) (ys : list B) :
  Forall2 (λ x y, body x = Ok y) l ys → for_each body l = Ok ys.
Proof.
  induction 1 as [|x y l ys Hx _ IH]; [reflexivity|].
  simpl. rewrite Hx. cbn [mbind result_bind]. rewrite IH. reflexivity.
Qed.

Lemma for_each_fmap {A B} (body : A → result B) (f : A → B) (l : list A) :
  (∀ x, x ∈ l → body x = Ok (f x)) → for_each body l = Ok (f <$> l).
Proof.
  intros Hbody. apply for_each_Forall2. apply Forall2_fmap_r, Forall_Forall2_diag.
  by apply Forall_forall.
Qed.

Lemma for_each_length {A B} (body : A → result B) (l : list A) (ys : list B) :
  for_each body l = Ok ys → length ys = length l.
Proof.
  revert ys. induction l as [|x l IH]; intros ys; simpl.
  - by intros [= <-].
  - destruct (body x) as [y|]; [|done]. cbn [mbind result_bind].
    destruct (for_each body l) as [ys'|]; [|done]. cbn [mbind result_bind].
    intros [= <-]. simpl. by rewrite (IH ys').
Qed.

(** The test elements of a list of strings are these strings; a group that
    is in the list as a string is among its test elements. *)
Lemma test_elements_strings (names : list string) :
  test_elements (GStr <$> names) = names.
Proof.
  assert (Hstr : py_str <$> (GStr <$> names) = names).
  { induction names as [|name names IH]; [done|]. csimpl. by rewrite IH. }
  unfold test_elements. destruct names as [|name names]; [done|]. exact Hstr.
Qed.

Lemma elem_of_test_elements (v : string) (groups_order : list group_id) :
  GStr v ∈ groups_order → v ∈ test_elements groups_order.
Proof.
  intros Hin. unfold test_elements.
  destruct (forallb _ groups_order) eqn:Hints.
  - apply list_elem_of_In in Hin. by rewrite forallb_forall in Hints; apply Hints in Hin.
  - by apply (list_elem_of_fmap_2 py_str) in Hin.
Qed.

(** The mask of the "rest" branch is false at the observations of the
    group and at every observation whose group is not among the test
    elements of the canonical order. *)
Lemma rest_reference_mask_false (groups_values : list string) (group : string)
    (groups_order : list group_id) (i : nat) (v : string) :
  groups_values !! i = Some v →
  (rest_reference_mask groups_values group groups_order !! i = Some false
   ↔ v = group ∨ v ∉ test_elements groups_order).
Proof.
  intros Hv. unfold rest_reference_mask, isin. rewrite list_lookup_fmap, Hv. simpl.
  destruct (decide (v = group)) as [->|Hne].
  - rewrite bool_decide_false by (intros Hne; by apply Hne). simpl. tauto.
  - rewrite (bool_decide_true (v ≠ group)) by done. simpl.
    destruct (decide (v ∈ test_elements groups_order)) as [Hin|Hout].
    + rewrite bool_decide_true by done. split; [done|]. intros [?|?]; done.
    + rewrite bool_decide_false by done. tauto.
Qed.

(** The table has a cell when an observation takes part. *)
Lemma crosstab_nil (pairs : list (Z * bool)) : crosstab pairs = [] ↔ pairs = [].
Proof.
  unfold crosstab. split; [|by intros ->].
  intros Hnil%fmap_nil_inv. destruct pairs as [|pair pairs]; [done|]. exfalso.
  assert (Hin : pair.1 ∈ merge_sort Z.le (remove_dups (pair :: pairs).*1)).
  { rewrite merge_sort_Permutation, elem_of_remove_dups, fmap_cons.
    apply list_elem_of_here. }
  rewrite Hnil in Hin. by apply elem_of_nil in Hin.
Qed.

Section CategoricalTesterProperties.
Variable chi2_contingency : list (list nat) → Q → Q * Q.

Lemma group_test_ok feature_values groups_values groups_order reference
    categorical_method lambda_ group :
  dict_get categorical_method tests_to_lambdas = Some lambda_ →
  crosstab_input feature_values groups_values group reference groups_order ≠ [] →
  group_test chi2_contingency feature_values groups_values groups_order reference
    categorical_method group
  = Ok (chi2_contingency
          (crosstab (crosstab_input feature_values groups_values group reference
                       groups_order))
          lambda_).
Proof.
  intros Hmethod Hobservations. unfold group_test, group_statistics. rewrite Hmethod.
  cbn [from_option mbind result_bind]. rewrite decide_False; [done|].
  by rewrite crosstab_nil.
Qed.

Lemma feature_rows_ok adata groups_values group_names groups_order reference
    categorical_method lambda_ feature feature_values :
  dict_get categorical_method tests_to_lambdas = Some lambda_ →
  dict_get feature (X adata) = Some feature_values →
  (∀ group, group ∈ tested_groups group_names groups_order →
     crosstab_input feature_values groups_values group reference groups_order ≠ []) →
  feature_rows chi2_contingency adata groups_values group_names groups_order reference
    categorical_method feature
  = let tests :=
      (λ group,
         chi2_contingency
           (crosstab (crosstab_input feature_values groups_values group reference
                        groups_order))
           lambda_)
      <$> tested_groups group_names groups_order in
    Ok (replicate (length group_names) feature, tests.*1, tests.*2,
        replicate (length group_names) 1%Q, replicate (length group_names) 1%Q).
Proof.
  intros Hmethod Hfeature Hobservations. unfold feature_rows. rewrite Hfeature.
  cbn [from_option mbind result_bind].
  rewrite (for_each_fmap _
    (λ group,
       chi2_contingency
         (crosstab (crosstab_input feature_values groups_values group reference
                      groups_order))
         lambda_)).
  - reflexivity.
  - intros group Hgroup. apply group_test_ok; [done|by apply Hobservations].
Qed.

(** What the function returns when the method is one of the six, the
    grouping column exists, every tested feature is a column of the feature
    matrix and every test has an observation: the rows of the names,
    fold-changes and percentages have one entry per known group; the rows
    of the scores and p-values have one entry per tested group, in the
    order of [tested_groups]. *)
Lemma evaluate_categorical_features_ok adata groupby group_names groups reference
    categorical_method pts groups_order groups_values lambda_ columns :
  _get_groups_order groups group_names reference = Ok groups_order →
  dict_get groupby (obs adata) = Some groups_values →
  dict_get categorical_method tests_to_lambdas = Some lambda_ →
  mapM (λ feature, dict_get feature (X adata)) (tested_features adata groupby)
    = Some columns →
  (∀ feature_values group,
     feature_values ∈ columns → group ∈ tested_groups group_names groups_order →
     crosstab_input feature_values groups_values group reference groups_order ≠ []) →
  let statistics := λ feature_values,
    (λ group,
       chi2_contingency
         (crosstab (crosstab_input feature_values groups_values group reference
                      groups_order))
         lambda_)
    <$> tested_groups group_names groups_order in
  _evaluate_categorical_features chi2_contingency adata groupby group_names groups
    reference categorical_method pts
  = Ok {| categorical_names :=
            replicate (length group_names) <$> tested_features adata groupby;
          categorical_scores := (λ feature_values, (statistics feature_values).*1) <$> columns;
          categorical_pvals := (λ feature_values, (statistics feature_values).*2) <$> columns;
          categorical_logfoldchanges :=
            (λ _, replicate (length group_names) 1%Q) <$> columns;
          categorical_pts :=
            if pts then (λ _, replicate (length group_names) 1%Q) <$> columns else [] |}.
Proof.
  intros Horder Hgroupby Hmethod Hcolumns Hobservations statistics.
  unfold _evaluate_categorical_features. rewrite Horder, Hgroupby.
  cbn [from_option mbind result_bind].
  apply mapM_Some in Hcolumns.
  rewrite (for_each_Forall2 _ _
    ((λ fc, (replicate (length group_names) fc.1, (statistics fc.2).*1, (statistics fc.2).*2,
             replicate (length group_names) 1%Q, replicate (length group_names) 1%Q))
       <$> zip (tested_features adata groupby) columns)).
  - cbn [mbind result_bind]. rewrite <- !list_fmap_compose.
    assert (Hlen := Forall2_length _ _ _ Hcolumns).
    f_equal. f_equal.
    + rewrite <- (fst_zip (tested_features adata groupby) columns) at 2 by lia.
      by rewrite <- list_fmap_compose.
    + rewrite <- (snd_zip (tested_features adata groupby) columns) at 2 by lia.
      by rewrite <- list_fmap_compose.
    + rewrite <- (snd_zip (tested_features adata groupby) columns) at 2 by lia.
      by rewrite <- list_fmap_compose.
    + rewrite <- (snd_zip (tested_features adata groupby) columns) at 2 by lia.
      by rewrite <- list_fmap_compose.
    + destruct pts; [|done].
      rewrite <- (snd_zip (tested_features adata groupby) columns) at 2 by lia.
      by rewrite <- !list_fmap_compose.
  - induction Hcolumns as [|feature feature_values features columns Hfeature _ IH];
      [constructor|].
    simpl. constructor.
    + apply feature_rows_ok; [done..|]. intros group Hgroup.
      apply Hobservations; [apply list_elem_of_here|done].
    + apply IH. intros feature_values' group Hin Hgroup.
      apply Hobservations; [by apply list_elem_of_further|done].
Qed.

End CategoricalTesterProperties.

(** C1 (the code departs from the claim): with the groups "icu" and "ward"
    selected out of "icu", "ward" and "home" and the reference "rest", the
    table of the group "icu" is built from all three visits. The visit of
    the unselected group "home" has a false mask, so it is counted on the
    side of "icu", where it adds the row of diagnosis 2; the statistic is
    computed from that table. *)
Theorem rest_partition_counts_unselected_visit :
  let groups_order := [GStr "icu"; GStr "ward"] in
  let groups_values := ["icu"; "ward"; "home"] in
  let feature_values := [1; 1; 2]%Z in
  _get_groups_order (GroupsSeq [GStr "icu"; GStr "ward"]) ["icu"; "ward"; "home"] "rest"
    = Ok groups_order
  ∧ (GStr "home" ∉ groups_order)
  ∧ rest_reference_mask groups_values "icu" groups_order = [false; true; false]
  ∧ crosstab_input feature_values groups_values "icu" "rest" groups_order
    = [(1, false); (1, true); (2, false)]%Z
  ∧ crosstab (crosstab_input feature_values groups_values "icu" "rest" groups_order)
    = [[1; 1]; [1; 0]]%nat
  ∧ (∀ chi2_contingency,
      categorical_scores <$>
        _evaluate_categorical_features chi2_contingency three_settings "setting"
          ["icu"; "ward"; "home"] (GroupsSeq [GStr "icu"; GStr "ward"]) "rest" "g-test" false
      = Ok [[(chi2_contingency [[1; 1]; [1; 0]]%nat 0%Q).1;
             (chi2_contingency [[1; 1]; [1; 0]]%nat 0%Q).1]]).
Proof.
  cbv zeta. split_and!; try reflexivity.
  by_decide.
Qed.

(** C3 (the code departs from the claim): with two of three known groups
    selected and percentages requested, the arrays of names, fold-changes
    and percentages have three columns, one per known group, while the
    arrays of scores and p-values have two, one per group of the canonical
    order: the five arrays do not have one shape. *)
Theorem evaluate_shapes_differ_on_strict_subset :
  ∀ chi2_contingency,
    ∃ res,
      _get_groups_order (GroupsSeq [GStr "icu"; GStr "ward"]) ["icu"; "ward"; "home"] "rest"
        = Ok [GStr "icu"; GStr "ward"]
      ∧ _evaluate_categorical_features chi2_contingency three_settings "setting"
          ["icu"; "ward"; "home"] (GroupsSeq [GStr "icu"; GStr "ward"]) "rest" "g-test" true
        = Ok res
      ∧ shape (categorical_names res) = [1; 3]
      ∧ shape (categorical_scores res) = [1; 2]
      ∧ shape (categorical_pvals res) = [1; 2]
      ∧ shape (categorical_logfoldchanges res) = [1; 3]
      ∧ shape (categorical_pts res) = [1; 3].
Proof.
  intros chi2_contingency. eexists. split_and!; [reflexivity|reflexivity|..]; reflexivity.
Qed.

(** X7: with all groups selected the five arrays do have one shape: a row per
    tested feature and a column per known group. *)
Lemma evaluate_shapes_agree_on_all (chi2_contingency : list (list nat) → Q → Q * Q)
    adata groupby group_names categorical_method res :
  _evaluate_categorical_features chi2_contingency adata groupby group_names
    (GroupsStr "all") "rest" categorical_method true = Ok res →
  Forall (λ row, length row = length group_names) (categorical_names res)
  ∧ Forall (λ row, length row = length group_names) (categorical_scores res)
  ∧ Forall (λ row, length row = length group_names) (categorical_pvals res)
  ∧ Forall (λ row, length row = length group_names) (categorical_logfoldchanges res)
  ∧ Forall (λ row, length row = length group_names) (categorical_pts res)
  ∧ length (categorical_names res) = length (tested_features adata groupby)
  ∧ length (categorical_scores res) = length (tested_features adata groupby)
  ∧ length (categorical_pvals res) = length (tested_features adata groupby)
  ∧ length (categorical_logfoldchanges res) = length (tested_features adata groupby)
  ∧ length (categorical_pts res) = length (tested_features adata groupby).
Proof.
  unfold _evaluate_categorical_features. rewrite get_groups_order_all.
  cbn [mbind result_bind].
  destruct (dict_get groupby (obs adata)) as [groups_values|]; [|done].
  cbn [from_option mbind result_bind].
  destruct (for_each _ _) as [rows|] eqn:Hrows; [|done].
  cbn [mbind result_bind]. intros [= <-]. cbn.
  assert (Hlen := for_each_length _ _ _ Hrows).
  assert (Hall : Forall (λ r,
      length r.1.1.1.1 = length group_names ∧ length r.1.1.1.2 = length group_names
      ∧ length r.1.1.2 = length group_names ∧ length r.1.2 = length group_names
      ∧ length r.2 = length group_names) rows).
  { clear Hlen. revert rows Hrows.
    induction (tested_features adata groupby) as [|feature features IH]; intros rows; simpl.
    - intros [= <-]. constructor.
    - destruct (feature_rows _ _ _ _ _ _ _ feature) as [row|] eqn:Hrow; [|done].
      cbn [mbind result_bind].
      destruct (for_each _ features) as [rows'|]; [|done].
      cbn [mbind result_bind]. intros [= <-]. constructor; [|by apply IH].
      unfold feature_rows in Hrow.
      destruct (dict_get feature (X adata)) as [feature_values|]; [|done].
      cbn [from_option mbind result_bind] in Hrow.
      destruct (for_each _ (tested_groups _ _)) as [tests|] eqn:Htests; [|done].
      cbn [mbind result_bind] in Hrow. injection Hrow as <-. cbn.
      apply for_each_length in Htests.
      assert (Hfilter : tested_groups group_names (GStr <$> group_names) = group_names).
      { unfold tested_groups. apply filter_all.
        apply Forall_forall. intros group Hgroup. by apply list_elem_of_fmap_2. }
      rewrite Hfilter in Htests.
      rewrite !length_fmap, !length_replicate. done. }
  rewrite !Forall_fmap, !length_fmap.
  split_and!; try done; eapply Forall_impl; try exact Hall; cbn; tauto.
Qed.

(** C4, counterexample: six visits in the known groups "icu", "ward",
    "home", requested in the order "home", "ward", "icu", which is the
    canonical order. The first column of the scores holds the statistic of
    the table of "icu" and the third that of the table of "home", whatever
    the test is. The two tables are not alike: Pearson's statistic, which
    the method "chi-square" asks for, is 4 for "icu" and 12/5 for "home". *)
Lemma scores_columns_not_in_canonical_order :
  let groups_order := [GStr "home"; GStr "ward"; GStr "icu"] in
  let table := λ group,
    crosstab (crosstab_input [1; 1; 2; 2; 3; 3]%Z
                ["icu"; "icu"; "icu"; "ward"; "ward"; "home"] group "rest" groups_order) in
  _get_groups_order (GroupsSeq [GStr "home"; GStr "ward"; GStr "icu"])
    ["icu"; "ward"; "home"] "rest" = Ok groups_order
  ∧ table "icu" = [[2; 0]; [1; 1]; [0; 2]]%nat
  ∧ table "ward" = [[0; 2]; [1; 1]; [1; 1]]%nat
  ∧ table "home" = [[0; 2]; [0; 2]; [1; 1]]%nat
  ∧ (∀ chi2_contingency,
       categorical_scores <$>
         _evaluate_categorical_features chi2_contingency six_visits "setting"
           ["icu"; "ward"; "home"] (GroupsSeq [GStr "home"; GStr "ward"; GStr "icu"])
           "rest" "chi-square" true
       = Ok [[(chi2_contingency (table "icu") 1%Q).1;
              (chi2_contingency (table "ward") 1%Q).1;
              (chi2_contingency (table "home") 1%Q).1]])
  ∧ (pearson_statistic (table "icu") == 4)%Q
  ∧ (pearson_statistic (table "ward") == 3 # 2)%Q
  ∧ (pearson_statistic (table "home") == 12 # 5)%Q
  ∧ ¬ (pearson_statistic (table "icu") == pearson_statistic (table "home"))%Q.
Proof.
  cbv zeta. split_and!; try reflexivity.
  vm_compute. discriminate.
Qed.

(** C4, as the code has it: when every test has an observation, the call
    returns, and the row of scores and the row of p-values of a feature
    hold the statistics of the groups of [tested_groups], in that order:
    the known groups, in their known order, that occur in the canonical
    order. *)
Theorem scores_follow_known_group_order
    (chi2_contingency : list (list nat) → Q → Q * Q)
    adata groupby group_names groups reference categorical_method pts
    groups_order groups_values lambda_ columns :
  _get_groups_order groups group_names reference = Ok groups_order →
  dict_get groupby (obs adata) = Some groups_values →
  dict_get categorical_method tests_to_lambdas = Some lambda_ →
  mapM (λ feature, dict_get feature (X adata)) (tested_features adata groupby)
    = Some columns →
  (∀ feature_values group,
     feature_values ∈ columns →
     group ∈ filter (λ group, GStr group ∈ groups_order) group_names →
     crosstab_input feature_values groups_values group reference groups_order ≠ []) →
  let statistics := λ feature_values,
    (λ group,
       chi2_contingency
         (crosstab (crosstab_input feature_values groups_values group reference
                      groups_order))
         lambda_)
    <$> filter (λ group, GStr group ∈ groups_order) group_names in
  ∃ res,
    _evaluate_categorical_features chi2_contingency adata groupby group_names groups
      reference categorical_method pts = Ok res
    ∧ categorical_scores res = (λ feature_values, (statistics feature_values).*1) <$> columns
    ∧ categorical_pvals res = (λ feature_values, (statistics feature_values).*2) <$> columns.
Proof.
  intros Horder Hgroupby Hmethod Hcolumns Hobservations statistics.
  eexists. split; [|split].
  - by apply (evaluate_categorical_features_ok chi2_contingency _ _ _ _ _ _ pts
               groups_order groups_values lambda_ columns).
  - reflexivity.
  - reflexivity.
Qed.

Lemma scores_follow_known_group_order_witness :
  let statistics := λ feature_values,
    (λ group,
       first_column_total
         (crosstab (crosstab_input feature_values
                      ["icu"; "icu"; "icu"; "ward"; "ward"; "home"] group "rest"
                      [GStr "home"; GStr "ward"; GStr "icu"]))
         1%Q)
    <$> filter (λ group, GStr group ∈ [GStr "home"; GStr "ward"; GStr "icu"])
          ["icu"; "ward"; "home"] in
  ∃ res,
    _evaluate_categorical_features first_column_total six_visits "setting"
      ["icu"; "ward"; "home"] (GroupsSeq [GStr "home"; GStr "ward"; GStr "icu"])
      "rest" "chi-square" true = Ok res
    ∧ categorical_scores res
      = (λ feature_values, (statistics feature_values).*1) <$> [[1; 1; 2; 2; 3; 3]%Z]
    ∧ categorical_pvals res
      = (λ feature_values, (statistics feature_values).*2) <$> [[1; 1; 2; 2; 3; 3]%Z].
Proof.
  apply (scores_follow_known_group_order first_column_total six_visits "setting"
           ["icu"; "ward"; "home"] (GroupsSeq [GStr "home"; GStr "ward"; GStr "icu"])
           "rest" "chi-square" true
           [GStr "home"; GStr "ward"; GStr "icu"]
           ["icu"; "icu"; "icu"; "ward"; "ward"; "home"] 1%Q [[1; 1; 2; 2; 3; 3]%Z]);
    try reflexivity.
  intros feature_values group ->%list_elem_of_singleton Hgroup.
  apply list_elem_of_filter in Hgroup as [_ Hgroup].
  rewrite !elem_of_cons, elem_of_nil in Hgroup.
  destruct Hgroup as [->|[->|[->|[]]]]; discriminate.
Defined.

(** ** The store of array objects *)

Section StoreProperties.
Context {A : Type}.
Implicit Types (h : gmap loc (ndarray A)) (fields : list (string * list A)).

Lemma bind_run {S B C} (m : M S B) (f : B → M S C) (s : S) :
  (m ≫= f) s = match m s with
               | (s', Ok b) => f b s'
               | (s', Raise e) => (s', Raise e)
               end.
Proof. reflexivity. Qed.

Lemma for_M_cons {S B} (body : B → M S unit) (x : B) (l : list B) (s : S) :
  for_M body (x :: l) s = match body x s with
                          | (s', Ok _) => for_M body l s'
                          | (s', Raise e) => (s', Raise e)
                          end.
Proof. reflexivity. Qed.

(** A loop keeps what every run of its body keeps. *)
Lemma for_M_preserves {S B} (R : S → S → Prop) (body : B → M S unit) (l : list B) :
  (∀ s, R s s) → (∀ s1 s2 s3, R s1 s2 → R s2 s3 → R s1 s3) →
  (∀ x s, x ∈ l → R s (body x s).1) →
  ∀ s, R s (for_M body l s).1.
Proof.
  intros Hrefl Htrans. induction l as [|x l IH]; intros Hbody s.
  - apply Hrefl.
  - rewrite for_M_cons. specialize (Hbody x s (list_elem_of_here _ _)) as Hx.
    destruct (body x s) as [s' [[]|e]]; [|exact Hx].
    eapply Htrans; [exact Hx|]. apply IH. intros y s'' Hy.
    apply Hbody. by apply list_elem_of_further.
Qed.

Lemma confined_refl l h : confined l h h.
Proof. split; [done|]. intros a Ha. by exists a. Qed.

Lemma confined_trans l h1 h2 h3 : confined l h1 h2 → confined l h2 h3 → confined l h1 h3.
Proof.
  intros [Hother12 Hat12] [Hother23 Hat23]. split.
  - intros l' Hl'. by rewrite Hother23, Hother12.
  - intros a Ha. destruct (Hat12 a Ha) as (a2 & Ha2 & Hlayout2).
    destruct (Hat23 a2 Ha2) as (a3 & Ha3 & Hlayout3).
    exists a3. split; [done|]. by rewrite Hlayout3.
Qed.

Lemma dict_get_replace_field_ne fields group group' column :
  group' ≠ group →
  dict_get group' (replace_field group column fields) = dict_get group' fields.
Proof.
  intros Hne. induction fields as [|[g c] fields IH]; [done|]. simpl.
  destruct (decide (g = group)) as [->|Hg]; simpl.
  - by rewrite !decide_False by done.
  - destruct (decide (g = group')); [done|]. exact IH.
Qed.

Lemma dict_get_replace_field_eq fields group column :
  is_Some (dict_get group fields) →
  dict_get group (replace_field group column fields) = Some column.
Proof.
  induction fields as [|[g c] fields IH]; simpl.
  - by intros [? ?].
  - destruct (decide (g = group)) as [->|Hg]; simpl.
    + by rewrite decide_True.
    + rewrite decide_False by done. exact IH.
Qed.

Lemma replace_field_names fields group column :
  (replace_field group column fields).*1 = fields.*1.
Proof.
  induction fields as [|[g c] fields IH]; [done|]. simpl.
  destruct (decide (g = group)) as [->|Hg]; csimpl; [done|]. by rewrite IH.
Qed.

Lemma replace_field_layout fields group column old :
  dict_get group fields = Some old → length column = length old →
  layout (Rec (replace_field group column fields)) = layout (Rec fields).
Proof.
  intros Hold Hlen. simpl. f_equal. revert Hold.
  induction fields as [|[g c] fields IH]; [done|]. simpl.
  destruct (decide (g = group)) as [->|Hg]; csimpl.
  - intros [= ->]. by rewrite Hlen.
  - intros Hold. by rewrite IH.
Qed.

Lemma assign_field_layout (a a' : ndarray A) group column :
  assign_field a group column = Ok a' → layout a' = layout a.
Proof.
  destruct a as [fields|rows]; [|done]. simpl.
  destruct (dict_get group fields) as [old|] eqn:Hold; [|done].
  cbn [from_option mbind result_bind].
  destruct (decide (length column = length old)) as [Hlen|Hlen].
  - intros [= <-]. by eapply replace_field_layout.
  - destruct column as [|x [|? ?]]; try done.
    intros [= <-]. eapply replace_field_layout; [done|]. by rewrite length_replicate.
Qed.

Lemma read_run h l : read l h = (h, from_option DanglingReference (h !! l)).
Proof. reflexivity. Qed.

Lemma get_field_state h l group : (get_field l group h).1 = h.
Proof.
  unfold get_field. rewrite bind_run, read_run.
  by destruct (h !! l).
Qed.

Lemma get_field_run h l fields group column :
  h !! l = Some (Rec fields) → dict_get group fields = Some column →
  get_field l group h = (h, Ok column).
Proof.
  intros Hl Hgroup. unfold get_field. rewrite bind_run, read_run, Hl. simpl.
  unfold lift. by rewrite Hgroup.
Qed.

Lemma set_field_run h l fields group column old :
  h !! l = Some (Rec fields) → dict_get group fields = Some old →
  length column = length old →
  set_field l group column h = (<[l := Rec (replace_field group column fields)]> h, Ok ()).
Proof.
  intros Hl Hgroup Hlen. unfold set_field. rewrite bind_run, read_run, Hl. simpl.
  rewrite bind_run. unfold lift. simpl. rewrite Hgroup. simpl.
  by rewrite decide_True.
Qed.

Lemma set_field_confined h l group column : confined l h (set_field l group column h).1.
Proof.
  unfold set_field. rewrite bind_run, read_run.
  destruct (h !! l) as [a|] eqn:Hl; simpl; [|apply confined_refl].
  rewrite bind_run. unfold lift.
  destruct (assign_field a group column) as [a'|] eqn:Hassign; simpl;
    [|apply confined_refl].
  split.
  - intros l' Hl'. by rewrite lookup_insert_ne.
  - intros a0 Ha0. exists a'. rewrite lookup_insert_eq. split; [done|].
    rewrite Hl in Ha0. injection Ha0 as <-. by eapply assign_field_layout.
Qed.

End StoreProperties.

(** ** PValueAdjuster *)

Lemma dict_get_is_Some {V} (d : list (string * V)) (k : string) :
  is_Some (dict_get k d) ↔ k ∈ d.*1.
Proof.
  induction d as [|[k' v] d IH]; csimpl.
  - split; [by intros [? ?]|by intros ?%elem_of_nil].
  - destruct (decide (k' = k)) as [->|Hne].
    + split; [intros _; apply list_elem_of_here|by eexists].
    + rewrite IH. rewrite elem_of_cons. intuition congruence.
Qed.

Lemma ones_like_layout (a : ndarray Q) : layout (ones_like a) = layout a.
Proof.
  destruct a as [fields|rows]; simpl; f_equal.
  - rewrite <- list_fmap_compose. apply list_fmap_ext. intros _ [g c] _. simpl.
    by rewrite length_replicate.
  - rewrite <- list_fmap_compose. apply list_fmap_ext. intros _ r _. simpl.
    by rewrite length_replicate.
Qed.

Lemma dict_get_ones fields group column :
  dict_get group fields = Some column →
  dict_get group ((λ f : string * list Q, (f.1, replicate (length f.2) 1%Q)) <$> fields)
  = Some (replicate (length column) 1%Q).
Proof.
  induction fields as [|[g c] fields IH]; [done|]. csimpl.
  destruct (decide (g = group)); [by intros [= ->]|exact IH].
Qed.

Lemma bonferroni_length (pvals : list Q) : length (bonferroni pvals) = length pvals.
Proof. unfold bonferroni. by rewrite length_fmap. Qed.

(** A p-value is at most its Bonferroni correction. *)
Lemma bonferroni_at_least_raw (pvals : list Q) (i : nat) (p : Q) :
  pvals !! i = Some p → (0 <= p)%Q → (p <= 1)%Q →
  ∃ p_adj, bonferroni pvals !! i = Some p_adj ∧ (p <= p_adj)%Q.
Proof.
  intros Hp Hnonneg Hone. eexists. split.
  - unfold bonferroni. rewrite list_lookup_fmap, Hp. reflexivity.
  - apply Q.min_glb; [exact Hone|].
    assert (Hn : (1 <= inject_Z (Z.of_nat (length pvals)))%Q).
    { apply lookup_lt_Some in Hp. change 1%Q with (inject_Z 1).
      rewrite <- Zle_Qle. lia. }
    apply Qle_trans with (p * 1)%Q.
    + rewrite Qmult_1_r. apply Qle_refl.
    + apply Qmult_le_compat_nonneg; split; try done; apply Qle_refl.
Qed.

Section PValueAdjusterProperties.
Variable multipletests : list Q → string → list Q.

Lemma adjust_group_confined pvals l corr_method group (h : gmap loc (ndarray Q)) :
  confined l h (adjust_group multipletests pvals l corr_method group h).1.
Proof.
  unfold adjust_group. rewrite bind_run.
  pose proof (get_field_state h pvals group) as Hstate.
  destruct (get_field pvals group h) as [h1 [group_pvals|e]]; simpl in Hstate; subst h1;
    [|apply confined_refl].
  rewrite bind_run. unfold lift.
  destruct (from_option KeyError (dict_get corr_method method_map)) as [method|e];
    [|apply confined_refl].
  apply set_field_confined.
Qed.

(** The loop over the groups, when every correction has the length of its
    input: the fields named are replaced by their correction, the others are
    left. *)
Lemma adjust_groups_run pvals l corr_method method fields :
  dict_get corr_method method_map = Some method →
  (∀ ps, length (multipletests ps method) = length ps) →
  pvals ≠ l →
  ∀ names cur (h : gmap loc (ndarray Q)),
    h !! pvals = Some (Rec fields) →
    h !! l = Some (Rec cur) →
    (∀ g, g ∈ names → is_Some (dict_get g fields)) →
    (∀ g col, dict_get g fields = Some col →
       ∃ c, dict_get g cur = Some c ∧ length c = length col) →
    ∃ cur',
      for_M (adjust_group multipletests pvals l corr_method) names h
        = (<[l := Rec cur']> h, Ok ())
      ∧ cur'.*1 = cur.*1
      ∧ (∀ g col, dict_get g fields = Some col → g ∈ names →
           dict_get g cur' = Some (multipletests col method))
      ∧ (∀ g, g ∉ names → dict_get g cur' = dict_get g cur).
Proof.
  intros Hmethod Hlength Hne names.
  induction names as [|group names IH]; intros cur h Hpvals Hl Hnames Hcur.
  - exists cur. split_and!; try done.
    + simpl. by rewrite insert_id.
    + intros g col _ Hg. by apply elem_of_nil in Hg.
  - destruct (Hnames group (list_elem_of_here _ _)) as [col Hcol].
    destruct (Hcur group col Hcol) as (old & Hold & Hold_length).
    set (cur1 := replace_field group (multipletests col method) cur).
    assert (Hstep : adjust_group multipletests pvals l corr_method group h
                    = (<[l := Rec cur1]> h, Ok ())).
    { unfold adjust_group. rewrite bind_run, (get_field_run h pvals fields group col) by done.
      rewrite bind_run. unfold lift. rewrite Hmethod. simpl.
      apply (set_field_run h l cur group _ old); [done|done|].
      by rewrite Hlength. }
    destruct (IH cur1 (<[l := Rec cur1]> h)) as (cur' & Hrun & Hnames' & Hdone & Hrest).
    + by rewrite lookup_insert_ne.
    + by rewrite lookup_insert_eq.
    + intros g Hg. apply Hnames. by apply list_elem_of_further.
    + intros g c Hg. destruct (decide (g = group)) as [->|Hg_ne].
      * exists (multipletests col method). split.
        -- apply dict_get_replace_field_eq. by eexists.
        -- rewrite Hlength. congruence.
      * unfold cur1. rewrite dict_get_replace_field_ne by done. by apply Hcur.
    + exists cur'. split_and!.
      * rewrite for_M_cons, Hstep, Hrun. by rewrite insert_insert_eq.
      * rewrite Hnames'. apply replace_field_names.
      * intros g c Hg Hin. destruct (decide (g ∈ names)) as [Hlater|Hnot_later].
        -- by apply Hdone.
        -- apply elem_of_cons in Hin as [->|?]; [|done].
           rewrite Hrest by done. unfold cur1.
           rewrite dict_get_replace_field_eq by (by eexists). congruence.
      * intros g Hg. apply not_elem_of_cons in Hg as [Hg_ne Hg_later].
        rewrite Hrest by done. unfold cur1. by rewrite dict_get_replace_field_ne.
Qed.

(** The run of [_adjust_pvalues] on a record array, for a supported method
    and corrections as long as their input: it returns a new array object
    with the same field names, each field holding the correction of the
    field of that name. *)
Lemma adjust_pvalues_run (h : gmap loc (ndarray Q)) pvals corr_method method fields :
  h !! pvals = Some (Rec fields) →
  dict_get corr_method method_map = Some method →
  (∀ ps, length (multipletests ps method) = length ps) →
  ∃ fields',
    _adjust_pvalues multipletests pvals corr_method h
      = (<[fresh (dom h) := Rec fields']> h, Ok (fresh (dom h)))
    ∧ fields'.*1 = fields.*1
    ∧ (∀ g col, dict_get g fields = Some col →
         dict_get g fields' = Some (multipletests col method)).
Proof.
  intros Hpvals Hmethod Hlength.
  set (l := fresh (dom h)).
  assert (Hfresh : h !! l = None) by apply not_elem_of_dom, is_fresh.
  assert (Hne : pvals ≠ l) by (intros ->; congruence).
  set (ones := (λ f : string * list Q, (f.1, replicate (length f.2) 1%Q)) <$> fields).
  destruct (adjust_groups_run pvals l corr_method method fields Hmethod Hlength Hne
              fields.*1 ones (<[l := Rec ones]> h))
    as (fields' & Hrun & Hnames & Hdone & _).
  - by rewrite lookup_insert_ne.
  - by rewrite lookup_insert_eq.
  - intros g Hg. by apply dict_get_is_Some.
  - intros g col Hg. exists (replicate (length col) 1%Q). split.
    + by apply dict_get_ones.
    + by rewrite length_replicate.
  - exists fields'. split_and!.
    + unfold _adjust_pvalues. rewrite bind_run, read_run, Hpvals. simpl.
      rewrite bind_run. unfold new_array. fold l. simpl.
      rewrite bind_run. unfold lift. simpl. rewrite bind_run.
      fold ones. rewrite Hrun. by rewrite insert_insert_eq.
    + rewrite Hnames. unfold ones. rewrite <- list_fmap_compose.
      by apply list_fmap_ext.
    + intros g col Hg. apply Hdone; [done|].
      apply dict_get_is_Some. by eexists.
Qed.

End PValueAdjusterProperties.

(** C6: when the correction primitive computes Bonferroni's correction and
    the stored values are p-values (between zero and one), the adjuster
    returns an array with the same group columns in which every group
    column is the correction of the raw column of that group alone, and
    every entry is at least the raw p-value at the same position. *)
Theorem bonferroni_adjusted_at_least_raw_per_group
    (multipletests : list Q → string → list Q)
    (h : gmap loc (ndarray Q)) (pvals : loc) (fields : list (string * list Q)) :
  (∀ ps, multipletests ps "bonferroni" = bonferroni ps) →
  h !! pvals = Some (Rec fields) →
  (∀ group raw p, dict_get group fields = Some raw → p ∈ raw → (0 <= p)%Q ∧ (p <= 1)%Q) →
  ∃ h' pvals_adj fields',
    _adjust_pvalues multipletests pvals "bonferroni" h = (h', Ok pvals_adj)
    ∧ h' !! pvals_adj = Some (Rec fields')
    ∧ fields'.*1 = fields.*1
    ∧ ∀ group raw, dict_get group fields = Some raw →
        dict_get group fields' = Some (bonferroni raw)
        ∧ ∀ feature p, raw !! feature = Some p →
            ∃ p_adj, bonferroni raw !! feature = Some p_adj ∧ (p <= p_adj)%Q.
Proof.
  intros Hbonferroni Hpvals Hrange.
  destruct (adjust_pvalues_run multipletests h pvals "bonferroni" "bonferroni" fields)
    as (fields' & Hrun & Hnames & Hcolumns); [done|reflexivity|..].
  { intros ps. rewrite Hbonferroni. apply bonferroni_length. }
  exists (<[fresh (dom h) := Rec fields']> h), (fresh (dom h)), fields'.
  split_and!; [done|by rewrite lookup_insert_eq|done|].
  intros group raw Hraw. split.
  - rewrite (Hcolumns group raw Hraw). by rewrite Hbonferroni.
  - intros feature p Hp.
    destruct (Hrange group raw p Hraw) as [Hnonneg Hone].
    { by eapply list_elem_of_lookup_2. }
    by apply bonferroni_at_least_raw.
Qed.

Lemma bonferroni_adjusted_at_least_raw_per_group_witness :
  ∃ h' pvals_adj fields',
    _adjust_pvalues (λ ps _, bonferroni ps) 1%positive "bonferroni"
      {[ 1%positive := Rec [("icu", [1 # 100; 1 # 5]%Q); ("ward", [1 # 2; 1 # 25]%Q)] ]}
      = (h', Ok pvals_adj)
    ∧ h' !! pvals_adj = Some (Rec fields')
    ∧ fields'.*1 = [("icu", [1 # 100; 1 # 5]%Q); ("ward", [1 # 2; 1 # 25]%Q)].*1
    ∧ ∀ group raw,
        dict_get group [("icu", [1 # 100; 1 # 5]%Q); ("ward", [1 # 2; 1 # 25]%Q)] = Some raw →
        dict_get group fields' = Some (bonferroni raw)
        ∧ ∀ feature p, raw !! feature = Some p →
            ∃ p_adj, bonferroni raw !! feature = Some p_adj ∧ (p <= p_adj)%Q.
Proof.
  apply (bonferroni_adjusted_at_least_raw_per_group (λ ps _, bonferroni ps)
           {[ 1%positive := Rec [("icu", [1 # 100; 1 # 5]%Q); ("ward", [1 # 2; 1 # 25]%Q)] ]}
           1%positive [("icu", [1 # 100; 1 # 5]%Q); ("ward", [1 # 2; 1 # 25]%Q)]).
  - reflexivity.
  - reflexivity.
  - intros group raw p Hraw Hp. simpl in Hraw.
    repeat case_decide; simplify_eq;
      repeat (apply elem_of_cons in Hp as [->|Hp]); try (by apply elem_of_nil in Hp);
      split; discriminate.
Defined.

(** C10: whatever the method and the outcome, the adjuster leaves every
    array object of the store as it was, among them the array of raw
    p-values; the array it returns is a new object, with the field names and
    lengths of the raw array. *)
Theorem adjust_pvalues_leaves_input
    (multipletests : list Q → string → list Q)
    (h : gmap loc (ndarray Q)) (pvals : loc) (corr_method : string) :
  let outcome := _adjust_pvalues multipletests pvals corr_method h in
  (∀ l a, h !! l = Some a → outcome.1 !! l = Some a)
  ∧ (∀ pvals_adj, outcome.2 = Ok pvals_adj →
       h !! pvals_adj = None
       ∧ ∃ a a', h !! pvals = Some a ∧ outcome.1 !! pvals_adj = Some a'
                 ∧ layout a' = layout a).
Proof.
  cbv zeta. unfold _adjust_pvalues. rewrite bind_run, read_run.
  destruct (h !! pvals) as [a|] eqn:Hpvals; simpl; [|by split].
  rewrite bind_run. unfold new_array. simpl.
  set (l := fresh (dom h)).
  assert (Hfresh : h !! l = None) by apply not_elem_of_dom, is_fresh.
  set (h1 := <[l := ones_like a]> h).
  assert (Hold : ∀ l' a', h !! l' = Some a' → h1 !! l' = Some a').
  { intros l' a' Hl'. unfold h1. rewrite lookup_insert_ne; [done|]. congruence. }
  rewrite bind_run. unfold lift. simpl.
  destruct (dtype_names a) as [names|]; simpl; [|by split].
  rewrite bind_run.
  pose proof (for_M_preserves (confined l)
                (adjust_group multipletests pvals l corr_method) names
                (confined_refl l) (confined_trans l)
                (λ group s _, adjust_group_confined multipletests pvals l corr_method group s)
                h1) as [Hother Hat].
  destruct (for_M _ names h1) as [h2 [[]|e]]; simpl in *.
  - split.
    + intros l' a' Hl'. rewrite Hother by congruence. by apply Hold.
    + intros pvals_adj [= <-]. split; [done|].
      destruct (Hat (ones_like a)) as (a' & Ha' & Hlayout).
      { unfold h1. by rewrite lookup_insert_eq. }
      exists a, a'. split_and!; [done|done|].
      by rewrite Hlayout, ones_like_layout.
  - split; [|done].
    intros l' a' Hl'. rewrite Hother by congruence. by apply Hold.
Qed.

(** ** ResultStore *)

Lemma dict_get_dict_set_eq {V} (d : list (string * V)) (k : string) (v : V) :
  dict_get k (dict_set k v d) = Some v.
Proof.
  induction d as [|[k' v'] d IH]; simpl.
  - by rewrite decide_True.
  - destruct (decide (k' = k)) as [->|Hne]; simpl.
    + by rewrite decide_True.
    + by rewrite decide_False.
Qed.

Lemma dict_get_dict_set_ne {V} (d : list (string * V)) (k k' : string) (v : V) :
  k' ≠ k → dict_get k' (dict_set k v d) = dict_get k' d.
Proof.
  intros Hne. induction d as [|[k0 v0] d IH]; simpl.
  - by rewrite decide_False.
  - destruct (decide (k0 = k)) as [->|Hk0]; simpl.
    + by rewrite !decide_False by done.
    + destruct (decide (k0 = k')); [done|]. exact IH.
Qed.

Section ResultStoreProperties.
Context {A : Type}.
Variable nan : A.

Lemma on_mem_run {B} (m : M (gmap loc (ndarray A)) B) (w : world A) :
  on_mem m w = (World (m (mem w)).1 (uns w), (m (mem w)).2).
Proof. unfold on_mem. by destruct (m (mem w)). Qed.

Lemma save_field_None key_added groups_order key (w : world A) :
  save_field nan key_added groups_order (None, key) w = (w, Ok ()).
Proof. reflexivity. Qed.

(** A save call that passes one field runs the loop body for that field. *)
Lemma save_only_field key_added groups_order i key values (w : world A) :
  field_names !! i = Some key →
  _save_rank_features_result nan key_added
    (only i values 0) (only i values 1) (only i values 2)
    (only i values 3) (only i values 4) (only i values 5) groups_order w
  = save_field nan key_added groups_order (Some values, key) w.
Proof.
  intros Hkey. unfold _save_rank_features_result, field_names in *.
  do 6 (destruct i as [|i];
    [injection Hkey as <-; unfold only; simpl zip;
     repeat (rewrite for_M_cons, ?save_field_None; cbv beta iota);
     destruct (save_field _ _ _ (Some _, _) w) as [w' [[]|e]]; cbv beta iota;
     repeat (rewrite for_M_cons, ?save_field_None; cbv beta iota);
     reflexivity|]).
  done.
Qed.

(** The merge of a stored record array with the fields [a], [b] and a plain
    array of two columns given as [b], [a]. *)
Lemma merge_values_swapped (a b : string) (first_a first_b : list A) (rows : list (list A)) :
  a ≠ b →
  Forall (λ r, length r = 2) rows →
  merge_values nan (Rec [(a, first_a); (b, first_b)]) (Plain rows) [b; a]
  = Ok (Rec [(b, first_b ++ omap (λ r, r !! 0) rows);
             (a, first_a ++ omap (λ r, r !! 1) rows)]).
Proof.
  intros Hne Hrows. unfold merge_values. simpl.
  rewrite (decide_False (P := a = b)) by done.
  rewrite !decide_True by done. simpl.
  assert (Hcheck : forallb (λ r : list A, bool_decide (length r = 2)) rows = true).
  { apply forallb_forall. intros r Hr. apply bool_decide_eq_true_2.
    apply list_elem_of_In in Hr. by eapply (proj1 (Forall_forall _ _) Hrows). }
  rewrite Hcheck. simpl.
  rewrite decide_True; [done|].
  repeat constructor; rewrite ?elem_of_cons, ?elem_of_nil; intuition congruence.
Qed.

(** The first save of a field stores the array object that was passed. *)
Lemma save_field_stores key_added groups_order key values d arr (w : world A) :
  uns w !! key_added = Some d →
  dict_get key d = None →
  mem w !! values = Some arr →
  len arr ≠ 0 →
  save_field nan key_added groups_order (Some values, key) w
  = (World (mem w) (<[key_added := dict_set key (VArr values) d]> (uns w)), Ok ()).
Proof.
  intros Huns Hkey Hvalues Hlen. unfold save_field. simpl.
  rewrite bind_run, on_mem_run, read_run, Hvalues. simpl.
  rewrite decide_False by done.
  rewrite bind_run. unfold get_uns. simpl. rewrite Huns. simpl.
  by rewrite Hkey.
Qed.

(** A later save of the field stores a new array object, the merge of the
    stored one with the array that was passed. *)
Lemma save_field_merges key_added groups_order key values recarray d arr stored merged
    (w : world A) :
  uns w !! key_added = Some d →
  dict_get key d = Some (VArr recarray) →
  mem w !! values = Some arr →
  len arr ≠ 0 →
  mem w !! recarray = Some stored →
  merge_values nan stored arr groups_order = Ok merged →
  save_field nan key_added groups_order (Some values, key) w
  = (World (<[fresh (dom (mem w)) := merged]> (mem w))
           (<[key_added := dict_set key (VArr (fresh (dom (mem w)))) d]> (uns w)),
     Ok ()).
Proof.
  intros Huns Hkey Hvalues Hlen Hrecarray Hmerge. unfold save_field. simpl.
  rewrite bind_run, on_mem_run, read_run, Hvalues. simpl.
  rewrite decide_False by done.
  rewrite bind_run. unfold get_uns. simpl. rewrite Huns. simpl.
  rewrite Hkey. rewrite bind_run, on_mem_run. simpl.
  unfold _merge_arrays. rewrite bind_run, read_run, Hrecarray. simpl.
  rewrite bind_run. unfold lift. rewrite Hmerge. simpl. reflexivity.
Qed.

End ResultStoreProperties.

(** C5: two saves of one field under one key, the first passing a record
    array with the group columns [a], [b] and the second a plain array whose
    two columns are given in the order [b], [a] (column 0 holds the values
    of [b], column 1 those of [a]): the array stored at the end has, under
    the name [a], the values the first call had for [a] followed by those
    the second call had for [a], and likewise for [b]. *)
Theorem save_twice_aligns_columns_by_name {A} (nan : A) (w : world A)
    (key_added key : string) (i : nat) (d : list (string * value))
    (a b : string) (first second : loc)
    (first_a first_b : list A) (rows : list (list A)) :
  field_names !! i = Some key →
  uns w !! key_added = Some d →
  dict_get key d = None →
  a ≠ b →
  mem w !! first = Some (Rec [(a, first_a); (b, first_b)]) →
  first_a ≠ [] →
  mem w !! second = Some (Plain rows) →
  rows ≠ [] →
  Forall (λ r, length r = 2) rows →
  let save := λ values groups_order,
    _save_rank_features_result nan key_added
      (only i values 0) (only i values 1) (only i values 2)
      (only i values 3) (only i values 4) (only i values 5) groups_order in
  ∃ w' merged stored,
    (save first [a; b];; save second [b; a]) w = (w', Ok ())
    ∧ uns w' !! key_added ≫= dict_get key = Some (VArr merged)
    ∧ mem w' !! merged = Some stored
    ∧ dtype_names stored = Some [b; a]
    ∧ field stored a = Ok (first_a ++ omap (λ r, r !! 1) rows)
    ∧ field stored b = Ok (first_b ++ omap (λ r, r !! 0) rows).
Proof.
  intros Hkey Huns Hnew Hne Hfirst Hfirst_len Hsecond Hrows_len Hrows save.
  set (d1 := dict_set key (VArr first) d).
  set (w1 := World (mem w) (<[key_added := d1]> (uns w))).
  assert (Hsave1 : save first [a; b] w = (w1, Ok ())).
  { unfold save. rewrite (save_only_field nan _ _ i key) by done.
    apply (save_field_stores nan _ _ _ _ d (Rec [(a, first_a); (b, first_b)])); try done.
    simpl. by destruct first_a. }
  set (merged := fresh (dom (mem w))).
  set (stored := Rec [(b, first_b ++ omap (λ r, r !! 0) rows);
                      (a, first_a ++ omap (λ r, r !! 1) rows)]).
  assert (Hsave2 : save second [b; a] w1
                   = (World (<[merged := stored]> (mem w))
                            (<[key_added := dict_set key (VArr merged) d1]> (uns w1)),
                      Ok ())).
  { unfold save. rewrite (save_only_field nan _ _ i key) by done.
    rewrite (save_field_merges nan _ _ _ _ first d1 (Plain rows)
               (Rec [(a, first_a); (b, first_b)]) stored); try done.
    - unfold w1. simpl. by rewrite lookup_insert_eq.
    - unfold d1. by rewrite dict_get_dict_set_eq.
    - simpl. by destruct rows.
    - by apply merge_values_swapped. }
  eexists _, merged, stored. split_and!.
  - rewrite bind_run, Hsave1. exact Hsave2.
  - simpl. rewrite lookup_insert_eq. simpl. by rewrite dict_get_dict_set_eq.
  - simpl. by rewrite lookup_insert_eq.
  - reflexivity.
  - simpl. rewrite (decide_False (P := b = a)) by done. by rewrite decide_True.
  - simpl. by rewrite decide_True.
Qed.

Lemma save_twice_aligns_columns_by_name_witness :
  let w := World {[ 1%positive := Rec [("A", [1; 2]%Q); ("B", [3; 4]%Q)];
                    2%positive := Plain [[5; 6]; [7; 8]]%Q ]}
                 {[ "rank_features_groups" := [("params", VParams)] ]} in
  let save := λ values groups_order,
    _save_rank_features_result 0%Q "rank_features_groups"
      (only 2 values 0) (only 2 values 1) (only 2 values 2)
      (only 2 values 3) (only 2 values 4) (only 2 values 5) groups_order in
  ∃ w' merged stored,
    (save 1%positive ["A"; "B"];; save 2%positive ["B"; "A"]) w = (w', Ok ())
    ∧ uns w' !! "rank_features_groups" ≫= dict_get "pvals" = Some (VArr merged)
    ∧ mem w' !! merged = Some stored
    ∧ dtype_names stored = Some ["B"; "A"]
    ∧ field stored "A" = Ok ([1; 2]%Q ++ omap (λ r, r !! 1) [[5; 6]; [7; 8]]%Q)
    ∧ field stored "B" = Ok ([3; 4]%Q ++ omap (λ r, r !! 0) [[5; 6]; [7; 8]]%Q).
Proof.
  apply (save_twice_aligns_columns_by_name 0%Q
           (World {[ 1%positive := Rec [("A", [1; 2]%Q); ("B", [3; 4]%Q)];
                     2%positive := Plain [[5; 6]; [7; 8]]%Q ]}
                  {[ "rank_features_groups" := [("params", VParams)] ]})
           "rank_features_groups" "pvals" 2 [("params", VParams)] "A" "B"
           1%positive 2%positive);
    try reflexivity; try discriminate.
  repeat constructor.
Defined.

(** ** ResultSorter *)

Section ResultSorterProperties.
Context {A : Type}.
Implicit Types (h : gmap loc (ndarray A)) (d : list (string * value)).

Lemma take_indexes_in_range (column : list A) (indexes : list nat) :
  Forall (λ i, i < length column) indexes →
  ∃ sorted, take_indexes column indexes = Ok sorted ∧ length sorted = length indexes.
Proof.
  induction 1 as [|i indexes Hi _ (sorted & Hsorted & Hlength)].
  - by exists [].
  - destruct (lookup_lt_is_Some_2 column i Hi) as [x Hx].
    exists (x :: sorted). unfold take_indexes in *. simpl.
    rewrite Hx, Hsorted. simpl. by rewrite Hlength.
Qed.

Lemma parallel_field h locs groups n l fields group :
  parallel h locs groups n → l ∈ locs → h !! l = Some (Rec fields) → group ∈ groups →
  ∃ column, dict_get group fields = Some column ∧ length column = n.
Proof.
  intros Hparallel Hl Hfields Hgroup.
  destruct (Hparallel l Hl) as (fields' & Hfields' & Hnames & Hlengths).
  rewrite Hfields in Hfields'. injection Hfields' as <-.
  destruct (proj2 (dict_get_is_Some fields group)) as [column Hcolumn];
    [by rewrite Hnames|].
  exists column. split; [done|]. clear Hnames Hfields.
  induction fields as [|[g c] fields IH]; [done|]. simpl in Hcolumn.
  apply Forall_cons in Hlengths as [Hc Hlengths].
  destruct (decide (g = group)); [by injection Hcolumn as <-|by apply IH].
Qed.

Lemma sorted_locs_cons_params key v d :
  key = "params" → sorted_locs ((key, v) :: d) = sorted_locs d.
Proof. intros ->. reflexivity. Qed.

Lemma sorted_locs_cons_array key l d :
  key ≠ "params" → sorted_locs ((key, VArr l) :: d) = l :: sorted_locs d.
Proof. intros Hkey. unfold sorted_locs. simpl. by rewrite decide_False. Qed.

Lemma sorted_locs_dict_get d key l :
  key ≠ "params" → dict_get key d = Some (VArr l) → l ∈ sorted_locs d.
Proof.
  intros Hkey. induction d as [|[k v] d IH]; [done|]. cbn [dict_get].
  destruct (decide (k = key)) as [->|Hne].
  - intros [= ->]. rewrite sorted_locs_cons_array by done. apply list_elem_of_here.
  - intros Hd. specialize (IH Hd).
    destruct (decide (k = "params")) as [Hparams|Hk].
    + by rewrite sorted_locs_cons_params.
    + destruct v as [l'|].
      * rewrite sorted_locs_cons_array by done. by apply list_elem_of_further.
      * unfold sorted_locs in *. simpl. by rewrite decide_False.
Qed.

(** The loop over the keys, for one group and the positions [indexes]:
    the field of the group is reordered in every array of [sorted_locs],
    and nothing else is written. *)
Lemma sort_fields_run group indexes n :
  Forall (λ i, i < n) indexes → length indexes = n →
  ∀ d h u,
    holds_arrays d →
    NoDup (sorted_locs d) →
    (∀ l, l ∈ sorted_locs d →
       ∃ fields column, h !! l = Some (Rec fields) ∧ dict_get group fields = Some column
                        ∧ length column = n) →
    ∃ h',
      for_M (sort_field group indexes) d (World h u) = (World h' u, Ok ())
      ∧ (∀ l, l ∉ sorted_locs d → h' !! l = h !! l)
      ∧ (∀ l fields column,
           l ∈ sorted_locs d → h !! l = Some (Rec fields) →
           dict_get group fields = Some column →
           ∃ sorted, take_indexes column indexes = Ok sorted
                     ∧ h' !! l = Some (Rec (replace_field group sorted fields))).
Proof.
  intros Hrange Hlength d.
  induction d as [|[key v] d IH]; intros h u Harrays Hnodup Hfields.
  - exists h. split_and!; [done|done|]. intros l ? ? Hl. by apply elem_of_nil in Hl.
  - apply Forall_cons in Harrays as [Hentry Harrays].
    destruct (decide (key = "params")) as [Hparams|Hkey].
    + rewrite sorted_locs_cons_params in * by done.
      destruct (IH h u Harrays Hnodup Hfields) as (h' & Hrun & Hother & Hsorted).
      exists h'. split_and!; [|done|done].
      rewrite for_M_cons. unfold sort_field at 1. simpl.
      rewrite decide_True by done. exact Hrun.
    + destruct Hentry as [?|[l Hv]]; [done|]. simpl in Hv. subst v.
      rewrite sorted_locs_cons_array in * by done.
      apply NoDup_cons in Hnodup as [Hl_fresh Hnodup].
      destruct (Hfields l (list_elem_of_here _ _)) as (fields & column & Hl & Hcolumn & Hn).
      destruct (take_indexes_in_range column indexes) as (sorted & Hsorted & Hsorted_length).
      { by rewrite Hn. }
      set (h1 := <[l := Rec (replace_field group sorted fields)]> h).
      assert (Hstep : sort_field group indexes (key, VArr l) (World h u)
                      = (World h1 u, Ok ())).
      { unfold sort_field. simpl. rewrite decide_False by done.
        rewrite bind_run, on_mem_run. simpl.
        rewrite (get_field_run h l fields group column) by done. simpl.
        rewrite bind_run. unfold lift. rewrite Hsorted. simpl.
        rewrite on_mem_run. simpl.
        rewrite (set_field_run h l fields group sorted column) by (done || congruence).
        reflexivity. }
      destruct (IH h1 u Harrays Hnodup) as (h' & Hrun & Hother & Hdone).
      { intros l' Hl'. unfold h1. rewrite lookup_insert_ne by (intros ->; done).
        apply Hfields. by apply list_elem_of_further. }
      exists h'. split_and!.
      * by rewrite for_M_cons, Hstep.
      * intros l' Hl'. apply not_elem_of_cons in Hl' as [Hne Hl'].
        rewrite Hother by done. unfold h1. by rewrite lookup_insert_ne.
      * intros l' fields' column' Hl' Hfields' Hcolumn'.
        apply elem_of_cons in Hl' as [->|Hl'].
        -- rewrite Hl in Hfields'. injection Hfields' as <-.
           rewrite Hcolumn in Hcolumn'. injection Hcolumn' as <-.
           exists sorted. split; [done|].
           rewrite Hother by done. unfold h1. by rewrite lookup_insert_eq.
        -- apply Hdone; [done| |done].
           unfold h1. rewrite lookup_insert_ne by (intros ->; done). done.
Qed.

End ResultSorterProperties.

Section SortGroups.
Context {A : Type}.
Variable argsort : list A → list nat.
(** The state before the call: the fields [d] under the key, the array
    objects [h0], and the array of adjusted p-values. *)
Variables (key_added : string) (d : list (string * value))
  (u : gmap string (list (string * value))) (h0 : gmap loc (ndarray A))
  (pvals_adj : loc) (adj0 : list (string * list A)) (groups : list string) (n : nat).
Hypothesis Huns : u !! key_added = Some d.
Hypothesis Harrays : holds_arrays d.
Hypothesis Hnodup : NoDup (sorted_locs d).
Hypothesis Hadj_loc : pvals_adj ∈ sorted_locs d.
Hypothesis Hadj : h0 !! pvals_adj = Some (Rec adj0).
Hypothesis Hparallel : parallel h0 (sorted_locs d) groups n.
Hypothesis Hargsort : ∀ g c, dict_get g adj0 = Some c → argsort c ≡ₚ seq 0 (length c).

Local Abbreviation sorted_upto := (sorted_upto argsort d h0 adj0).

Lemma sorted_upto_start : sorted_upto [] h0.
Proof.
  split; [done|]. intros l fields0 _ Hl. exists fields0. split_and!; [done|done|].
  intros g c0 Hc0. split; [by intros ?%elem_of_nil|done].
Qed.

Lemma sort_group_step done g h :
  sorted_upto done h → g ∈ groups → g ∉ done →
  ∃ h',
    sort_group argsort key_added pvals_adj g (World h u) = (World h' u, Ok ())
    ∧ sorted_upto (done ++ [g]) h'.
Proof.
  intros [Hother Hin] Hg Hnew.
  destruct (Hin pvals_adj adj0 Hadj_loc Hadj) as (adj & Hadj_cur & _ & Hadj_cols).
  destruct (parallel_field h0 _ groups n pvals_adj adj0 g Hparallel Hadj_loc Hadj Hg)
    as (c_adj & Hc_adj & Hc_adj_len).
  destruct (Hadj_cols g c_adj Hc_adj) as [_ Hc_adj_cur]. specialize (Hc_adj_cur Hnew).
  pose proof (Hargsort g c_adj Hc_adj) as Hperm. rewrite Hc_adj_len in Hperm.
  assert (Hrange : Forall (λ i, i < n) (argsort c_adj)).
  { rewrite Hperm. apply Forall_seq. intros; lia. }
  assert (Hlength : length (argsort c_adj) = n).
  { by rewrite Hperm, length_seq. }
  assert (Hcurrent : ∀ l, l ∈ sorted_locs d →
            ∃ fields column, h !! l = Some (Rec fields)
                             ∧ dict_get g fields = Some column ∧ length column = n).
  { intros l Hl. destruct (Hparallel l Hl) as (fields0 & Hfields0 & _ & _).
    destruct (parallel_field h0 _ groups n l fields0 g Hparallel Hl Hfields0 Hg)
      as (c0 & Hc0 & Hc0_len).
    destruct (Hin l fields0 Hl Hfields0) as (fields & Hfields & _ & Hcols).
    exists fields, c0. split_and!; [done| |done]. by apply (Hcols g c0 Hc0). }
  destruct (sort_fields_run g (argsort c_adj) n Hrange Hlength d h u Harrays Hnodup Hcurrent)
    as (h' & Hrun & Hother' & Hsorted).
  exists h'. split.
  - unfold sort_group. rewrite bind_run, on_mem_run. simpl.
    rewrite (get_field_run h pvals_adj adj g c_adj) by done. simpl.
    rewrite bind_run. unfold get_uns. simpl. rewrite Huns. simpl. exact Hrun.
  - split.
    + intros l Hl. rewrite Hother' by done. by apply Hother.
    + intros l fields0 Hl Hfields0.
      destruct (Hin l fields0 Hl Hfields0) as (fields & Hfields & Hnames & Hcols).
      destruct (parallel_field h0 _ groups n l fields0 g Hparallel Hl Hfields0 Hg)
        as (c0 & Hc0 & Hc0_len).
      assert (Hc0_cur : dict_get g fields = Some c0) by by apply (Hcols g c0 Hc0).
      destruct (Hsorted l fields c0 Hl Hfields Hc0_cur) as (sorted & Htake & Hl').
      exists (replace_field g sorted fields). split_and!; [done| |].
      * by rewrite replace_field_names.
      * intros g' c0' Hc0'. destruct (decide (g' = g)) as [->|Hne].
        -- split; [|intros Hout; exfalso; apply Hout, elem_of_app; right;
                     apply list_elem_of_here].
           intros _. exists c_adj, sorted. rewrite Hc0 in Hc0'. injection Hc0' as <-.
           split_and!; [done|done|].
           apply dict_get_replace_field_eq. by eexists.
        -- rewrite dict_get_replace_field_ne by done.
           destruct (Hcols g' c0' Hc0') as [Hdone Hundone]. split.
           ++ intros [Hg'|Hg']%elem_of_app; [by apply Hdone|].
              by apply list_elem_of_singleton in Hg'.
           ++ intros Hout. apply Hundone. intros Hg'. apply Hout, elem_of_app. by left.
Qed.

Lemma sort_groups_run rest :
  ∀ done h,
    sorted_upto done h → (∀ g, g ∈ rest → g ∈ groups) → NoDup rest →
    (∀ g, g ∈ rest → g ∉ done) →
    ∃ h',
      for_M (sort_group argsort key_added pvals_adj) rest (World h u) = (World h' u, Ok ())
      ∧ sorted_upto (done ++ rest) h'.
Proof.
  induction rest as [|g rest IH]; intros done h Hinv Hgroups Hnodup_rest Hnew.
  - exists h. by rewrite app_nil_r.
  - apply NoDup_cons in Hnodup_rest as [Hg_once Hnodup_rest].
    destruct (sort_group_step done g h Hinv) as (h1 & Hstep & Hinv1).
    { apply Hgroups, list_elem_of_here. }
    { apply Hnew, list_elem_of_here. }
    destruct (IH (done ++ [g]) h1 Hinv1) as (h' & Hrun & Hinv').
    { intros g' Hg'. by apply Hgroups, list_elem_of_further. }
    { done. }
    { intros g' Hg' [Hdone|Hg]%elem_of_app.
      - by apply (Hnew g' (list_elem_of_further _ _ _ Hg')).
      - apply list_elem_of_singleton in Hg. by subst g'. }
    exists h'. split.
    + by rewrite for_M_cons, Hstep.
    + by rewrite <- app_assoc in Hinv'.
Qed.

End SortGroups.

Lemma sorted_locs_elem (d : list (string * value)) (key : string) (l : loc) :
  (key, VArr l) ∈ d → key ≠ "params" → l ∈ sorted_locs d.
Proof.
  intros Hin Hkey. unfold sorted_locs. apply list_elem_of_omap.
  exists (key, VArr l). split; [done|]. simpl. by rewrite decide_False.
Qed.

(** C7: on a stored key whose fields other than "params" hold distinct
    record arrays with the same group columns and the same number of
    records, and for an [argsort] that returns, on every column of adjusted
    p-values, a permutation of its positions that puts it in non-decreasing
    order: the call succeeds; for every group the column of adjusted
    p-values ends sorted, and the column of that group in every field other
    than "params" is the old column taken at the same positions; the
    results dict itself, with its "params" entry, and every other array
    object are as they were. *)
Theorem sort_features_sorts_columns_together {A} (argsort : list A → list nat)
    (le : relation A) (w : world A) (key_added : string) (d : list (string * value))
    (pvals_adj : loc) (adj0 : list (string * list A)) (groups : list string) (n : nat) :
  uns w !! key_added = Some d →
  dict_get "pvals_adj" d = Some (VArr pvals_adj) →
  holds_arrays d →
  NoDup (sorted_locs d) →
  mem w !! pvals_adj = Some (Rec adj0) →
  NoDup groups →
  parallel (mem w) (sorted_locs d) groups n →
  (∀ group raw_adj, dict_get group adj0 = Some raw_adj →
     argsort raw_adj ≡ₚ seq 0 (length raw_adj)
     ∧ ∀ sorted, take_indexes raw_adj (argsort raw_adj) = Ok sorted → Sorted le sorted) →
  ∃ w',
    _sort_features argsort key_added w = (w', Ok ())
    ∧ uns w' = uns w
    ∧ (∀ l, l ∉ sorted_locs d → mem w' !! l = mem w !! l)
    ∧ ∀ group raw_adj, dict_get group adj0 = Some raw_adj →
        (∃ adj sorted_adj,
           mem w' !! pvals_adj = Some (Rec adj)
           ∧ dict_get group adj = Some sorted_adj
           ∧ Sorted le sorted_adj)
        ∧ ∀ key l fields column,
            (key, VArr l) ∈ d → key ≠ "params" →
            mem w !! l = Some (Rec fields) → dict_get group fields = Some column →
            ∃ fields' sorted,
              mem w' !! l = Some (Rec fields')
              ∧ fields'.*1 = fields.*1
              ∧ take_indexes column (argsort raw_adj) = Ok sorted
              ∧ dict_get group fields' = Some sorted.
Proof.
  intros Huns Hdict Harrays Hnodup Hadj Hgroups Hparallel Hargsort.
  destruct w as [h u]. simpl in *.
  assert (Hadj_loc : pvals_adj ∈ sorted_locs d).
  { by apply (sorted_locs_dict_get d "pvals_adj"). }
  destruct (Hparallel pvals_adj Hadj_loc) as (adj0' & Hadj' & Hnames & _).
  rewrite Hadj in Hadj'. injection Hadj' as <-.
  destruct (sort_groups_run argsort key_added d u h pvals_adj adj0 groups n
              Huns Harrays Hnodup Hadj_loc Hadj Hparallel
              (λ g c Hc, proj1 (Hargsort g c Hc)) groups [] h)
    as (h' & Hrun & Hother & Hsorted).
  { apply sorted_upto_start. }
  { done. }
  { done. }
  { intros g _. apply not_elem_of_nil. }
  exists (World h' u). split_and!.
  - unfold _sort_features. simpl. rewrite Huns.
    rewrite bind_run. unfold lift. rewrite Hdict. simpl.
    rewrite bind_run, on_mem_run, read_run. simpl. rewrite Hadj. simpl.
    rewrite bind_run. simpl. rewrite Hnames. exact Hrun.
  - done.
  - exact Hother.
  - simpl. intros group raw_adj Hraw.
    assert (Hgroup : group ∈ groups).
    { rewrite <- Hnames. apply dict_get_is_Some. by eexists. }
    assert (Hcolumns : ∀ key l fields column,
              (key, VArr l) ∈ d → key ≠ "params" →
              h !! l = Some (Rec fields) → dict_get group fields = Some column →
              ∃ fields' sorted,
                h' !! l = Some (Rec fields') ∧ fields'.*1 = fields.*1
                ∧ take_indexes column (argsort raw_adj) = Ok sorted
                ∧ dict_get group fields' = Some sorted).
    { intros key l fields column Hentry Hkey Hl Hcolumn.
      destruct (Hsorted l fields (sorted_locs_elem d key l Hentry Hkey) Hl)
        as (fields' & Hl' & Hnames' & Hcols).
      destruct (Hcols group column Hcolumn) as [Hdone _].
      destruct (Hdone Hgroup) as (c_adj & sorted & Hc_adj & Htake & Hfield).
      rewrite Hraw in Hc_adj. injection Hc_adj as <-.
      by exists fields', sorted. }
    split; [|exact Hcolumns].
    destruct (Hsorted pvals_adj adj0 Hadj_loc Hadj) as (adj & Hadj_after & _ & Hcols).
    destruct (Hcols group raw_adj Hraw) as [Hdone _].
    destruct (Hdone Hgroup) as (c_adj & sorted & Hc_adj & Htake & Hfield).
    rewrite Hraw in Hc_adj. injection Hc_adj as <-.
    exists adj, sorted. split_and!; [done|done|].
    by apply (Hargsort group raw_adj Hraw).
Qed.

(** When two keys hold the same array object, the loop reorders it once per
    key: the column of adjusted p-values 1/2, 1/10, 1/3 ends as 1/3, 1/2,
    1/10. The arrays of the theorem above are distinct objects. *)
Lemma sort_features_on_shared_array :
  ∃ w',
    _sort_features (insertion_argsort Qle_bool) "rank_features_groups" aliased_example
      = (w', Ok ())
    ∧ mem w' !! 1%positive = Some (Rec [("icu", [1 # 3; 1 # 2; 1 # 10]%Q)]).
Proof. eexists. split; reflexivity. Qed.

(** *** An [argsort] that meets the contract *)

Section InsertionArgsort.
Context {A : Type}.
Variable le : A → A → bool.
Hypothesis le_total : ∀ x y, le x y = true ∨ le y x = true.
Variable a : list A.

Local Abbreviation key_le := (key_le le a).

Lemma insert_index_perm i sorted : insert_index le a i sorted ≡ₚ i :: sorted.
Proof.
  induction sorted as [|j sorted IH]; [done|]. simpl.
  destruct (a !! i) as [x|]; [|done]. destruct (a !! j) as [y|]; [|done].
  destruct (le y x); [|done]. rewrite IH. apply Permutation_swap.
Qed.

Lemma insert_index_HdRel i j sorted :
  key_le j i → HdRel key_le j sorted → HdRel key_le j (insert_index le a i sorted).
Proof.
  intros Hji Hhd. destruct sorted as [|k sorted]; simpl; [by constructor|].
  apply HdRel_inv in Hhd.
  destruct (a !! i) as [x|]; [|by constructor]. destruct (a !! k) as [y|]; [|by constructor].
  destruct (le y x); by constructor.
Qed.

Lemma insert_index_sorted i sorted :
  i < length a → Forall (λ j, j < length a) sorted →
  Sorted key_le sorted → Sorted key_le (insert_index le a i sorted).
Proof.
  intros Hi Hrange Hsorted.
  destruct (lookup_lt_is_Some_2 a i Hi) as [x Hx].
  induction sorted as [|j sorted IH]; simpl; [by repeat constructor|].
  apply Forall_cons in Hrange as [Hj Hrange].
  apply Sorted_inv in Hsorted as [Hsorted Hhd].
  destruct (lookup_lt_is_Some_2 a j Hj) as [y Hy].
  rewrite Hx, Hy. destruct (le y x) eqn:Hyx.
  - constructor; [by apply IH|].
    apply insert_index_HdRel; [|done]. unfold key_le. by rewrite Hx, Hy.
  - constructor; [by constructor|]. constructor. unfold key_le. rewrite Hx, Hy.
    destruct (le_total x y); congruence.
Qed.

Lemma insert_indexes_spec (indexes sorted : list nat) :
  Forall (λ j, j < length a) indexes → Forall (λ j, j < length a) sorted →
  Sorted key_le sorted →
  let result := foldl (λ sorted i, insert_index le a i sorted) sorted indexes in
  result ≡ₚ indexes ++ sorted ∧ Sorted key_le result.
Proof.
  revert sorted. induction indexes as [|i indexes IH]; intros sorted Hindexes Hrange Hsorted.
  - done.
  - apply Forall_cons in Hindexes as [Hi Hindexes]. simpl.
    destruct (IH (insert_index le a i sorted)) as [Hperm Hresult]; [done| |by apply insert_index_sorted|].
    + rewrite insert_index_perm. by constructor.
    + split; [|done]. rewrite Hperm, insert_index_perm. by rewrite Permutation_middle.
Qed.

Lemma take_indexes_sorted (indexes : list nat) (sorted : list A) :
  Sorted key_le indexes → take_indexes a indexes = Ok sorted →
  Sorted (λ x y, le x y = true) sorted.
Proof.
  unfold take_indexes.
  revert sorted. induction indexes as [|i indexes IH]; intros sorted Hindexes; simpl.
  - intros [= <-]. constructor.
  - apply Sorted_inv in Hindexes as [Hindexes Hhd].
    destruct (a !! i) as [x|] eqn:Hx; [|done]. simpl.
    destruct (for_each _ indexes) as [rest|] eqn:Hrest; [|done]. simpl.
    intros [= <-]. constructor; [by apply IH|].
    destruct indexes as [|j indexes]; simpl in Hrest.
    + injection Hrest as <-. constructor.
    + destruct (a !! j) as [y|] eqn:Hy; [|done]. simpl in Hrest.
      destruct (for_each _ indexes); [|done]. injection Hrest as <-.
      constructor. apply HdRel_inv in Hhd. unfold key_le in Hhd. by rewrite Hx, Hy in Hhd.
Qed.

Lemma insertion_argsort_spec :
  insertion_argsort le a ≡ₚ seq 0 (length a)
  ∧ ∀ sorted, take_indexes a (insertion_argsort le a) = Ok sorted →
      Sorted (λ x y, le x y = true) sorted.
Proof.
  destruct (insert_indexes_spec (seq 0 (length a)) []) as [Hperm Hsorted].
  - apply Forall_seq. intros; lia.
  - constructor.
  - constructor.
  - split.
    + unfold insertion_argsort. by rewrite Hperm, app_nil_r.
    + intros sorted. by apply take_indexes_sorted.
Qed.

End InsertionArgsort.

Lemma Qle_bool_total (x y : Q) : Qle_bool x y = true ∨ Qle_bool y x = true.
Proof.
  destruct (Qlt_le_dec x y) as [Hlt|Hle].
  - left. by apply Qle_bool_iff, Qlt_le_weak.
  - right. by apply Qle_bool_iff.
Qed.

Lemma sort_features_sorts_columns_together_witness :
  let argsort := insertion_argsort Qle_bool in
  let adj0 := [("icu", [1 # 2; 1 # 10; 1 # 3]%Q); ("ward", [1 # 3; 1 # 4; 1 # 5]%Q)] in
  let d := [("params", VParams); ("scores", VArr 2%positive);
            ("pvals_adj", VArr 1%positive)] in
  ∃ w',
    _sort_features argsort "rank_features_groups" ranked_example = (w', Ok ())
    ∧ uns w' = uns ranked_example
    ∧ (∀ l, l ∉ sorted_locs d → mem w' !! l = mem ranked_example !! l)
    ∧ ∀ group raw_adj, dict_get group adj0 = Some raw_adj →
        (∃ adj sorted_adj,
           mem w' !! 1%positive = Some (Rec adj)
           ∧ dict_get group adj = Some sorted_adj
           ∧ Sorted (λ x y, Qle_bool x y = true) sorted_adj)
        ∧ ∀ key l fields column,
            (key, VArr l) ∈ d → key ≠ "params" →
            mem ranked_example !! l = Some (Rec fields) →
            dict_get group fields = Some column →
            ∃ fields' sorted,
              mem w' !! l = Some (Rec fields')
              ∧ fields'.*1 = fields.*1
              ∧ take_indexes column (argsort raw_adj) = Ok sorted
              ∧ dict_get group fields' = Some sorted.
Proof.
  apply (sort_features_sorts_columns_together (insertion_argsort Qle_bool)
           (λ x y, Qle_bool x y = true) ranked_example "rank_features_groups"
           [("params", VParams); ("scores", VArr 2%positive); ("pvals_adj", VArr 1%positive)]
           1%positive
           [("icu", [1 # 2; 1 # 10; 1 # 3]%Q); ("ward", [1 # 3; 1 # 4; 1 # 5]%Q)]
           ["icu"; "ward"] 3).
  - reflexivity.
  - reflexivity.
  - unfold holds_arrays. repeat (apply Forall_cons; split); [by left|right..|done];
      by eexists.
  - by_decide.
  - reflexivity.
  - by_decide.
  - intros l Hl. vm_compute in Hl.
    apply elem_of_cons in Hl as [->|Hl]; [|apply list_elem_of_singleton in Hl as ->].
    + eexists. split_and!; [reflexivity|reflexivity|]. by repeat constructor.
    + eexists. split_and!; [reflexivity|reflexivity|]. by repeat constructor.
  - intros group raw_adj _. apply insertion_argsort_spec, Qle_bool_total.
Defined.

(** ** AnnotationAggregator *)

(** The table [annotate_text] stores holds every flattened record: none is
    removed. *)
Lemma annotate_text_keeps_every_record
    (multiprocessing : list (Z * string) → list (Z * list (entity_id * list (string * attr))))
    (text_column : list (Z * option string)) (df : list (list (string * cell))) :
  annotate_text multiprocessing text_column = Ok df →
  ∃ flattened,
    _flatten_annotated_results (multiprocessing (formatted_text_column text_column))
      = Ok flattened
    ∧ df ≡ₚ flattened.
Proof.
  unfold annotate_text, _annotated_results_to_df, sort_by_row_nr.
  destruct (_flatten_annotated_results _) as [flattened|]; [|done].
  cbn [mbind result_bind].
  destruct (drop_duplicates flattened _); [|done]. cbn [mbind result_bind].
  destruct (has_column "row_nr" flattened); [|done].
  intros [= <-]. exists flattened. split; [done|]. apply merge_sort_Permutation.
Qed.

(** C2 (the code departs from the claim): for a text in row 3 that
    mentions diabetes twice, with the same status, the stored table has two
    rows with the same concept identifier, row and status. The table without
    the repeat is computed by [drop_duplicates] and not used. *)
Theorem annotate_text_keeps_repeated_mention :
  ∃ r1 r2,
    annotate_text (λ _, repeated_mention_results)
      [(3%Z, Some "The patient suffers from Diabetes. Cause of the Diabetes, he receives drug X.")]
      = Ok [r1; r2]
    ∧ subset_key ["cui"; "row_nr"; "meta_anns"] r1
      = [Some (CStr "C0011849"); Some (CRow 3); Some (CStr "Affirmed")]
    ∧ subset_key ["cui"; "row_nr"; "meta_anns"] r2
      = [Some (CStr "C0011849"); Some (CRow 3); Some (CStr "Affirmed")]
    ∧ (flattened ← _flatten_annotated_results repeated_mention_results;
       drop_duplicates flattened ["cui"; "row_nr"; "meta_anns"]) = Ok [r1].
Proof.
  eexists _, _. split_and!; reflexivity.
Qed.

Section CheckValidNameProperties.
Variable extractOne : string → list string → Z → option (string * Z).

(** The loop appends a suggestion whenever it appends an invalid name. *)
Lemma check_names_suggestions df name invalid_names suggested_names new_name
    invalid_names' suggested_names' new_name' :
  check_names extractOne df (invalid_names, suggested_names, new_name) name
    = Ok (invalid_names', suggested_names', new_name') →
  length invalid_names = length suggested_names →
  length invalid_names' = length suggested_names'.
Proof.
  revert invalid_names suggested_names new_name.
  induction name as [|nm name IH]; intros invalid_names suggested_names new_name; simpl.
  - by intros [= <- <- <-].
  - destruct (decide (nm ∈ pretty_names df)); simpl.
    + apply IH.
    + destruct (extractOne nm _ 50) as [[suggestion score]|]; simpl; [|done].
      intros Hrest Hlength. eapply IH; [exact Hrest|].
      rewrite !length_app. simpl. lia.
Qed.

(** The loop raises nothing but the [TypeError] of the unpacking. *)
Lemma check_names_raises df name state e :
  check_names extractOne df state name = Raise e → e = TypeError.
Proof.
  revert state. induction name as [|nm name IH]; intros [[invalid_names suggested_names] new_name];
    simpl; [done|].
  destruct (decide (nm ∈ pretty_names df)); simpl; [apply IH|].
  destruct (extractOne nm _ 50) as [[suggestion score]|]; simpl; [apply IH|].
  by intros [= <-].
Qed.

(** The branch that raises [EntitiyNotFoundError] without a suggestion is
    never taken: every message of that error ends with a suggestion. *)
Lemma check_valid_name_always_suggests df name msg :
  _check_valid_name extractOne df name = Raise (EntitiyNotFoundError msg) →
  ∃ invalid_names new_name,
    msg = ("Did not find '" +:+ py_list_text invalid_names
           +:+ "' in MedCAT's extracted entities.")
          +:+ " Do you mean " +:+ new_name +:+ "?".
Proof.
  unfold _check_valid_name. destruct (has_column "pretty_name" df); [|by destruct name].
  destruct (check_names _ _ _ _) as [[[invalid_names suggested_names] new_name]|e] eqn:Hloop.
  2: { apply check_names_raises in Hloop as ->. done. }
  cbn [mbind result_bind].
  apply check_names_suggestions in Hloop; [|done].
  destruct invalid_names as [|nm invalid_names]; [done|].
  destruct suggested_names as [|suggestion suggested_names]; [by simpl in Hloop|].
  intros [= <-]. by eexists _, _.
Qed.

(** A name that is not in the table and for which the matcher finds nothing
    makes the check raise [TypeError], whatever names follow it, when the
    names before it are in the table. *)
Lemma check_valid_name_no_match df nm name :
  has_column "pretty_name" df = true →
  nm ∉ pretty_names df →
  extractOne nm (remove_dups (pretty_names df)) 50 = None →
  _check_valid_name extractOne df (nm :: name) = Raise TypeError.
Proof.
  intros Hcolumn Hnm Hnone. unfold _check_valid_name. rewrite Hcolumn. simpl.
  rewrite decide_False by done. by rewrite Hnone.
Qed.

End CheckValidNameProperties.

(** C9 (the code departs from the claim): on a table with the concepts
    "Diabetes" and "Fever" and a matcher that finds no name close to
    "Sepsis", the check of "Sepsis" raises [TypeError], not
    [EntitiyNotFoundError]: the result of the matcher is unpacked before it
    is looked at. With the two misspelt names "Diabtes" and "Fver", each
    with a match, the message suggests the last match only. *)
Theorem check_valid_name_without_match_raises_type_error :
  ("Sepsis" ∉ pretty_names two_concepts)
  ∧ first_letter_match "Sepsis" (remove_dups (pretty_names two_concepts)) 50 = None
  ∧ _check_valid_name first_letter_match two_concepts ["Sepsis"] = Raise TypeError
  ∧ first_letter_match "Diabtes" (remove_dups (pretty_names two_concepts)) 50
    = Some ("Diabetes", 90%Z)
  ∧ first_letter_match "Fver" (remove_dups (pretty_names two_concepts)) 50
    = Some ("Fever", 90%Z)
  ∧ _check_valid_name first_letter_match two_concepts ["Diabtes"; "Fver"]
    = Raise (EntitiyNotFoundError
        "Did not find '['Diabtes', 'Fver']' in MedCAT's extracted entities. Do you mean Fever?").
Proof.
  split_and!; try reflexivity. by_decide.
Qed.

(** * Further properties *)

(** ** GroupSelector *)

(** X1: with the sentinel "all" the call succeeds exactly when the
    reference is "rest" or a known group, and it then returns the known
    groups in their order. *)
Theorem get_groups_order_all_iff (group_names : list string) (reference : string)
    (groups_order : list group_id) :
  _get_groups_order (GroupsStr "all") group_names reference = Ok groups_order
  ↔ groups_order = GStr <$> group_names
    ∧ (reference = "rest" ∨ reference ∈ group_names).
Proof.
  unfold _get_groups_order. rewrite decide_True by done. cbn [mbind result_bind].
  destruct (decide (reference ≠ "rest" ∧ reference ∉ group_names)) as [[Hrest Hunknown]|Hok].
  - split; [done|]. intros [_ [?|?]]; done.
  - split.
    + intros [= <-]. split; [done|].
      destruct (decide (reference = "rest")); [by left|right].
      destruct (decide (reference ∈ group_names)); [done|]. by destruct Hok.
    + by intros [-> _].
Qed.

(** A bare integer, or a bare string other than "all", is refused with
    [ValueError], whatever the known groups and the reference are. *)
Theorem get_groups_order_refuses_scalars (group_names : list string) (reference : string) :
  (∀ n, _get_groups_order (GroupsInt n) group_names reference = Raise ValueError)
  ∧ (∀ s, s ≠ "all" →
       _get_groups_order (GroupsStr s) group_names reference = Raise ValueError).
Proof.
  split; [done|]. intros s Hs. unfold _get_groups_order. by rewrite decide_False.
Qed.

Lemma stringified_all_strings (n : Z) (l : list group_id) (g : group_id) :
  g ∈ stringified (GInt n :: l) → ∃ s, g = GStr s.
Proof.
  cbn [stringified]. intros Hg. apply list_elem_of_fmap in Hg as (g' & Hg' & _).
  subst g. by eexists.
Qed.

Lemma stringified_idempotent (l : list group_id) : stringified (stringified l) = stringified l.
Proof. destruct l as [|[n|s] l]; done. Qed.

Lemma stringified_app_string (l : list group_id) (s : string) :
  l ≠ [] → stringified (stringified l ++ [GStr s]) = stringified l ++ [GStr s].
Proof. destruct l as [|[n|s'] l]; done. Qed.

(** What a successful call on an explicit list returns. *)
Lemma get_groups_order_listed (subset : list group_id) group_names reference groups_order :
  _get_groups_order (GroupsSeq subset) group_names reference = Ok groups_order →
  subset ≠ []
  ∧ (reference = "rest" ∨ reference ∈ group_names)
  ∧ groups_order
    = if decide (reference ≠ "rest" ∧ GStr reference ∉ stringified subset)
      then stringified subset ++ [GStr reference]
      else stringified subset.
Proof.
  unfold _get_groups_order. destruct subset as [|g subset]; [done|].
  rewrite listed_groups_nonempty by done. cbn [mbind result_bind].
  set (listed := stringified (g :: subset)).
  assert (Hknown : ∀ order,
    (if decide (reference ≠ "rest" ∧ reference ∉ group_names)
     then Raise ValueError else Ok order) = Ok groups_order →
    (reference = "rest" ∨ reference ∈ group_names) ∧ groups_order = order).
  { intros order. destruct (decide (reference ≠ "rest" ∧ reference ∉ group_names)) as [|Hok];
      [done|]. intros [= <-]. split; [|done].
    destruct (decide (reference = "rest")); [by left|right].
    destruct (decide (reference ∈ group_names)); [done|]. by destruct Hok. }
  destruct (decide (reference ≠ "rest" ∧ GStr reference ∉ listed));
    cbn [mbind result_bind]; intros [? ->]%Hknown; done.
Qed.

(** X3: when a call on an explicit list succeeds, the listed groups come
    first, in the order given; a reference other than "rest" is a known
    group and is in the result; a list without repeats gives a result
    without repeats; and when the list starts with an integer every group
    of the result is a string. *)
Theorem get_groups_order_postconditions (subset : list group_id)
    (group_names : list string) (reference : string) (groups_order : list group_id) :
  _get_groups_order (GroupsSeq subset) group_names reference = Ok groups_order →
  stringified subset `prefix_of` groups_order
  ∧ (reference ≠ "rest" → reference ∈ group_names ∧ GStr reference ∈ groups_order)
  ∧ (NoDup (stringified subset) → NoDup groups_order)
  ∧ (∀ n subset', subset = GInt n :: subset' → ∀ g, g ∈ groups_order → ∃ s, g = GStr s).
Proof.
  intros (Hsubset & Hknown & ->)%get_groups_order_listed.
  destruct (decide (reference ≠ "rest" ∧ GStr reference ∉ stringified subset))
    as [[Hrest Hnew]|Hlisted].
  - split_and!.
    + by apply prefix_app_r.
    + intros _. split; [by destruct Hknown|]. apply elem_of_app. right. apply list_elem_of_here.
    + intros Hnodup. apply NoDup_app. split_and!; [done| |apply NoDup_singleton].
      intros g Hg Heq%list_elem_of_singleton. by subst g.
    + intros n subset' -> g [Hg|Heq%list_elem_of_singleton]%elem_of_app; [|by eexists].
      by eapply stringified_all_strings.
  - split_and!.
    + done.
    + intros Hrest. split; [by destruct Hknown|].
      destruct (decide (GStr reference ∈ stringified subset)); [done|]. by destruct Hlisted.
    + done.
    + intros n subset' -> g Hg. by eapply stringified_all_strings.
Qed.

Lemma get_groups_order_postconditions_witness :
  stringified [GInt 1; GInt 2] `prefix_of` [GStr "1"; GStr "2"; GStr "3"]
  ∧ ("3" ≠ "rest" → "3" ∈ ["1"; "2"; "3"] ∧ GStr "3" ∈ [GStr "1"; GStr "2"; GStr "3"])
  ∧ (NoDup (stringified [GInt 1; GInt 2]) → NoDup [GStr "1"; GStr "2"; GStr "3"])
  ∧ (∀ n subset', [GInt 1; GInt 2] = GInt n :: subset' →
       ∀ g, g ∈ [GStr "1"; GStr "2"; GStr "3"] → ∃ s, g = GStr s).
Proof.
  apply (get_groups_order_postconditions [GInt 1; GInt 2] ["1"; "2"; "3"] "3").
  reflexivity.
Defined.

(** X4: the canonical order is a fixed point: passed again as the explicit
    list, with the same known groups and reference, it is returned as it
    is. *)
Theorem get_groups_order_idempotent (subset : list group_id)
    (group_names : list string) (reference : string) (groups_order : list group_id) :
  _get_groups_order (GroupsSeq subset) group_names reference = Ok groups_order →
  _get_groups_order (GroupsSeq groups_order) group_names reference = Ok groups_order.
Proof.
  intros (Hsubset & Hknown & ->)%get_groups_order_listed.
  assert (Hcheck : ∀ order : list group_id,
    (if decide (reference ≠ "rest" ∧ reference ∉ group_names)
     then Raise ValueError else Ok order) = Ok order).
  { intros order. rewrite decide_False; [done|]. intros [? ?]. by destruct Hknown. }
  unfold _get_groups_order.
  destruct (decide (reference ≠ "rest" ∧ GStr reference ∉ stringified subset))
    as [[Hrest Hnew]|Hlisted].
  - rewrite listed_groups_nonempty by (by destruct (stringified subset)).
    rewrite stringified_app_string by done. cbn [mbind result_bind].
    rewrite decide_False.
    + cbn [mbind result_bind]. apply Hcheck.
    + intros [_ Hout]. apply Hout, elem_of_app. right. apply list_elem_of_here.
  - rewrite listed_groups_nonempty by (by destruct subset as [|[?|?] ?]).
    rewrite stringified_idempotent. cbn [mbind result_bind].
    rewrite decide_False by done. cbn [mbind result_bind]. apply Hcheck.
Qed.

Lemma get_groups_order_idempotent_witness :
  _get_groups_order (GroupsSeq [GStr "icu"; GStr "ward"; GStr "home"])
    ["icu"; "ward"; "home"] "home"
  = Ok [GStr "icu"; GStr "ward"; GStr "home"].
Proof.
  apply (get_groups_order_idempotent [GStr "icu"; GStr "ward"] ["icu"; "ward"; "home"] "home").
  reflexivity.
Defined.

(** ** CategoricalTester *)

Lemma for_each_Ok_Forall2 {A B} (body : A → result B) (l : list A) (ys : list B) :
  for_each body l = Ok ys → Forall2 (λ x y, body x = Ok y) l ys.
Proof.
  revert ys. induction l as [|x l IH]; intros ys; simpl.
  - intros [= <-]. constructor.
  - destruct (body x) as [y|] eqn:Hx; [|done]. cbn [mbind result_bind].
    destruct (for_each body l) as [ys'|]; [|done]. cbn [mbind result_bind].
    intros [= <-]. constructor; [done|by apply IH].
Qed.

(** A successful call, taken apart: the canonical order, the grouping
    column, and for every tested feature its column of the feature matrix
    and its tests, one per tested group. *)
Lemma evaluate_categorical_features_inv
    (chi2_contingency : list (list nat) → Q → Q * Q)
    adata groupby group_names groups reference categorical_method pts res :
  _evaluate_categorical_features chi2_contingency adata groupby group_names groups
    reference categorical_method pts = Ok res →
  ∃ groups_order groups_values tests,
    _get_groups_order groups group_names reference = Ok groups_order
    ∧ dict_get groupby (obs adata) = Some groups_values
    ∧ Forall2 (λ feature feature_tests,
         ∃ feature_values,
           dict_get feature (X adata) = Some feature_values
           ∧ for_each (group_test chi2_contingency feature_values groups_values groups_order
                         reference categorical_method)
               (tested_groups group_names groups_order) = Ok feature_tests)
        (tested_features adata groupby) tests
    ∧ categorical_names res = replicate (length group_names) <$> tested_features adata groupby
    ∧ categorical_scores res = (λ feature_tests : list (Q * Q), feature_tests.*1) <$> tests
    ∧ categorical_pvals res = (λ feature_tests : list (Q * Q), feature_tests.*2) <$> tests
    ∧ categorical_logfoldchanges res
      = replicate (length (tested_features adata groupby)) (replicate (length group_names) 1%Q)
    ∧ categorical_pts res = if pts then categorical_logfoldchanges res else [].
Proof.
  unfold _evaluate_categorical_features.
  destruct (_get_groups_order groups group_names reference) as [groups_order|]; [|done].
  cbn [mbind result_bind].
  destruct (dict_get groupby (obs adata)) as [groups_values|]; [|done].
  cbn [from_option mbind result_bind].
  destruct (for_each _ _) as [rows|] eqn:Hrows; [|done]. cbn [mbind result_bind].
  intros [= <-]. exists groups_order, groups_values. cbn.
  apply for_each_Ok_Forall2 in Hrows.
  induction Hrows as [|feature row features rows Hrow _ (tests & _ & _ & Htests & IH)].
  - exists []. split_and!; try done; try constructor; by destruct pts.
  - unfold feature_rows in Hrow.
    destruct (dict_get feature (X adata)) as [feature_values|] eqn:Hfeature; [|done].
    cbn [from_option mbind result_bind] in Hrow.
    destruct (for_each _ (tested_groups _ _)) as [feature_tests|] eqn:Hfeature_tests; [|done].
    cbn [mbind result_bind] in Hrow. injection Hrow as <-.
    destruct IH as (Hnames & Hscores & Hpvals & Hlfc & Hpts).
    exists (feature_tests :: tests). split_and!; try done.
    + constructor; [|done]. by exists feature_values.
    + rewrite fmap_cons, Hnames. reflexivity.
    + rewrite fmap_cons, Hscores. reflexivity.
    + rewrite fmap_cons, Hpvals. reflexivity.
    + rewrite fmap_cons, Hlfc. reflexivity.
    + destruct pts; [|done]. rewrite !fmap_cons. cbn [fst snd]. by rewrite Hpts.
Qed.

(** X5: whenever the call succeeds, the array of names has one row per
    categorical feature that is not the grouping feature (under either
    spelling, with or without the prefix "ehrapycat_"), in the order of
    the categorical features, and a row repeats its feature once per known
    group; so no name in it is the grouping feature. *)
Theorem evaluate_names_exclude_grouping_feature
    (chi2_contingency : list (list nat) → Q → Q * Q)
    adata groupby group_names groups reference categorical_method pts res :
  _evaluate_categorical_features chi2_contingency adata groupby group_names groups
    reference categorical_method pts = Ok res →
  categorical_names res
    = replicate (length group_names)
        <$> filter (λ feature, negb (skipped_feature feature groupby))
              (non_numerical_columns adata)
  ∧ ∀ row feature, row ∈ categorical_names res → feature ∈ row →
      feature ∈ non_numerical_columns adata
      ∧ feature ≠ groupby
      ∧ "ehrapycat_" +:+ feature ≠ groupby
      ∧ feature ≠ "ehrapycat_" +:+ groupby.
Proof.
  intros (_ & _ & _ & _ & _ & _ & Hnames & _)%evaluate_categorical_features_inv.
  split; [exact Hnames|].
  intros row feature Hrow Hfeature. rewrite Hnames in Hrow.
  apply list_elem_of_fmap in Hrow as (feature' & -> & Hfeature').
  apply elem_of_replicate in Hfeature as [-> _].
  apply list_elem_of_filter in Hfeature' as [Hkept Hcolumn].
  split; [done|]. unfold skipped_feature in Hkept.
  apply negb_prop_elim in Hkept.
  split_and!; intros Heq; apply Hkept; rewrite !orb_True; rewrite !bool_decide_spec; tauto.
Qed.

Lemma evaluate_names_exclude_grouping_feature_witness :
  ∃ res,
    _evaluate_categorical_features first_column_total three_settings "setting"
      ["icu"; "ward"; "home"] (GroupsStr "all") "rest" "g-test" true = Ok res
    ∧ categorical_names res
      = replicate (length ["icu"; "ward"; "home"])
          <$> filter (λ feature, negb (skipped_feature feature "setting"))
                (non_numerical_columns three_settings)
    ∧ ∀ row feature, row ∈ categorical_names res → feature ∈ row →
        feature ∈ non_numerical_columns three_settings
        ∧ feature ≠ "setting"
        ∧ "ehrapycat_" +:+ feature ≠ "setting"
        ∧ feature ≠ "ehrapycat_" +:+ "setting".
Proof.
  eexists. split; [reflexivity|].
  apply (evaluate_names_exclude_grouping_feature first_column_total three_settings "setting"
           ["icu"; "ward"; "home"] (GroupsStr "all") "rest" "g-test" true).
  reflexivity.
Defined.

(** X6: whenever the call succeeds, every fold-change is one, with a row
    per tested feature and a column per known group; the percentages are the
    same array when they are requested and an empty array otherwise. *)
Theorem evaluate_constant_arrays
    (chi2_contingency : list (list nat) → Q → Q * Q)
    adata groupby group_names groups reference categorical_method pts res :
  _evaluate_categorical_features chi2_contingency adata groupby group_names groups
    reference categorical_method pts = Ok res →
  categorical_logfoldchanges res
    = replicate (length (tested_features adata groupby))
        (replicate (length group_names) 1%Q)
  ∧ categorical_pts res = (if pts then categorical_logfoldchanges res else []).
Proof.
  by intros (_ & _ & _ & _ & _ & _ & _ & _ & _ & Hlfc & Hpts)%evaluate_categorical_features_inv.
Qed.

Lemma evaluate_constant_arrays_witness :
  ∃ res,
    _evaluate_categorical_features first_column_total two_settings "setting"
      ["icu"; "ward"] (GroupsStr "all") "rest" "chi-square" false = Ok res
    ∧ categorical_logfoldchanges res
      = replicate (length (tested_features two_settings "setting"))
          (replicate (length ["icu"; "ward"]) 1%Q)
    ∧ categorical_pts res = (if false then categorical_logfoldchanges res else []).
Proof.
  eexists. split; [reflexivity|].
  apply (evaluate_constant_arrays first_column_total two_settings "setting"
           ["icu"; "ward"] (GroupsStr "all") "rest" "chi-square" false).
  reflexivity.
Defined.

Lemma evaluate_shapes_agree_on_all_witness :
  ∃ res,
    _evaluate_categorical_features first_column_total three_settings "setting"
      ["icu"; "ward"; "home"] (GroupsStr "all") "rest" "g-test" true = Ok res
    ∧ Forall (λ row, length row = length ["icu"; "ward"; "home"]) (categorical_names res)
    ∧ Forall (λ row, length row = length ["icu"; "ward"; "home"]) (categorical_scores res)
    ∧ Forall (λ row, length row = length ["icu"; "ward"; "home"]) (categorical_pvals res)
    ∧ Forall (λ row, length row = length ["icu"; "ward"; "home"])
        (categorical_logfoldchanges res)
    ∧ Forall (λ row, length row = length ["icu"; "ward"; "home"]) (categorical_pts res)
    ∧ length (categorical_names res) = length (tested_features three_settings "setting")
    ∧ length (categorical_scores res) = length (tested_features three_settings "setting")
    ∧ length (categorical_pvals res) = length (tested_features three_settings "setting")
    ∧ length (categorical_logfoldchanges res)
      = length (tested_features three_settings "setting")
    ∧ length (categorical_pts res) = length (tested_features three_settings "setting").
Proof.
  eexists. split; [reflexivity|].
  apply (evaluate_shapes_agree_on_all first_column_total three_settings "setting"
           ["icu"; "ward"; "home"] "g-test").
  reflexivity.
Defined.

(** X8: a test name outside the six is looked up only when a test is run.
    With a feature to test and a group to test the call raises [KeyError];
    with no group to test (none of the listed groups is a known group) it
    succeeds, with empty rows of scores and p-values. *)
Theorem evaluate_unsupported_test_name
    (chi2_contingency : list (list nat) → Q → Q * Q)
    adata groupby group_names groups reference categorical_method pts
    groups_order groups_values :
  dict_get categorical_method tests_to_lambdas = None →
  _get_groups_order groups group_names reference = Ok groups_order →
  dict_get groupby (obs adata) = Some groups_values →
  (tested_features adata groupby ≠ [] → tested_groups group_names groups_order ≠ [] →
     _evaluate_categorical_features chi2_contingency adata groupby group_names groups
       reference categorical_method pts = Raise KeyError)
  ∧ (tested_groups group_names groups_order = [] →
     (∀ feature, feature ∈ tested_features adata groupby →
        is_Some (dict_get feature (X adata))) →
     ∃ res,
       _evaluate_categorical_features chi2_contingency adata groupby group_names groups
         reference categorical_method pts = Ok res
       ∧ categorical_scores res = replicate (length (tested_features adata groupby)) []
       ∧ categorical_pvals res = replicate (length (tested_features adata groupby)) []).
Proof.
  intros Hmethod Horder Hgroupby.
  unfold _evaluate_categorical_features. rewrite Horder, Hgroupby.
  cbn [from_option mbind result_bind]. split.
  - intros Hfeatures Hgroups.
    destruct (tested_features adata groupby) as [|feature features]; [done|].
    destruct (tested_groups group_names groups_order) as [|group groups'] eqn:Htested; [done|].
    assert (Hrow : feature_rows chi2_contingency adata groups_values group_names
                     groups_order reference categorical_method feature = Raise KeyError).
    { unfold feature_rows.
      destruct (dict_get feature (X adata)) as [feature_values|]; [|done].
      cbn [from_option mbind result_bind]. rewrite Htested. cbn [for_each].
      unfold group_test. by rewrite Hmethod. }
    cbn [for_each]. by rewrite Hrow.
  - intros Hgroups Hcolumns.
    rewrite (for_each_fmap _ (λ feature,
      (replicate (length group_names) feature, [], [],
       replicate (length group_names) 1%Q, replicate (length group_names) 1%Q))).
    + cbn [mbind result_bind]. eexists. split; [reflexivity|]. cbn.
      split; clear; induction (tested_features adata groupby) as [|? ? IH];
        csimpl; by rewrite ?IH.
    + intros feature [feature_values Hfeature]%Hcolumns. unfold feature_rows.
      rewrite Hfeature, Hgroups. reflexivity.
Qed.

Lemma evaluate_unsupported_test_name_witness :
  (tested_features two_settings "setting" ≠ [] →
   tested_groups ["icu"; "ward"] [GStr "icu"; GStr "ward"] ≠ [] →
     _evaluate_categorical_features first_column_total two_settings "setting"
       ["icu"; "ward"] (GroupsStr "all") "rest" "fisher" true = Raise KeyError)
  ∧ (tested_groups ["icu"; "ward"] [GStr "icu"; GStr "ward"] = [] →
     (∀ feature, feature ∈ tested_features two_settings "setting" →
        is_Some (dict_get feature (X two_settings))) →
     ∃ res,
       _evaluate_categorical_features first_column_total two_settings "setting"
         ["icu"; "ward"] (GroupsStr "all") "rest" "fisher" true = Ok res
       ∧ categorical_scores res = replicate (length (tested_features two_settings "setting")) []
       ∧ categorical_pvals res = replicate (length (tested_features two_settings "setting")) []).
Proof.
  apply (evaluate_unsupported_test_name first_column_total two_settings "setting"
           ["icu"; "ward"] (GroupsStr "all") "rest" "fisher" true
           [GStr "icu"; GStr "ward"] ["icu"; "icu"; "ward"]); reflexivity.
Defined.

(** X9: with a reference group, the table of a group is built from the
    observations of the group and of the reference and from no other, in
    their order; the mask is true at the observations of the reference. The
    requested groups play no part in it. *)
Theorem reference_partition_is_restricted (feature_values : list Z)
    (groups_values : list string) (group reference : string)
    (groups_order : list group_id) :
  reference ≠ "rest" →
  crosstab_input feature_values groups_values group reference groups_order
  = omap (λ observation : Z * string,
            if decide (observation.2 = group ∨ observation.2 = reference)
            then Some (observation.1, bool_decide (observation.2 = reference))
            else None)
         (zip feature_values groups_values).
Proof.
  intros Hrest. unfold crosstab_input. rewrite decide_False by done. cbv zeta.
  unfold obs_to_take, isin. revert groups_values.
  induction feature_values as [|x feature_values IH]; intros [|v groups_values]; try done.
  assert (Hiff : v ∈ test_elements [GStr group; GStr reference]
                 ↔ v = group ∨ v = reference).
  { change (test_elements [GStr group; GStr reference]) with [group; reference].
    rewrite !elem_of_cons, elem_of_nil. tauto. }
  rewrite fmap_cons. cbn [take_mask zip zip_with omap list_omap fst snd].
  destruct (decide (v = group ∨ v = reference)) as [Hin|Hout].
  - rewrite bool_decide_true by by apply Hiff.
    rewrite fmap_cons. cbn [zip zip_with]. by rewrite IH.
  - rewrite bool_decide_false by (intros ?%Hiff; done). apply IH.
Qed.

Lemma reference_partition_is_restricted_witness :
  crosstab_input [1; 1; 2]%Z ["icu"; "ward"; "home"] "icu" "home" [GStr "icu"]
  = omap (λ observation : Z * string,
            if decide (observation.2 = "icu" ∨ observation.2 = "home")
            then Some (observation.1, bool_decide (observation.2 = "home"))
            else None)
         (zip [1; 1; 2]%Z ["icu"; "ward"; "home"]).
Proof.
  apply (reference_partition_is_restricted [1; 1; 2]%Z ["icu"; "ward"; "home"]
           "icu" "home" [GStr "icu"]).
  discriminate.
Defined.

(** X10: with the reference "rest", when every observation belongs to a
    group of the canonical order, the table of a group is built from all
    observations and the mask is false exactly at those of the group. *)
Theorem rest_partition_when_all_selected (feature_values : list Z)
    (groups_values : list string) (group : string) (groups_order : list group_id) :
  Forall (λ v, GStr v ∈ groups_order) groups_values →
  crosstab_input feature_values groups_values group "rest" groups_order
  = zip feature_values ((λ v, bool_decide (v ≠ group)) <$> groups_values).
Proof.
  intros Hselected. unfold crosstab_input. rewrite decide_True by done.
  f_equal. unfold rest_reference_mask. apply Forall_fmap_ext.
  eapply Forall_impl; [exact Hselected|]. intros v Hv. unfold isin.
  rewrite (bool_decide_true (v ∈ test_elements groups_order))
    by by apply elem_of_test_elements.
  apply andb_true_r.
Qed.

Lemma rest_partition_when_all_selected_witness :
  crosstab_input [1; 1; 2]%Z ["icu"; "ward"; "icu"] "icu" "rest" [GStr "ward"; GStr "icu"]
  = zip [1; 1; 2]%Z ((λ v, bool_decide (v ≠ "icu")) <$> ["icu"; "ward"; "icu"]).
Proof.
  apply (rest_partition_when_all_selected [1; 1; 2]%Z ["icu"; "ward"; "icu"] "icu"
           [GStr "ward"; GStr "icu"]).
  repeat constructor.
Defined.

(** ** PValueAdjuster *)

(** X11: a method name other than "benjamini-hochberg" and "bonferroni"
    makes the call raise [KeyError], at the first group column. *)
Theorem adjust_pvalues_unsupported_method
    (multipletests : list Q → string → list Q)
    (h : gmap loc (ndarray Q)) (pvals : loc) (corr_method : string)
    (fields : list (string * list Q)) :
  h !! pvals = Some (Rec fields) →
  fields ≠ [] →
  dict_get corr_method method_map = None →
  (_adjust_pvalues multipletests pvals corr_method h).2 = Raise KeyError.
Proof.
  intros Hpvals Hfields Hmethod.
  assert (Hfresh : h !! fresh (dom h) = None) by apply not_elem_of_dom, is_fresh.
  unfold _adjust_pvalues. rewrite bind_run, read_run, Hpvals. simpl.
  rewrite bind_run. unfold new_array. simpl.
  rewrite bind_run. unfold lift. simpl. rewrite bind_run.
  destruct fields as [|[group column] fields]; [done|].
  rewrite fmap_cons, for_M_cons.
  unfold adjust_group at 1. rewrite bind_run.
  rewrite (get_field_run _ pvals ((group, column) :: fields) group column).
  - rewrite bind_run. unfold lift. by rewrite Hmethod.
  - rewrite lookup_insert_ne; [done|]. intros <-. congruence.
  - simpl. by rewrite decide_True.
Qed.

Lemma adjust_pvalues_unsupported_method_witness :
  (_adjust_pvalues (λ ps _, bonferroni ps) 1%positive "holm"
     {[ 1%positive := Rec [("icu", [1 # 100; 1 # 5]%Q)] ]}).2 = Raise KeyError.
Proof.
  apply (adjust_pvalues_unsupported_method (λ ps _, bonferroni ps)
           {[ 1%positive := Rec [("icu", [1 # 100; 1 # 5]%Q)] ]} 1%positive "holm"
           [("icu", [1 # 100; 1 # 5]%Q)]); done.
Defined.

(** X12: for "benjamini-hochberg" and "bonferroni" the correction primitive
    is called with the method names "fdr_bh" and "bonferroni"; when its
    answers are as long as its inputs, the call returns an array with the
    field names of the raw array, in the same order, in which the column of
    every group is the answer of the primitive on the raw column of that
    group alone. *)
Theorem adjust_pvalues_corrects_each_group
    (multipletests : list Q → string → list Q)
    (h : gmap loc (ndarray Q)) (pvals : loc) (corr_method : string)
    (fields : list (string * list Q)) :
  h !! pvals = Some (Rec fields) →
  corr_method = "benjamini-hochberg" ∨ corr_method = "bonferroni" →
  (∀ ps method, length (multipletests ps method) = length ps) →
  let method := if decide (corr_method = "benjamini-hochberg") then "fdr_bh" else "bonferroni" in
  ∃ h' pvals_adj fields',
    _adjust_pvalues multipletests pvals corr_method h = (h', Ok pvals_adj)
    ∧ h' !! pvals_adj = Some (Rec fields')
    ∧ fields'.*1 = fields.*1
    ∧ ∀ group raw, dict_get group fields = Some raw →
        dict_get group fields' = Some (multipletests raw method).
Proof.
  intros Hpvals Hmethod Hlength method.
  destruct (adjust_pvalues_run multipletests h pvals corr_method method fields)
    as (fields' & Hrun & Hnames & Hcolumns); [done| |done|].
  { unfold method. by destruct Hmethod as [-> | ->]. }
  exists (<[fresh (dom h) := Rec fields']> h), (fresh (dom h)), fields'.
  split_and!; [done|by rewrite lookup_insert_eq|done|done].
Qed.

Lemma adjust_pvalues_corrects_each_group_witness :
  let method := if decide ("benjamini-hochberg" = "benjamini-hochberg")
                then "fdr_bh" else "bonferroni" in
  ∃ h' pvals_adj fields',
    _adjust_pvalues bonferroni_only 1%positive "benjamini-hochberg"
      {[ 1%positive := Rec [("icu", [1 # 100; 1 # 5]%Q); ("ward", [1 # 2; 1 # 25]%Q)] ]}
      = (h', Ok pvals_adj)
    ∧ h' !! pvals_adj = Some (Rec fields')
    ∧ fields'.*1 = [("icu", [1 # 100; 1 # 5]%Q); ("ward", [1 # 2; 1 # 25]%Q)].*1
    ∧ ∀ group raw,
        dict_get group [("icu", [1 # 100; 1 # 5]%Q); ("ward", [1 # 2; 1 # 25]%Q)] = Some raw →
        dict_get group fields' = Some (bonferroni_only raw method).
Proof.
  apply (adjust_pvalues_corrects_each_group bonferroni_only
           {[ 1%positive := Rec [("icu", [1 # 100; 1 # 5]%Q); ("ward", [1 # 2; 1 # 25]%Q)] ]}
           1%positive "benjamini-hochberg"
           [("icu", [1 # 100; 1 # 5]%Q); ("ward", [1 # 2; 1 # 25]%Q)]).
  - reflexivity.
  - by left.
  - intros ps method. unfold bonferroni_only.
    destruct (decide (method = "bonferroni")); [apply bonferroni_length|done].
Defined.

(** ** ResultSorter *)

(** X13: when nothing is stored under the key the call does nothing; when
    the results under the key have no adjusted p-values it raises
    [KeyError] and writes nothing. *)
Theorem sort_features_without_results {A} (argsort : list A → list nat)
    (key_added : string) (w : world A) :
  (uns w !! key_added = None → _sort_features argsort key_added w = (w, Ok ()))
  ∧ (∀ d, uns w !! key_added = Some d → dict_get "pvals_adj" d = None →
       _sort_features argsort key_added w = (w, Raise KeyError)).
Proof.
  split.
  - intros Hkey. unfold _sort_features. by rewrite Hkey.
  - intros d Hkey Hadj. unfold _sort_features. rewrite Hkey.
    rewrite bind_run. unfold lift. by rewrite Hadj.
Qed.

Lemma omap_fmap_compose {A B C} (f : B → option C) (g : A → B) (l : list A) :
  omap f (g <$> l) = omap (λ x, f (g x)) l.
Proof. induction l as [|x l IH]; [done|]. csimpl. by rewrite IH. Qed.

Lemma take_all_indexes {A} (column : list A) :
  omap (λ i, column !! i) (seq 0 (length column)) = column.
Proof.
  induction column as [|x column IH]; [done|].
  cbn [length seq omap list_omap lookup list_lookup]. f_equal.
  rewrite <- fmap_S_seq, omap_fmap_compose. exact IH.
Qed.

(** Taking a column at a permutation of its positions gives a permutation
    of the column. *)
Lemma take_indexes_Permutation {A} (column sorted : list A) (indexes : list nat) :
  take_indexes column indexes = Ok sorted →
  indexes ≡ₚ seq 0 (length column) →
  sorted ≡ₚ column.
Proof.
  intros Htake Hperm.
  assert (Hsorted : sorted = omap (λ i, column !! i) indexes).
  { apply for_each_Ok_Forall2 in Htake. clear Hperm.
    induction Htake as [|i y indexes sorted Hi _ IH]; [done|].
    cbn [omap list_omap]. destruct (column !! i); [|done].
    injection Hi as ->. by rewrite IH. }
  rewrite Hsorted, Hperm. by rewrite take_all_indexes.
Qed.

(** X14: on results as in C7, for an [argsort] that returns a permutation
    of the positions, sorting loses and invents no value: in every field
    other than "params" the column of every group holds after the call the
    values it held before, in some order, and the group columns keep their
    names and order. *)
Theorem sort_features_keeps_column_values {A} (argsort : list A → list nat)
    (w : world A) (key_added : string) (d : list (string * value))
    (pvals_adj : loc) (adj0 : list (string * list A)) (groups : list string) (n : nat) :
  uns w !! key_added = Some d →
  dict_get "pvals_adj" d = Some (VArr pvals_adj) →
  holds_arrays d →
  NoDup (sorted_locs d) →
  mem w !! pvals_adj = Some (Rec adj0) →
  NoDup groups →
  parallel (mem w) (sorted_locs d) groups n →
  (∀ group raw_adj, dict_get group adj0 = Some raw_adj →
     argsort raw_adj ≡ₚ seq 0 (length raw_adj)) →
  ∃ w',
    _sort_features argsort key_added w = (w', Ok ())
    ∧ ∀ key l fields,
        (key, VArr l) ∈ d → key ≠ "params" → mem w !! l = Some (Rec fields) →
        ∃ fields',
          mem w' !! l = Some (Rec fields')
          ∧ fields'.*1 = fields.*1
          ∧ ∀ group column, dict_get group fields = Some column →
              ∃ column', dict_get group fields' = Some column' ∧ column' ≡ₚ column.
Proof.
  intros Huns Hdict Harrays Hnodup Hadj Hgroups Hparallel Hargsort.
  destruct w as [h u]. simpl in *.
  assert (Hadj_loc : pvals_adj ∈ sorted_locs d).
  { by apply (sorted_locs_dict_get d "pvals_adj"). }
  destruct (Hparallel pvals_adj Hadj_loc) as (adj0' & Hadj' & Hnames & _).
  rewrite Hadj in Hadj'. injection Hadj' as <-.
  destruct (sort_groups_run argsort key_added d u h pvals_adj adj0 groups n
              Huns Harrays Hnodup Hadj_loc Hadj Hparallel Hargsort groups [] h)
    as (h' & Hrun & _ & Hsorted).
  { apply sorted_upto_start. }
  { done. }
  { done. }
  { intros g _. apply not_elem_of_nil. }
  exists (World h' u). split.
  - unfold _sort_features. simpl. rewrite Huns.
    rewrite bind_run. unfold lift. rewrite Hdict. simpl.
    rewrite bind_run, on_mem_run, read_run. simpl. rewrite Hadj. simpl.
    rewrite bind_run. simpl. rewrite Hnames. exact Hrun.
  - simpl. intros key l fields Hentry Hkey Hl.
    pose proof (sorted_locs_elem d key l Hentry Hkey) as Hloc.
    destruct (Hsorted l fields Hloc Hl) as (fields' & Hl' & Hnames' & Hcols).
    exists fields'. split_and!; [done|done|].
    intros group column Hcolumn.
    assert (Hgroup : group ∈ groups).
    { destruct (Hparallel l Hloc) as (fields0 & Hfields0 & Hnames0 & _).
      rewrite Hl in Hfields0. injection Hfields0 as <-.
      rewrite <- Hnames0. apply dict_get_is_Some. by eexists. }
    destruct (Hcols group column Hcolumn) as [Hdone _].
    destruct (Hdone Hgroup) as (c_adj & sorted & Hc_adj & Htake & Hfield).
    exists sorted. split; [done|].
    apply (take_indexes_Permutation column sorted (argsort c_adj) Htake).
    destruct (parallel_field h _ groups n pvals_adj adj0 group Hparallel Hadj_loc Hadj Hgroup)
      as (c_adj' & Hc_adj' & Hc_adj_len).
    destruct (parallel_field h _ groups n l fields group Hparallel Hloc Hl Hgroup)
      as (column'' & Hcolumn'' & Hcolumn_len).
    rewrite Hc_adj in Hc_adj'. injection Hc_adj' as <-.
    rewrite Hcolumn in Hcolumn''. injection Hcolumn'' as <-.
    rewrite Hcolumn_len, <- Hc_adj_len. by apply (Hargsort group).
Qed.

Lemma sort_features_keeps_column_values_witness :
  let d := [("params", VParams); ("scores", VArr 2%positive);
            ("pvals_adj", VArr 1%positive)] in
  ∃ w',
    _sort_features (insertion_argsort Qle_bool) "rank_features_groups" ranked_example
      = (w', Ok ())
    ∧ ∀ key l fields,
        (key, VArr l) ∈ d → key ≠ "params" →
        mem ranked_example !! l = Some (Rec fields) →
        ∃ fields',
          mem w' !! l = Some (Rec fields')
          ∧ fields'.*1 = fields.*1
          ∧ ∀ group column, dict_get group fields = Some column →
              ∃ column', dict_get group fields' = Some column' ∧ column' ≡ₚ column.
Proof.
  apply (sort_features_keeps_column_values (insertion_argsort Qle_bool)
           ranked_example "rank_features_groups"
           [("params", VParams); ("scores", VArr 2%positive); ("pvals_adj", VArr 1%positive)]
           1%positive
           [("icu", [1 # 2; 1 # 10; 1 # 3]%Q); ("ward", [1 # 3; 1 # 4; 1 # 5]%Q)]
           ["icu"; "ward"] 3).
  - reflexivity.
  - reflexivity.
  - unfold holds_arrays. repeat (apply Forall_cons; split); [by left|right..|done];
      by eexists.
  - by_decide.
  - reflexivity.
  - by_decide.
  - intros l Hl. vm_compute in Hl.
    apply elem_of_cons in Hl as [->|Hl]; [|apply list_elem_of_singleton in Hl as ->].
    + eexists. split_and!; [reflexivity|reflexivity|]. by repeat constructor.
    + eexists. split_and!; [reflexivity|reflexivity|]. by repeat constructor.
  - intros group raw_adj _. apply insertion_argsort_spec, Qle_bool_total.
Defined.

(** ** ResultStore *)

Section SaveProperties.
Context {A : Type}.
Variable nan : A.

(** A field whose value is [None] or an empty array is passed over. *)
Lemma save_field_skips key_added groups_order (values : option loc) key (w : world A) :
  (∀ l, values = Some l → ∃ a, mem w !! l = Some a ∧ len a = 0) →
  save_field nan key_added groups_order (values, key) w = (w, Ok ()).
Proof.
  intros Hempty. destruct values as [l|]; [|done].
  destruct (Hempty l eq_refl) as (a & Ha & Hlen). destruct w as [h u]. simpl in *.
  unfold save_field. simpl. rewrite bind_run, on_mem_run, read_run. simpl. rewrite Ha. simpl.
  by rewrite decide_True.
Qed.

(** A non-empty field saved under a key that [adata.uns] does not have. *)
Lemma save_field_without_key key_added groups_order l a key (w : world A) :
  mem w !! l = Some a → len a ≠ 0 → uns w !! key_added = None →
  save_field nan key_added groups_order (Some l, key) w = (w, Raise KeyError).
Proof.
  intros Ha Hlen Hkey. destruct w as [h u]. simpl in *.
  unfold save_field. simpl. rewrite bind_run, on_mem_run, read_run. simpl. rewrite Ha. simpl.
  rewrite decide_False by done. rewrite bind_run. unfold get_uns. simpl. by rewrite Hkey.
Qed.

Lemma save_fields_without_key key_added groups_order (entries : list (option loc * string))
    (w : world A) :
  uns w !! key_added = None →
  Forall (λ entry : option loc * string,
            ∀ l, entry.1 = Some l → is_Some (mem w !! l)) entries →
  Exists (λ entry : option loc * string,
            ∃ l a, entry.1 = Some l ∧ mem w !! l = Some a ∧ len a ≠ 0) entries →
  for_M (save_field nan key_added groups_order) entries w = (w, Raise KeyError).
Proof.
  intros Hkey Hvalid Hsome.
  induction entries as [|[values key] entries IH]; [by apply Exists_nil in Hsome|].
  apply Forall_cons in Hvalid as [Hentry Hvalid]. rewrite for_M_cons.
  destruct values as [l|].
  - destruct (Hentry l eq_refl) as [a Ha]. destruct (decide (len a = 0)) as [Hlen|Hlen].
    + rewrite save_field_skips; [|intros ? [= <-]; by exists a].
      apply IH; [done|]. apply Exists_cons in Hsome as [(l' & a' & [= <-] & Ha' & Hlen')|?]; [|done].
      simpl in *. congruence.
    + by rewrite (save_field_without_key _ _ l a).
  - rewrite save_field_None. apply IH; [done|].
    by apply Exists_cons in Hsome as [(? & ? & [=] & _)|?].
Qed.

(** The loop over fields that the results dict does not hold yet: every
    non-empty field is stored under its key as the array object that was
    passed; no array object is created or written. *)
Lemma save_new_fields key_added groups_order (entries : list (option loc * string)) :
  NoDup entries.*2 →
  ∀ d (h : gmap loc (ndarray A)) u,
    u !! key_added = Some d →
    (∀ key, key ∈ entries.*2 → dict_get key d = None) →
    Forall (λ entry : option loc * string,
              ∀ l, entry.1 = Some l → is_Some (h !! l)) entries →
    ∃ d',
      for_M (save_field nan key_added groups_order) entries (World h u)
        = (World h (<[key_added := d']> u), Ok ())
      ∧ (∀ l key a, (Some l, key) ∈ entries → h !! l = Some a → len a ≠ 0 →
           dict_get key d' = Some (VArr l))
      ∧ (∀ key, key ∉ entries.*2 → dict_get key d' = dict_get key d).
Proof.
  induction entries as [|[values key] entries IH]; intros Hnodup d h u Hu Hnew Hvalid.
  - exists d. split_and!; [|by intros ? ? ? ?%elem_of_nil|done].
    simpl. by rewrite insert_id.
  - apply Forall_cons in Hvalid as [Hentry Hvalid].
    rewrite fmap_cons in Hnodup. apply NoDup_cons in Hnodup as [Hkey Hnodup].
    assert (Hskip : save_field nan key_added groups_order (values, key) (World h u)
                    = (World h u, Ok ()) →
      ∃ d', for_M (save_field nan key_added groups_order) ((values, key) :: entries) (World h u)
              = (World h (<[key_added := d']> u), Ok ())
            ∧ (∀ l key' a, (Some l, key') ∈ entries → h !! l = Some a → len a ≠ 0 →
                 dict_get key' d' = Some (VArr l))
            ∧ (∀ key', key' ∉ entries.*2 → dict_get key' d' = dict_get key' d)).
    { intros Hstep. destruct (IH Hnodup d h u Hu) as (d' & Hrun & Hstored & Hrest); [|done|].
      - intros key' Hkey'. apply Hnew. rewrite fmap_cons. by apply list_elem_of_further.
      - exists d'. split; [by rewrite for_M_cons, Hstep|done]. }
    destruct values as [l|].
    + destruct (Hentry l eq_refl) as [a Ha]. destruct (decide (len a = 0)) as [Hlen|Hlen].
      * destruct Hskip as (d' & Hrun & Hstored & Hrest).
        { apply save_field_skips. intros ? [= <-]. by exists a. }
        exists d'. split_and!; [done| |].
        -- intros l' key' a' [[= <- <-]|Hin]%elem_of_cons Ha' Hlen'.
           ++ simpl in *. congruence.
           ++ by eapply Hstored.
        -- intros key' Hkey'. apply Hrest. rewrite fmap_cons in Hkey'.
           by apply not_elem_of_cons in Hkey' as [_ ?].
      * set (d1 := dict_set key (VArr l) d).
        assert (Hstep : save_field nan key_added groups_order (Some l, key) (World h u)
                        = (World h (<[key_added := d1]> u), Ok ())).
        { apply (save_field_stores nan _ _ _ _ d a); try done.
          apply Hnew. rewrite fmap_cons. apply list_elem_of_here. }
        destruct (IH Hnodup d1 h (<[key_added := d1]> u)) as (d' & Hrun & Hstored & Hrest).
        -- by rewrite lookup_insert_eq.
        -- intros key' Hkey'. unfold d1. rewrite dict_get_dict_set_ne by (intros ->; done).
           apply Hnew. rewrite fmap_cons. by apply list_elem_of_further.
        -- done.
        -- exists d'. split_and!.
           ++ rewrite for_M_cons, Hstep, Hrun. by rewrite insert_insert_eq.
           ++ intros l' key' a' [[= <- <-]|Hin]%elem_of_cons Ha' Hlen'.
              ** rewrite Hrest by done. unfold d1. apply dict_get_dict_set_eq.
              ** by eapply Hstored.
           ++ intros key' Hkey'. rewrite fmap_cons in Hkey'.
              apply not_elem_of_cons in Hkey' as [Hne Hkey'].
              rewrite Hrest by done. unfold d1. by rewrite dict_get_dict_set_ne.
    + destruct Hskip as (d' & Hrun & Hstored & Hrest); [done|].
      exists d'. split_and!; [done| |].
      * intros l' key' a' [[=]|Hin]%elem_of_cons Ha' Hlen'. by eapply Hstored.
      * intros key' Hkey'. apply Hrest. rewrite fmap_cons in Hkey'.
        by apply not_elem_of_cons in Hkey' as [_ ?].
Qed.

End SaveProperties.

Lemma Forall_zip_fst {B C} (P : B → Prop) (l : list B) (k : list C) :
  Forall P l → Forall (λ entry : B * C, P entry.1) (zip l k).
Proof.
  intros Hl. revert k. induction Hl as [|x l Hx _ IH]; intros [|y k]; simpl; constructor; auto.
Qed.

Lemma Exists_zip_fst {B C} (P : B → Prop) (l : list B) (k : list C) :
  length l ≤ length k → Exists P l → Exists (λ entry : B * C, P entry.1) (zip l k).
Proof.
  intros Hlen Hl. revert k Hlen. induction Hl as [x l Hx|x l _ IH]; intros [|y k] Hlen;
    simpl in *; try lia.
  - by left.
  - right. apply IH. lia.
Qed.

(** X15: a save call whose six fields are each [None] or an empty array
    changes nothing and raises nothing, also when nothing is stored under
    the key. *)
Theorem save_nothing_changes_nothing {A} (nan : A) (key_added : string)
    (names scores pvals pvals_adj logfoldchanges pts : option loc)
    (groups_order : list string) (w : world A) :
  Forall (λ values : option loc,
            ∀ l, values = Some l → ∃ a, mem w !! l = Some a ∧ len a = 0)
         [names; scores; pvals; pvals_adj; logfoldchanges; pts] →
  _save_rank_features_result nan key_added names scores pvals pvals_adj logfoldchanges pts
    groups_order w = (w, Ok ()).
Proof.
  intros Hempty. unfold _save_rank_features_result.
  apply (Forall_zip_fst _ _ field_names) in Hempty.
  induction Hempty as [|[values key] entries Hentry _ IH]; [done|].
  rewrite for_M_cons, save_field_skips by done. exact IH.
Qed.

Lemma save_nothing_changes_nothing_witness :
  let w := World {[ 1%positive := Plain ([] : list (list Q)) ]} ∅ in
  _save_rank_features_result 0%Q "rank_features_groups" None (Some 1%positive) None None None
    None ["icu"; "ward"] w = (w, Ok ()).
Proof.
  apply (save_nothing_changes_nothing 0%Q "rank_features_groups" None (Some 1%positive)
           None None None None ["icu"; "ward"]
           (World {[ 1%positive := Plain ([] : list (list Q)) ]} ∅)).
  repeat constructor; try done. intros l [= <-]. by eexists.
Defined.

(** X16: a save call with a non-empty field, when nothing is stored under
    the key, raises [KeyError] and changes nothing. *)
Theorem save_without_key_raises {A} (nan : A) (key_added : string)
    (names scores pvals pvals_adj logfoldchanges pts : option loc)
    (groups_order : list string) (w : world A) :
  uns w !! key_added = None →
  Forall (λ values : option loc, ∀ l, values = Some l → is_Some (mem w !! l))
         [names; scores; pvals; pvals_adj; logfoldchanges; pts] →
  Exists (λ values : option loc, ∃ l a, values = Some l ∧ mem w !! l = Some a ∧ len a ≠ 0)
         [names; scores; pvals; pvals_adj; logfoldchanges; pts] →
  _save_rank_features_result nan key_added names scores pvals pvals_adj logfoldchanges pts
    groups_order w = (w, Raise KeyError).
Proof.
  intros Hkey Hvalid Hsome. unfold _save_rank_features_result.
  apply save_fields_without_key; [done| |].
  - by apply (Forall_zip_fst (λ values : option loc, ∀ l, values = Some l → is_Some (mem w !! l))).
  - by apply (Exists_zip_fst
      (λ values : option loc, ∃ l a, values = Some l ∧ mem w !! l = Some a ∧ len a ≠ 0)).
Qed.

Lemma save_without_key_raises_witness :
  let w := World {[ 1%positive := Plain [[1; 2]%Q] ]} ∅ in
  _save_rank_features_result 0%Q "rank_features_groups" None (Some 1%positive) None None None
    None ["icu"; "ward"] w = (w, Raise KeyError).
Proof.
  apply (save_without_key_raises 0%Q "rank_features_groups" None (Some 1%positive)
           None None None None ["icu"; "ward"]
           (World {[ 1%positive := Plain [[1; 2]%Q] ]} ∅)).
  - reflexivity.
  - repeat constructor; try done. intros l [= <-]. by eexists.
  - right. left. by eexists _, _.
Defined.

(** X17: a save call into results that hold none of the six fields stores,
    under the name of every non-empty field, the array object that was
    passed: no array is copied or created, and the other entries of the
    results are kept. An array passed for two fields is one object under
    two names. *)
Theorem save_stores_the_passed_arrays {A} (nan : A) (key_added : string)
    (names scores pvals pvals_adj logfoldchanges pts : option loc)
    (groups_order : list string) (w : world A) (d : list (string * value)) :
  uns w !! key_added = Some d →
  (∀ key, key ∈ field_names → dict_get key d = None) →
  Forall (λ values : option loc, ∀ l, values = Some l → is_Some (mem w !! l))
         [names; scores; pvals; pvals_adj; logfoldchanges; pts] →
  ∃ d',
    _save_rank_features_result nan key_added names scores pvals pvals_adj logfoldchanges pts
      groups_order w = (World (mem w) (<[key_added := d']> (uns w)), Ok ())
    ∧ (∀ i key l a,
         field_names !! i = Some key →
         [names; scores; pvals; pvals_adj; logfoldchanges; pts] !! i = Some (Some l) →
         mem w !! l = Some a → len a ≠ 0 →
         dict_get key d' = Some (VArr l))
    ∧ (∀ key, key ∉ field_names → dict_get key d' = dict_get key d).
Proof.
  intros Hd Hnew Hvalid. destruct w as [h u]. simpl in *.
  set (args := [names; scores; pvals; pvals_adj; logfoldchanges; pts]) in *.
  assert (Hkeys : (zip args field_names).*2 = field_names) by done.
  destruct (save_new_fields nan key_added groups_order (zip args field_names)) with (d := d)
    (h := h) (u := u) as (d' & Hrun & Hstored & Hrest).
  - rewrite Hkeys. by_decide.
  - done.
  - by rewrite Hkeys.
  - by apply (Forall_zip_fst (λ values : option loc, ∀ l, values = Some l → is_Some (h !! l))).
  - exists d'. split_and!; [done| |by rewrite Hkeys in Hrest].
    intros i key l a Hkey Hvalue Ha Hlen. apply (Hstored l key a); [|done|done].
    apply list_elem_of_lookup. exists i. rewrite lookup_zip_with, Hvalue. simpl. by rewrite Hkey.
Qed.

Lemma save_stores_the_passed_arrays_witness :
  let w := World {[ 1%positive := Rec [("icu", [1 # 2; 1 # 10]%Q)] ]}
                 {[ "rank_features_groups" := [("params", VParams)] ]} in
  ∃ d',
    _save_rank_features_result 0%Q "rank_features_groups" None None (Some 1%positive)
      (Some 1%positive) None None ["icu"] w
      = (World (mem w) (<["rank_features_groups" := d']> (uns w)), Ok ())
    ∧ (∀ i key l a,
         field_names !! i = Some key →
         [None; None; Some 1%positive; Some 1%positive; None; None] !! i = Some (Some l) →
         mem w !! l = Some a → len a ≠ 0 →
         dict_get key d' = Some (VArr l))
    ∧ (∀ key, key ∉ field_names → dict_get key d' = dict_get key [("params", VParams)]).
Proof.
  apply (save_stores_the_passed_arrays 0%Q "rank_features_groups" None None
           (Some 1%positive) (Some 1%positive) None None ["icu"]
           (World {[ 1%positive := Rec [("icu", [1 # 2; 1 # 10]%Q)] ]}
                  {[ "rank_features_groups" := [("params", VParams)] ]})
           [("params", VParams)]).
  - reflexivity.
  - intros key Hkey. simpl. rewrite decide_False; [done|].
    intros <-. revert Hkey. by_decide.
  - repeat constructor; try done; intros l [= <-]; by eexists.
Defined.

Section MergeProperties.
Context {A : Type}.
Variable nan : A.

Lemma dict_get_imap {B} (value : nat → string → B) (keys : list string) (j : nat) (g : string) :
  NoDup keys → keys !! j = Some g →
  dict_get g (imap (λ i key, (key, value i key)) keys) = Some (value j g).
Proof.
  revert value j. induction keys as [|key keys IH]; intros value j Hnodup Hj; [done|].
  apply NoDup_cons in Hnodup as [Hkey Hnodup]. cbn [imap dict_get].
  destruct j as [|j]; simpl in Hj.
  - injection Hj as ->. by rewrite decide_True.
  - rewrite decide_False.
    + apply (IH (λ i, value (S i)) j Hnodup Hj).
    + intros ->. apply Hkey. by eapply list_elem_of_lookup_2.
Qed.

Lemma imap_keys {B} (value : nat → string → B) (keys : list string) :
  (imap (λ i key, (key, value i key)) keys).*1 = keys.
Proof.
  revert value. induction keys as [|key keys IH]; intros value; [done|].
  cbn [imap]. rewrite fmap_cons. simpl. f_equal. apply (IH (λ i, value (S i))).
Qed.

Lemma concat_rows_imap (top bottom : nat → string → list A) (keys : list string) :
  concat_rows (imap (λ i key, (key, top i key)) keys) (imap (λ i key, (key, bottom i key)) keys)
  = imap (λ i key, (key, top i key ++ bottom i key)) keys.
Proof.
  revert top bottom. induction keys as [|key keys IH]; intros top bottom; [done|].
  cbn [imap]. unfold concat_rows in *. cbn [zip_with]. simpl. f_equal.
  apply (IH (λ i, top (S i)) (λ i, bottom (S i))).
Qed.

Lemma select_columns_present (fields : list (string * list A)) (groups_order : list string) :
  (∀ g, g ∈ groups_order → g ∈ fields.*1) →
  select_columns (Rec fields) groups_order
  = Ok (imap (λ _ g, (g, default [] (dict_get g fields))) groups_order).
Proof.
  intros Hpresent. unfold select_columns.
  rewrite (for_each_fmap _ (λ g, (g, default [] (dict_get g fields)))).
  - f_equal. clear. induction groups_order as [|g groups_order IH]; [done|].
    cbn [imap]. csimpl. f_equal. rewrite IH. by apply imap_ext.
  - intros g [column Hcolumn]%Hpresent%dict_get_is_Some. by rewrite Hcolumn.
Qed.

Lemma select_columns_missing (fields : list (string * list A)) (groups_order : list string)
    (g : string) :
  g ∈ groups_order → g ∉ fields.*1 →
  select_columns (Rec fields) groups_order = Raise KeyError.
Proof.
  intros Hg Hmissing. unfold select_columns.
  induction groups_order as [|g' groups_order IH]; [by apply elem_of_nil in Hg|].
  simpl. destruct (dict_get g' fields) as [column|] eqn:Hcolumn; [|done].
  cbn [from_option mbind result_bind].
  apply elem_of_cons in Hg as [->|Hg].
  - exfalso. apply Hmissing, dict_get_is_Some. by eexists.
  - by rewrite IH.
Qed.

(** The merge of a stored record array with a plain array, by value. *)
Lemma merge_values_by_name (fields : list (string * list A)) (rows : list (list A))
    (groups_order : list string) :
  groups_order ≠ [] →
  NoDup groups_order →
  (∀ g, g ∈ groups_order → g ∈ fields.*1) →
  Forall (λ r, length r = length groups_order) rows →
  merge_values nan (Rec fields) (Plain rows) groups_order
  = Ok (Rec (imap (λ j g, (g, default [] (dict_get g fields) ++ omap (λ r, r !! j) rows))
               groups_order)).
Proof.
  intros Hnonempty Hnodup Hpresent Hrows. unfold merge_values.
  rewrite select_columns_present by done. cbn [mbind result_bind].
  unfold frame_of_array.
  assert (Hcheck : forallb (λ r : list A, bool_decide (length r = length groups_order)) rows
                   = true).
  { apply forallb_forall. intros r Hr. apply bool_decide_eq_true_2.
    apply list_elem_of_In in Hr. by eapply (proj1 (Forall_forall _ _) Hrows). }
  rewrite Hcheck. cbn [mbind result_bind].
  rewrite (concat_rows_imap (λ _ g, default [] (dict_get g fields))
             (λ j _, omap (λ r, r !! j) rows)).
  unfold to_records. rewrite imap_keys. rewrite decide_True by done.
  by destruct groups_order.
Qed.

End MergeProperties.

(** X18: [_merge_arrays] on a stored record array and a plain array whose
    columns are given in [groups_order] (distinct groups, each a field of
    the stored array, every row as long as [groups_order]): the result is a
    new array object and the stored one is left as it is; its fields are the
    groups of [groups_order], in that order, so a stored field that is not
    listed is dropped; under every group stand the stored values of the
    group followed by the values of the column given for it. *)
Theorem merge_arrays_aligns_by_name {A} (nan : A) (h : gmap loc (ndarray A))
    (recarray : loc) (fields : list (string * list A)) (rows : list (list A))
    (groups_order : list string) :
  h !! recarray = Some (Rec fields) →
  groups_order ≠ [] →
  NoDup groups_order →
  (∀ g, g ∈ groups_order → g ∈ fields.*1) →
  Forall (λ r, length r = length groups_order) rows →
  ∃ merged,
    _merge_arrays nan recarray (Plain rows) groups_order h
      = (<[fresh (dom h) := Rec merged]> h, Ok (fresh (dom h)))
    ∧ h !! fresh (dom h) = None
    ∧ merged.*1 = groups_order
    ∧ ∀ j g, groups_order !! j = Some g →
        ∃ stored, dict_get g fields = Some stored
                  ∧ dict_get g merged = Some (stored ++ omap (λ r, r !! j) rows).
Proof.
  intros Hrecarray Hnonempty Hnodup Hpresent Hrows.
  eexists. split_and!.
  - unfold _merge_arrays. rewrite bind_run, read_run, Hrecarray. simpl.
    rewrite bind_run. unfold lift.
    rewrite (merge_values_by_name nan fields rows groups_order) by done. reflexivity.
  - apply not_elem_of_dom, is_fresh.
  - apply imap_keys.
  - intros j g Hj.
    destruct (proj2 (dict_get_is_Some fields g)) as [stored Hstored].
    { apply Hpresent. by eapply list_elem_of_lookup_2. }
    exists stored. split; [done|].
    rewrite (dict_get_imap
      (λ j g, default [] (dict_get g fields) ++ omap (λ r, r !! j) rows) groups_order j g)
      by done.
    by rewrite Hstored.
Qed.

Lemma merge_arrays_aligns_by_name_witness :
  let h : gmap loc (ndarray Q) :=
    {[ 1%positive := Rec [("icu", [1; 2]%Q); ("ward", [3; 4]%Q); ("home", [5; 6]%Q)] ]} in
  ∃ merged,
    _merge_arrays 0%Q 1%positive (Plain [[7; 8]%Q]) ["home"; "icu"] h
      = (<[fresh (dom h) := Rec merged]> h, Ok (fresh (dom h)))
    ∧ h !! fresh (dom h) = None
    ∧ merged.*1 = ["home"; "icu"]
    ∧ ∀ j g, ["home"; "icu"] !! j = Some g →
        ∃ stored,
          dict_get g [("icu", [1; 2]%Q); ("ward", [3; 4]%Q); ("home", [5; 6]%Q)] = Some stored
          ∧ dict_get g merged = Some (stored ++ omap (λ r, r !! j) [[7; 8]%Q]).
Proof.
  apply (merge_arrays_aligns_by_name 0%Q
           {[ 1%positive := Rec [("icu", [1; 2]%Q); ("ward", [3; 4]%Q); ("home", [5; 6]%Q)] ]}
           1%positive [("icu", [1; 2]%Q); ("ward", [3; 4]%Q); ("home", [5; 6]%Q)]
           [[7; 8]%Q] ["home"; "icu"]).
  - reflexivity.
  - done.
  - by_decide.
  - intros g [->|[->|[]%elem_of_nil]%elem_of_cons]%elem_of_cons; by_decide.
  - repeat constructor.
Defined.

(** X19: [_merge_arrays] creates nothing and leaves the store as it is
    when it fails: with [KeyError] when a group of [groups_order] is not a
    field of the stored array, or when the stored array is a plain array
    (it has no named columns to pick); with [ValueError] when all groups
    are fields but a row of the new array is not as long as
    [groups_order]. *)
Theorem merge_arrays_refuses_mismatch {A} (nan : A) (h : gmap loc (ndarray A))
    (recarray : loc) (stored : ndarray A) (rows : list (list A))
    (groups_order : list string) :
  h !! recarray = Some stored →
  (∀ fields g, stored = Rec fields → g ∈ groups_order → g ∉ fields.*1 →
     _merge_arrays nan recarray (Plain rows) groups_order h = (h, Raise KeyError))
  ∧ (∀ rows0, stored = Plain rows0 → groups_order ≠ [] →
       _merge_arrays nan recarray (Plain rows) groups_order h = (h, Raise KeyError))
  ∧ (∀ fields, stored = Rec fields → (∀ g, g ∈ groups_order → g ∈ fields.*1) →
       Exists (λ r, length r ≠ length groups_order) rows →
       _merge_arrays nan recarray (Plain rows) groups_order h = (h, Raise ValueError)).
Proof.
  intros Hrecarray.
  assert (Hrun : ∀ e, merge_values nan stored (Plain rows) groups_order = Raise e →
            _merge_arrays nan recarray (Plain rows) groups_order h = (h, Raise e)).
  { intros e He. unfold _merge_arrays. rewrite bind_run, read_run, Hrecarray. simpl.
    rewrite bind_run. unfold lift. by rewrite He. }
  split_and!.
  - intros fields g -> Hg Hmissing. apply Hrun. unfold merge_values.
    by rewrite (select_columns_missing fields groups_order g).
  - intros rows0 -> Hnonempty. apply Hrun. unfold merge_values. simpl.
    by destruct groups_order.
  - intros fields -> Hpresent Hrows. apply Hrun. unfold merge_values.
    rewrite select_columns_present by done. cbn [mbind result_bind]. unfold frame_of_array.
    assert (Hcheck : forallb (λ r : list A, bool_decide (length r = length groups_order)) rows
                     = false).
    { apply not_true_is_false. intros Hall. apply Exists_exists in Hrows as (r & Hr & Hlen).
      apply Hlen. apply list_elem_of_In in Hr.
      apply (proj1 (forallb_forall _ _) Hall) in Hr. by apply bool_decide_eq_true_1 in Hr. }
    by rewrite Hcheck.
Qed.

Lemma merge_arrays_refuses_mismatch_witness :
  let h : gmap loc (ndarray Q) := {[ 1%positive := Rec [("icu", [1; 2]%Q)] ]} in
  (∀ fields g, Rec [("icu", [1; 2]%Q)] = Rec fields → g ∈ ["icu"; "ward"] → g ∉ fields.*1 →
     _merge_arrays 0%Q 1%positive (Plain [[7; 8]%Q]) ["icu"; "ward"] h = (h, Raise KeyError))
  ∧ (∀ rows0, Rec [("icu", [1; 2]%Q)] = Plain rows0 → ["icu"; "ward"] ≠ [] →
       _merge_arrays 0%Q 1%positive (Plain [[7; 8]%Q]) ["icu"; "ward"] h = (h, Raise KeyError))
  ∧ (∀ fields, Rec [("icu", [1; 2]%Q)] = Rec fields →
       (∀ g, g ∈ ["icu"; "ward"] → g ∈ fields.*1) →
       Exists (λ r, length r ≠ length ["icu"; "ward"]) [[7; 8]%Q] →
       _merge_arrays 0%Q 1%positive (Plain [[7; 8]%Q]) ["icu"; "ward"] h
       = (h, Raise ValueError)).
Proof.
  apply (merge_arrays_refuses_mismatch 0%Q {[ 1%positive := Rec [("icu", [1; 2]%Q)] ]}
           1%positive (Rec [("icu", [1; 2]%Q)]) [[7; 8]%Q] ["icu"; "ward"]).
  reflexivity.
Defined.

(** ** AnnotationAggregator *)

Lemma for_each_app {A B} (body : A → result B) (l1 l2 : list A) :
  for_each body (l1 ++ l2)
  = (ys1 ← for_each body l1; ys2 ← for_each body l2; Ok (ys1 ++ ys2)).
Proof.
  induction l1 as [|x l1 IH]; simpl.
  - by destruct (for_each body l2).
  - destruct (body x) as [y|]; [|done]. cbn [mbind result_bind]. rewrite IH.
    destruct (for_each body l1) as [ys1|]; [|done]. cbn [mbind result_bind].
    by destruct (for_each body l2).
Qed.

(** The flattening is one pass over the entities that are not the
    ["tokens"] entry: each gives one record, started with its row. *)
Lemma flatten_annotated_results_for_each
    (annotation_results : list (Z * list (entity_id * list (string * attr)))) :
  _flatten_annotated_results annotation_results
  = for_each (λ occ, copy_attributes [("row_nr", CRow occ.1)] occ.2)
      (entity_occurrences annotation_results).
Proof.
  assert (Hrow : ∀ row_id entities,
    flatten_entities row_id entities
    = for_each (λ occ, copy_attributes [("row_nr", CRow occ.1)] occ.2)
        ((λ e, (row_id, e.2)) <$> filter (λ e, e.1 ≠ EName "tokens") entities)).
  { intros row_id entities. induction entities as [|[eid entity] entities IH]; [done|].
    simpl. destruct (decide (eid = EName "tokens")) as [->|Hne].
    - by rewrite filter_cons_False by (simpl; tauto).
    - rewrite filter_cons_True by done. rewrite fmap_cons. simpl. by rewrite IH. }
  induction annotation_results as [|[row_id entities] annotation_results IH]; [done|].
  unfold entity_occurrences in *. rewrite bind_cons, for_each_app, <-IH, <-Hrow. done.
Qed.

(** A key that the entity does not have is not written. *)
Lemma copy_attribute_get_ne single_entity entry single_entity' k :
  copy_attribute single_entity entry = Ok single_entity' →
  k ≠ entry.1 → dict_get k single_entity' = dict_get k single_entity.
Proof.
  unfold copy_attribute. intros Hcopy Hne.
  destruct (bool_decide _).
  - injection Hcopy as <-. by apply dict_get_dict_set_ne.
  - destruct (decide _); [|by injection Hcopy as <-].
    destruct (status_value _); [|done]. injection Hcopy as <-.
    by apply dict_get_dict_set_ne.
Qed.

Lemma copy_attributes_get_ne single_entity entity single_entity' k :
  copy_attributes single_entity entity = Ok single_entity' →
  k ∉ entity.*1 → dict_get k single_entity' = dict_get k single_entity.
Proof.
  revert single_entity. induction entity as [|entry entity IH]; intros single_entity; simpl.
  - by intros [= <-].
  - destruct (copy_attribute single_entity entry) as [acc|] eqn:Hentry; [|done].
    cbn [mbind result_bind]. intros Hrest [Hne Hk]%not_elem_of_cons.
    rewrite (IH _ Hrest Hk). by eapply copy_attribute_get_ne.
Qed.

(** A key that is not a column of the table is not written. *)
Lemma copy_attributes_get_other single_entity entity single_entity' k :
  copy_attributes single_entity entity = Ok single_entity' →
  k ∉ tail annotation_columns → dict_get k single_entity' = dict_get k single_entity.
Proof.
  revert single_entity. induction entity as [|entry entity IH]; intros single_entity; simpl.
  - by intros [= <-].
  - destruct (copy_attribute single_entity entry) as [acc|] eqn:Hentry; [|done].
    cbn [mbind result_bind]. intros Hrest Hk. rewrite (IH _ Hrest Hk).
    destruct (decide (k = entry.1)) as [->|Hne]; [|by eapply copy_attribute_get_ne].
    revert Hentry. unfold copy_attribute.
    rewrite bool_decide_eq_false_2.
    2: { intros Hin. apply Hk. simpl. rewrite !elem_of_cons in Hin. rewrite !elem_of_cons.
         tauto. }
    rewrite decide_False; [by intros [= <-]|].
    intros Heq. apply Hk. rewrite Heq. simpl. rewrite !elem_of_cons. tauto.
Qed.

(** The cell under a key of the entity is the one written when the loop
    reaches that key. *)
Lemma copy_attributes_get_in single_entity entity single_entity' k a :
  NoDup entity.*1 → dict_get k entity = Some a →
  copy_attributes single_entity entity = Ok single_entity' →
  ∃ acc acc', copy_attribute acc (k, a) = Ok acc'
    ∧ dict_get k single_entity' = dict_get k acc'.
Proof.
  revert single_entity. induction entity as [|[k0 a0] entity IH]; intros single_entity; [done|].
  rewrite fmap_cons, NoDup_cons. simpl. intros [Hk0 Hnodup].
  destruct (copy_attribute single_entity (k0, a0)) as [acc|] eqn:Hentry; [|done].
  cbn [mbind result_bind].
  destruct (decide (k0 = k)) as [->|Hne].
  - intros [= ->] Hrest. exists single_entity, acc. split; [done|].
    by eapply copy_attributes_get_ne.
  - intros Hk Hrest. by eapply IH.
Qed.

(** X20: when the flattening returns, it returns one record for each entity
    that is not the ["tokens"] entry, in the order of the results; the
    record holds the row of its entity under ["row_nr"], and nothing under
    a key that is not one of the six columns of the annotation table. *)
Theorem flatten_one_record_per_entity
    (annotation_results : list (Z * list (entity_id * list (string * attr))))
    (flattened : list (list (string * cell))) :
  _flatten_annotated_results annotation_results = Ok flattened →
  length flattened = length (entity_occurrences annotation_results)
  ∧ Forall2 (λ occ record,
        dict_get "row_nr" record = Some (CRow occ.1)
        ∧ (∀ k, k ∉ annotation_columns → dict_get k record = None))
      (entity_occurrences annotation_results) flattened.
Proof.
  rewrite flatten_annotated_results_for_each. intros Hflat. split.
  { by apply for_each_length in Hflat. }
  apply for_each_Ok_Forall2 in Hflat.
  eapply Forall2_impl; [exact Hflat|]. intros [row_id entity] record Hcopy. simpl in *.
  split.
  - rewrite (copy_attributes_get_other _ _ _ "row_nr" Hcopy); [done|]. by_decide.
  - intros k Hk. rewrite (copy_attributes_get_other _ _ _ k Hcopy).
    + simpl. rewrite decide_False; [done|]. intros <-. apply Hk. by_decide.
    + intros Hin. apply Hk. by apply list_elem_of_further.
Qed.

Lemma flatten_one_record_per_entity_witness :
  _flatten_annotated_results repeated_mention_results
    = Ok [ [("row_nr", CRow 3); ("pretty_name", CStr "Diabetes"); ("cui", CStr "C0011849");
            ("type_ids", CList ["T047"]); ("types", CList ["Disease or Syndrome"]);
            ("meta_anns", CStr "Affirmed")];
           [("row_nr", CRow 3); ("pretty_name", CStr "Diabetes"); ("cui", CStr "C0011849");
            ("type_ids", CList ["T047"]); ("types", CList ["Disease or Syndrome"]);
            ("meta_anns", CStr "Affirmed")] ]
  ∧ length (entity_occurrences repeated_mention_results) = 2.
Proof.
  split; [reflexivity|].
  by rewrite <-(proj1 (flatten_one_record_per_entity repeated_mention_results _ eq_refl)).
Defined.

(** X21: a record of the flattening holds, for each of the attributes
    ["pretty_name"], ["cui"], ["type_ids"] and ["types"], the value the
    entity has for it (a missing value when the entity has none), and under
    ["meta_anns"] the value of the entity's status. The keys of an entity
    are those of a dict: no key twice. *)
Theorem flatten_copies_entity_attributes
    (annotation_results : list (Z * list (entity_id * list (string * attr))))
    (flattened : list (list (string * cell))) :
  Forall (λ occ, NoDup occ.2.*1) (entity_occurrences annotation_results) →
  _flatten_annotated_results annotation_results = Ok flattened →
  Forall2 (λ occ record,
      (∀ k, k ∈ ["pretty_name"; "cui"; "type_ids"; "types"] →
         dict_get k record = cell_of_attr <$> dict_get k occ.2)
      ∧ (Ok <$> dict_get "meta_anns" record) = (status_value <$> dict_get "meta_anns" occ.2))
    (entity_occurrences annotation_results) flattened.
Proof.
  rewrite flatten_annotated_results_for_each. intros Hkeys Hflat.
  apply for_each_Ok_Forall2 in Hflat.
  revert Hkeys. induction Hflat as [|[row_id entity] record occs records Hcopy _ IH];
    [constructor|].
  rewrite Forall_cons. intros [Hnodup Hkeys]. constructor; [|by apply IH].
  simpl in *. split.
  - intros k Hk. destruct (dict_get k entity) as [a|] eqn:Hget.
    + destruct (copy_attributes_get_in _ _ _ _ _ Hnodup Hget Hcopy)
        as (acc & acc' & Hentry & ->).
      unfold copy_attribute in Hentry. simpl in Hentry.
      rewrite bool_decide_eq_true_2 in Hentry by done. injection Hentry as <-.
      by rewrite dict_get_dict_set_eq.
    + rewrite (copy_attributes_get_ne _ _ _ k Hcopy).
      * simpl. rewrite decide_False; [done|]. intros <-. revert Hk. by_decide.
      * rewrite <-dict_get_is_Some, Hget. by intros [? ?].
  - destruct (dict_get "meta_anns" entity) as [a|] eqn:Hget.
    + destruct (copy_attributes_get_in _ _ _ _ _ Hnodup Hget Hcopy)
        as (acc & acc' & Hentry & ->).
      unfold copy_attribute in Hentry. simpl in Hentry.
      destruct (status_value a) as [value|] eqn:Hvalue; [|done]. injection Hentry as <-.
      rewrite dict_get_dict_set_eq. simpl. by rewrite Hvalue.
    + rewrite (copy_attributes_get_ne _ _ _ "meta_anns" Hcopy); [done|].
      rewrite <-dict_get_is_Some, Hget. by intros [? ?].
Qed.

Lemma flatten_copies_entity_attributes_witness :
  Forall (λ occ : Z * list (string * attr), NoDup occ.2.*1)
    (entity_occurrences repeated_mention_results)
  ∧ Forall2 (λ occ record,
      (∀ k, k ∈ ["pretty_name"; "cui"; "type_ids"; "types"] →
         dict_get k record = cell_of_attr <$> dict_get k occ.2)
      ∧ (Ok <$> dict_get "meta_anns" record) = (status_value <$> dict_get "meta_anns" occ.2))
    (entity_occurrences repeated_mention_results)
    [ [("row_nr", CRow 3); ("pretty_name", CStr "Diabetes"); ("cui", CStr "C0011849");
       ("type_ids", CList ["T047"]); ("types", CList ["Disease or Syndrome"]);
       ("meta_anns", CStr "Affirmed")];
      [("row_nr", CRow 3); ("pretty_name", CStr "Diabetes"); ("cui", CStr "C0011849");
       ("type_ids", CList ["T047"]); ("types", CList ["Disease or Syndrome"]);
       ("meta_anns", CStr "Affirmed")] ].
Proof.
  assert (Hkeys : Forall (λ occ : Z * list (string * attr), NoDup occ.2.*1)
                    (entity_occurrences repeated_mention_results)).
  { vm_compute entity_occurrences. repeat (apply Forall_cons; split); simpl; by_decide. }
  split; [exact Hkeys|].
  exact (flatten_copies_entity_attributes repeated_mention_results _ Hkeys eq_refl).
Defined.

Lemma for_each_returns {A B} (body : A → result B) (l : list A) :
  (∀ x, x ∈ l → ∃ y, body x = Ok y) → ∃ ys, for_each body l = Ok ys.
Proof.
  induction l as [|x l IH]; intros Hbody; [by eexists|].
  destruct (Hbody x) as [y Hy]; [apply list_elem_of_here|].
  destruct IH as [ys Hys]; [intros x' Hx'; by apply Hbody, list_elem_of_further|].
  exists (y :: ys). simpl. by rewrite Hy, Hys.
Qed.

(** X22: the flattening returns when the status of every entity can be
    read: every ["meta_anns"] attribute of an entity that is not the
    ["tokens"] entry has a ["Status"] with a ["value"]. *)
Theorem flatten_returns_when_status_readable
    (annotation_results : list (Z * list (entity_id * list (string * attr)))) :
  (∀ occ a, occ ∈ entity_occurrences annotation_results → ("meta_anns", a) ∈ occ.2 →
     ∃ value, status_value a = Ok value) →
  ∃ flattened, _flatten_annotated_results annotation_results = Ok flattened.
Proof.
  rewrite flatten_annotated_results_for_each. intros Hstatus.
  apply for_each_returns. intros [row_id entity] Hocc. simpl.
  assert (Hentity : ∀ a, ("meta_anns", a) ∈ entity → ∃ value, status_value a = Ok value).
  { intros a. by apply (Hstatus (row_id, entity)). }
  clear Hstatus Hocc. rename Hentity into Hstatus.
  generalize [("row_nr", CRow row_id)]. induction entity as [|[k a] entity IH]; intros acc;
    [by eexists|].
  assert (∃ acc', copy_attribute acc (k, a) = Ok acc') as [acc' Hentry].
  { unfold copy_attribute. simpl. destruct (bool_decide _); [by eexists|].
    destruct (decide (k = "meta_anns")) as [->|]; [|by eexists].
    destruct (Hstatus a) as [value ->]; [apply list_elem_of_here|]. by eexists. }
  destruct (IH (λ a' Hin, Hstatus a' (list_elem_of_further _ _ _ Hin)) acc') as [record Hrest].
  exists record. simpl. by rewrite Hentry.
Qed.

Lemma flatten_returns_when_status_readable_witness :
  ∃ flattened, _flatten_annotated_results repeated_mention_results = Ok flattened.
Proof.
  apply flatten_returns_when_status_readable. intros occ a Hocc Hin.
  assert (occ = (3%Z, diabetes_mention)) as ->.
  { revert Hocc. vm_compute entity_occurrences. rewrite !elem_of_cons, elem_of_nil. tauto. }
  assert (a = AMeta [("Status", [("value", "Affirmed"); ("name", "Status")])]) as ->.
  { revert Hin. unfold diabetes_mention. simpl. rewrite !elem_of_cons, elem_of_nil.
    intuition congruence. }
  by eexists.
Defined.

(** Every flattened record has the row of one of the entities. *)
Lemma flatten_row_nr
    (annotation_results : list (Z * list (entity_id * list (string * attr))))
    (flattened : list (list (string * cell))) :
  _flatten_annotated_results annotation_results = Ok flattened →
  Forall (λ record, ∃ occ, occ ∈ entity_occurrences annotation_results
                           ∧ dict_get "row_nr" record = Some (CRow occ.1)) flattened.
Proof.
  rewrite flatten_annotated_results_for_each. intros Hflat%for_each_Ok_Forall2.
  induction Hflat as [|occ record occs records Hcopy _ IH]; constructor.
  - exists occ. split; [apply list_elem_of_here|].
    rewrite (copy_attributes_get_other _ _ _ "row_nr" Hcopy); [done|]. by_decide.
  - eapply Forall_impl; [exact IH|]. intros r (occ' & Hocc' & Hr). exists occ'.
    split; [by apply list_elem_of_further|done].
Qed.

(** A successful call of [annotate_text], taken apart. *)
Lemma annotate_text_inv
    (multiprocessing : list (Z * string) → list (Z * list (entity_id * list (string * attr))))
    (text_column : list (Z * option string)) (df : list (list (string * cell))) :
  annotate_text multiprocessing text_column = Ok df →
  ∃ flattened,
    _flatten_annotated_results (multiprocessing (formatted_text_column text_column))
      = Ok flattened
    ∧ df = merge_sort row_nr_le flattened.
Proof.
  unfold annotate_text, _annotated_results_to_df, sort_by_row_nr.
  destruct (_flatten_annotated_results _) as [flattened|]; [|done].
  cbn [mbind result_bind].
  destruct (drop_duplicates flattened _); [|done]. cbn [mbind result_bind].
  destruct (has_column "row_nr" flattened); [|done].
  intros [= <-]. by exists flattened.
Qed.

(** X23: the rows of the table that [annotate_text] stores are the
    flattened records, each once, in some order: one row for every entity
    that is not the ["tokens"] entry, repeated mentions included, and every
    row has the row number of an entity. *)
Theorem annotate_text_stores_one_row_per_entity
    (multiprocessing : list (Z * string) → list (Z * list (entity_id * list (string * attr))))
    (text_column : list (Z * option string)) (df : list (list (string * cell))) :
  annotate_text multiprocessing text_column = Ok df →
  ∃ flattened,
    _flatten_annotated_results (multiprocessing (formatted_text_column text_column))
      = Ok flattened
    ∧ df ≡ₚ flattened
    ∧ length df
      = length (entity_occurrences (multiprocessing (formatted_text_column text_column)))
    ∧ Forall (λ record,
        ∃ occ, occ ∈ entity_occurrences (multiprocessing (formatted_text_column text_column))
               ∧ dict_get "row_nr" record = Some (CRow occ.1)) df.
Proof.
  intros (flattened & Hflat & ->)%annotate_text_inv. exists flattened.
  split_and!; [done|apply merge_sort_Permutation|..].
  - rewrite merge_sort_Permutation. rewrite flatten_annotated_results_for_each in Hflat.
    by apply for_each_length in Hflat.
  - rewrite merge_sort_Permutation. by apply flatten_row_nr.
Qed.

Lemma annotate_text_stores_one_row_per_entity_witness :
  ∃ df,
    annotate_text (λ _, repeated_mention_results) [(3%Z, Some "Diabetes. Diabetes.")] = Ok df
    ∧ length df = 2.
Proof.
  eexists. split; [reflexivity|].
  destruct (annotate_text_stores_one_row_per_entity (λ _, repeated_mention_results)
              [(3%Z, Some "Diabetes. Diabetes.")] _ eq_refl)
    as (flattened & _ & _ & Hlength & _).
  exact Hlength.
Defined.

(** X24: [annotate_text] annotates the rows whose text is not null only:
    when the annotator reports results for rows it was given, every record
    of the stored table belongs to a row of the column that has a text. *)
Theorem annotate_text_skips_null_rows
    (multiprocessing : list (Z * string) → list (Z * list (entity_id * list (string * attr))))
    (text_column : list (Z * option string)) (df : list (list (string * cell))) :
  (multiprocessing (formatted_text_column text_column)).*1
    ⊆ (formatted_text_column text_column).*1 →
  annotate_text multiprocessing text_column = Ok df →
  Forall (λ record, ∃ row text, (row, Some text) ∈ text_column
                                ∧ dict_get "row_nr" record = Some (CRow row)) df.
Proof.
  intros Hrows (flattened & Hflat & ->)%annotate_text_inv.
  rewrite merge_sort_Permutation. apply flatten_row_nr in Hflat.
  eapply Forall_impl; [exact Hflat|]. intros record ([row entity] & Hocc & Hrow).
  simpl in Hrow. exists row.
  unfold entity_occurrences in Hocc.
  apply list_elem_of_bind in Hocc as ([row' entities] & Hin & Hresult).
  apply list_elem_of_fmap in Hin as (e & [= -> _] & _).
  assert (Hgiven : row' ∈ (formatted_text_column text_column).*1).
  { apply Hrows. apply list_elem_of_fmap. by exists (row', entities). }
  apply list_elem_of_fmap in Hgiven as ([row text] & -> & Hin).
  unfold formatted_text_column in Hin.
  apply list_elem_of_omap in Hin as ([row0 [text0|]] & Hin & Heq); [|done].
  simpl in Heq. injection Heq as -> ->. by exists text.
Qed.

Lemma annotate_text_skips_null_rows_witness :
  ∃ df,
    annotate_text (λ _, repeated_mention_results)
      [(2%Z, None); (3%Z, Some "Diabetes. Diabetes.")] = Ok df
    ∧ Forall (λ record, ∃ row text,
                (row, Some text) ∈ [(2%Z, None); (3%Z, Some "Diabetes. Diabetes.")]
                ∧ dict_get "row_nr" record = Some (CRow row)) df.
Proof.
  eexists. split; [reflexivity|].
  apply (annotate_text_skips_null_rows (λ _, repeated_mention_results)
           [(2%Z, None); (3%Z, Some "Diabetes. Diabetes.")]); [|reflexivity].
  intros row Hrow. exact Hrow.
Defined.

(** X25: when the annotator finds no entity in any text, [annotate_text]
    stores nothing and raises [KeyError]: the empty table has no column
    ["row_nr"] to sort by. *)
Theorem annotate_text_without_entities_raises
    (multiprocessing : list (Z * string) → list (Z * list (entity_id * list (string * attr))))
    (text_column : list (Z * option string)) :
  entity_occurrences (multiprocessing (formatted_text_column text_column)) = [] →
  annotate_text multiprocessing text_column = Raise KeyError.
Proof.
  intros Hnone. unfold annotate_text.
  by rewrite flatten_annotated_results_for_each, Hnone.
Qed.

Lemma annotate_text_without_entities_raises_witness :
  annotate_text (λ input, (λ row, (row.1, [(EName "tokens", [])])) <$> input)
    [(1%Z, Some "No complaints."); (2%Z, None)] = Raise KeyError.
Proof.
  by apply annotate_text_without_entities_raises.
Defined.

(** Two selections of a list that exclude each other cover it when their
    sizes add up to its size. *)
Lemma filter_disjoint_length {A} (P Q : A → Prop) `{!∀ x, Decision (P x)}
    `{!∀ x, Decision (Q x)} (l : list A) :
  (∀ x, P x → Q x → False) →
  length (filter P l) + length (filter Q l) ≤ length l
  ∧ (length (filter P l) + length (filter Q l) = length l → Forall (λ x, P x ∨ Q x) l).
Proof.
  intros Hdisjoint. induction l as [|x l [IHle IHeq]]; [by split|].
  destruct (decide (P x)) as [HP|HP]; destruct (decide (Q x)) as [HQ|HQ].
  - by destruct (Hdisjoint x).
  - rewrite (filter_cons_True P) by done. rewrite (filter_cons_False Q) by done. simpl.
    split; [lia|]. intros Hlen. constructor; [by left|]. apply IHeq. lia.
  - rewrite (filter_cons_False P) by done. rewrite (filter_cons_True Q) by done. simpl.
    split; [lia|]. intros Hlen. constructor; [by right|]. apply IHeq. lia.
  - rewrite (filter_cons_False P) by done. rewrite (filter_cons_False Q) by done. simpl.
    split; [lia|]. intros Hlen. lia.
Qed.

Lemma filter_ext_in {A} (P Q : A → Prop) `{!∀ x, Decision (P x)}
    `{!∀ x, Decision (Q x)} (l : list A) :
  (∀ x, x ∈ l → P x ↔ Q x) → filter P l = filter Q l.
Proof.
  induction l as [|x l IH]; intros Hiff; [done|].
  assert (Hx : P x ↔ Q x) by apply Hiff, list_elem_of_here.
  assert (Hl : filter P l = filter Q l).
  { apply IH. intros x' Hx'. by apply Hiff, list_elem_of_further. }
  destruct (decide (P x)) as [HP|HP].
  - rewrite (filter_cons_True P), (filter_cons_True Q) by tauto. by rewrite Hl.
  - rewrite (filter_cons_False P), (filter_cons_False Q) by tauto. done.
Qed.

(** X26: on a table with a status column, the statuses "Affirmed" and
    "Other" each select the rows with exactly that status, in the order of
    the table. "Other" is a status of its own, not the rest: the two
    selections make up the table when, and only when, every row has one of
    the two statuses. *)
Theorem filter_df_by_status_other_is_literal (df : list (list (string * cell))) :
  has_column "meta_anns" df = true →
  ∃ affirmed other,
    _filter_df_by_status df "Affirmed" = Ok affirmed
    ∧ _filter_df_by_status df "Other" = Ok other
    ∧ sublist affirmed df ∧ sublist other df
    ∧ (∀ r, r ∈ affirmed ↔ r ∈ df ∧ dict_get "meta_anns" r = Some (CStr "Affirmed"))
    ∧ (∀ r, r ∈ other ↔ r ∈ df ∧ dict_get "meta_anns" r = Some (CStr "Other"))
    ∧ (affirmed ++ other ≡ₚ df
       ↔ Forall (λ r, dict_get "meta_anns" r = Some (CStr "Affirmed")
                      ∨ dict_get "meta_anns" r = Some (CStr "Other")) df).
Proof.
  intros Hcolumn. unfold _filter_df_by_status. rewrite Hcolumn. simpl.
  eexists _, _. split_and!; [reflexivity|reflexivity|apply sublist_filter..| | |].
  - intros r. rewrite list_elem_of_filter. tauto.
  - intros r. rewrite list_elem_of_filter. tauto.
  - pose proof (filter_disjoint_length
      (λ r, dict_get "meta_anns" r = Some (CStr "Affirmed"))
      (λ r, dict_get "meta_anns" r = Some (CStr "Other")) df) as [_ Hcover];
      [congruence|].
    split.
    + intros Hperm. apply Hcover. by rewrite <-length_app, Hperm.
    + intros Hall.
      rewrite <-(filter_app_complement
        (λ r, dict_get "meta_anns" r = Some (CStr "Affirmed")) df) at 3.
      f_equiv. apply reflexive_eq, filter_ext_in.
      intros r Hr. rewrite Forall_forall in Hall. destruct (Hall r Hr) as [Heq|Heq];
        rewrite Heq; split; congruence.
Qed.

Lemma filter_df_by_status_other_is_literal_witness :
  ∃ affirmed other,
    _filter_df_by_status three_visits "Affirmed" = Ok affirmed
    ∧ _filter_df_by_status three_visits "Other" = Ok other
    ∧ length affirmed = 4 ∧ length other = 1
    ∧ affirmed ++ other ≡ₚ three_visits.
Proof.
  destruct (filter_df_by_status_other_is_literal three_visits eq_refl)
    as (affirmed & other & Haffirmed & Hother & _ & _ & _ & _ & Hcover).
  exists affirmed, other. split_and!; [done|done|..].
  - by injection Haffirmed as <-.
  - by injection Hother as <-.
  - apply Hcover. by_decide.
Defined.

Section CheckValidNameFurther.
Variable extractOne : string → list string → Z → option (string * Z).

(** The invalid names the loop collects are the names that are not in the
    table, in the order of the argument. *)
Lemma check_names_invalid df name invalid_names suggested_names new_name
    invalid_names' suggested_names' new_name' :
  check_names extractOne df (invalid_names, suggested_names, new_name) name
    = Ok (invalid_names', suggested_names', new_name') →
  invalid_names' = invalid_names ++ filter (λ nm, nm ∉ pretty_names df) name.
Proof.
  revert invalid_names suggested_names new_name.
  induction name as [|nm name IH]; intros invalid_names suggested_names new_name; simpl.
  - intros [= <- <- <-]. by rewrite app_nil_r.
  - destruct (decide (nm ∈ pretty_names df)) as [Hnm|Hnm]; simpl.
    + rewrite filter_cons_False by tauto. apply IH.
    + rewrite filter_cons_True by done.
      destruct (extractOne nm _ 50) as [[suggestion score]|]; simpl; [|done].
      intros Hrest%IH. by rewrite Hrest, <-app_assoc.
Qed.

(** When the matcher finds a name for every invalid name, the loop ends
    with the suggestion for the last of them. *)
Lemma check_names_run df name invalid_names suggested_names new_name :
  Forall (λ nm, is_Some (extractOne nm (remove_dups (pretty_names df)) 50))
    (filter (λ nm, nm ∉ pretty_names df) name) →
  ∃ suggested_names',
    check_names extractOne df (invalid_names, suggested_names, new_name) name
    = Ok (invalid_names ++ filter (λ nm, nm ∉ pretty_names df) name,
          suggested_names',
          match last (filter (λ nm, nm ∉ pretty_names df) name) with
          | Some nm => fst <$> extractOne nm (remove_dups (pretty_names df)) 50
          | None => new_name
          end)
    ∧ (suggested_names' = [] → suggested_names = []).
Proof.
  revert invalid_names suggested_names new_name.
  induction name as [|nm name IH]; intros invalid_names suggested_names new_name; simpl.
  - intros _. exists suggested_names. by rewrite app_nil_r.
  - destruct (decide (nm ∈ pretty_names df)) as [Hnm|Hnm]; simpl.
    + rewrite filter_cons_False by tauto. apply IH.
    + rewrite filter_cons_True by done. rewrite Forall_cons. intros [[[suggestion score] Hmatch] Hrest].
      rewrite Hmatch. simpl.
      destruct (IH (invalid_names ++ [nm]) (suggested_names ++ [suggestion]) (Some suggestion)
                  Hrest) as (suggested_names' & -> & Hnil).
      exists suggested_names'. split.
      * rewrite <-app_assoc. simpl. rewrite last_cons.
        destruct (last _); [done|]. by rewrite Hmatch.
      * intros Hnone. by destruct suggested_names; discriminate (Hnil Hnone).
Qed.

(** X27: on a table with a column of names, the check accepts the names
    exactly when each of them is a name of the table, whatever the matcher
    does. *)
Theorem check_valid_name_accepts_known_names (df : list (list (string * cell)))
    (name : list string) :
  has_column "pretty_name" df = true →
  _check_valid_name extractOne df name = Ok ()
  ↔ Forall (λ nm, nm ∈ pretty_names df) name.
Proof.
  intros Hcolumn. unfold _check_valid_name. rewrite Hcolumn.
  assert (Hknown : Forall (λ nm, nm ∈ pretty_names df) name
                   ↔ filter (λ nm, nm ∉ pretty_names df) name = []).
  { induction name as [|nm name IH]; [done|].
    rewrite Forall_cons. destruct (decide (nm ∈ pretty_names df)).
    - rewrite filter_cons_False by tauto. tauto.
    - rewrite filter_cons_True by done. split; [tauto|done]. }
  destruct (check_names _ _ _ _) as [[[invalid_names suggested_names] new_name]|e] eqn:Hloop;
    cbn [mbind result_bind].
  - pose proof (check_names_suggestions _ _ _ _ _ _ _ _ _ Hloop eq_refl) as Hlength.
    apply check_names_invalid in Hloop. simpl in Hloop. rewrite Hknown, <-Hloop.
    destruct invalid_names; [done|].
    destruct suggested_names; [done|]. split; done.
  - split; [done|]. rewrite Hknown. intros Hnone. exfalso.
    destruct (check_names_run df name [] [] None) as (suggested_names & Hrun & _).
    { rewrite Hnone. constructor. }
    by rewrite Hrun in Hloop.
Qed.


End CheckValidNameFurther.

Lemma check_valid_name_accepts_known_names_witness :
  _check_valid_name first_letter_match two_concepts ["Fever"; "Diabetes"; "Fever"] = Ok ().
Proof.
  apply check_valid_name_accepts_known_names; [reflexivity|].
  repeat constructor; by_decide.
Defined.


(** *** The order of the group keys *)

Lemma string_compare_cons (a b : Ascii.ascii) (s t : string) :
  String.compare (String a s) (String b t)
  = match Ascii.compare a b with Eq => String.compare s t | c => c end.
Proof. reflexivity. Qed.

Lemma string_compare_trans (s1 s2 s3 : string) :
  String.compare s1 s2 ≠ Gt → String.compare s2 s3 ≠ Gt → String.compare s1 s3 ≠ Gt.
Proof.
  revert s2 s3. induction s1 as [|a s1 IH]; intros [|b s2] [|c s3]; try done.
  rewrite !string_compare_cons. unfold Ascii.compare.
  destruct (N.compare_spec (Ascii.N_of_ascii a) (Ascii.N_of_ascii b)) as [Hab|Hab|Hab];
    destruct (N.compare_spec (Ascii.N_of_ascii b) (Ascii.N_of_ascii c)) as [Hbc|Hbc|Hbc]; try done.
  - rewrite Hab, Hbc, N.compare_refl. apply IH.
  - intros _ _. rewrite Hab. by rewrite (proj2 (N.compare_lt_iff _ _) Hbc).
  - intros _ _. rewrite <-Hbc. by rewrite (proj2 (N.compare_lt_iff _ _) Hab).
  - intros _ _. by rewrite (proj2 (N.compare_lt_iff _ _) (N.lt_trans _ _ _ Hab Hbc)).
Qed.

Lemma string_leb_compare (s1 s2 : string) :
  String.leb s1 s2 = true ↔ String.compare s1 s2 ≠ Gt.
Proof. unfold String.leb. by destruct (String.compare s1 s2). Qed.

Lemma cui_le_trans : Transitive cui_le.
Proof.
  intros s1 s2 s3. unfold cui_le. rewrite !string_leb_compare. apply string_compare_trans.
Qed.

Lemma cui_le_total : Total cui_le.
Proof. intros s1 s2. apply String.leb_total. Qed.

Lemma cui_le_antisymm : AntiSymm eq cui_le.
Proof. intros s1 s2. apply String.leb_antisym. Qed.

(** *** The overview *)

Lemma fmap_zip_with_l {A B C D} (F : A → B → C) (f : C → D) (h : A → D)
    (l1 : list A) (l2 : list B) :
  (∀ x y, f (F x y) = h x) → length l2 = length l1 →
  f <$> zip_with F l1 l2 = h <$> l1.
Proof.
  intros HF. revert l2. induction l1 as [|x l1 IH]; intros [|y l2]; try done.
  intros [= Hlength]. csimpl. by rewrite HF, IH.
Qed.

(** The keys of the groups are the identifiers that occur in the table. *)
Lemma group_keys (df : list (list (string * cell))) (keys : list (option string)) (g : string) :
  for_each group_key df = Ok keys →
  g ∈ omap id keys ↔ ∃ r, r ∈ df ∧ dict_get "cui" r = Some (CStr g).
Proof.
  intros Hkeys%for_each_Ok_Forall2.
  induction Hkeys as [|r key df keys Hkey _ IH]; csimpl.
  - rewrite elem_of_nil. split; [done|]. by intros (r & ?%elem_of_nil & _).
  - assert (Hhead : g ∈ match key with Some g' => [g'] | None => [] end
                    ↔ dict_get "cui" r = Some (CStr g)).
    { unfold group_key in Hkey. destruct (dict_get "cui" r) as [[]|]; try done;
        injection Hkey as <-.
      - rewrite list_elem_of_singleton. split; congruence.
      - by rewrite elem_of_nil. }
    transitivity (dict_get "cui" r = Some (CStr g) ∨ g ∈ omap id keys).
    { rewrite <-Hhead. destruct key; simpl; rewrite ?elem_of_cons, ?elem_of_nil; tauto. }
    rewrite IH. split.
    + intros [Hr|(r' & Hin & Hr')]; [exists r|exists r'];
        (split; [|done]); [apply list_elem_of_here|by apply list_elem_of_further].
    + intros (r' & [->|Hin]%elem_of_cons & Hr'); [by left|right; by exists r'].
Qed.

Section OverviewProperties.
Variable first_of_set : list (option cell) → result (option cell).

(** A successful call, taken apart: the filtered table, the keys of its
    rows, and the counting columns of the result. *)
Lemma overview_visit_counts (table : list (list (string * cell))) (status : string)
    (res : list overview_row) :
  get_medcat_annotation_overview first_of_set table status = Ok res →
  ∃ df keys,
    _filter_df_by_status table status = Ok df
    ∧ for_each group_key df = Ok keys
    ∧ visit_counts <$> res
      = (λ g, (g,
               nunique "row_nr" (filter (λ r, dict_get "cui" r = Some (CStr g)) df),
               visit_percent
                 (nunique "row_nr" (filter (λ r, dict_get "cui" r = Some (CStr g)) df))
                 (nunique "row_nr" df)))
        <$> merge_sort cui_le (remove_dups (omap id keys)).
Proof.
  unfold get_medcat_annotation_overview.
  destruct (_filter_df_by_status table status) as [df|]; [|done]. cbn [mbind result_bind].
  destruct (forallb _ _); [|done].
  destruct (for_each group_key df) as [keys|] eqn:Hkeys; [|done]. cbn [mbind result_bind].
  destruct (for_each (λ g, first_of_set _) _) as [names|] eqn:Hnames; [|done].
  cbn [mbind result_bind].
  destruct (for_each (λ g, first_item (dict_get "type_ids" <$> _)) _) as [tuis|] eqn:Htuis;
    [|done].
  cbn [mbind result_bind].
  destruct (for_each (λ g, first_item (dict_get "types" <$> _)) _) as [kinds|] eqn:Hkinds;
    [|done].
  cbn [mbind result_bind].
  intros [= <-]. exists df, keys. split_and!; [done..|].
  apply for_each_length in Hnames, Htuis, Hkinds.
  apply fmap_zip_with_l.
  - by intros g [[name tui] kind].
  - rewrite !length_zip. lia.
Qed.

(** X29: the overview has one row for each concept identifier that occurs
    in the table filtered by status, in ascending order of the
    identifiers. *)
Theorem overview_one_row_per_concept (table : list (list (string * cell)))
    (status : string) (res : list overview_row) :
  get_medcat_annotation_overview first_of_set table status = Ok res →
  ∃ df,
    _filter_df_by_status table status = Ok df
    ∧ NoDup (cui <$> res)
    ∧ StronglySorted cui_le (cui <$> res)
    ∧ (∀ g, g ∈ cui <$> res ↔ ∃ r, r ∈ df ∧ dict_get "cui" r = Some (CStr g)).
Proof.
  intros (df & keys & Hdf & Hkeys & Hcounts)%overview_visit_counts. exists df.
  assert (Hcuis : cui <$> res = merge_sort cui_le (remove_dups (omap id keys))).
  { transitivity ((λ c, c.1.1) <$> (visit_counts <$> res)).
    - by rewrite <-list_fmap_compose.
    - rewrite Hcounts, <-list_fmap_compose. apply list_fmap_id. }
  rewrite Hcuis. split_and!; [done|..].
  - rewrite merge_sort_Permutation. apply NoDup_remove_dups.
  - apply (@StronglySorted_merge_sort _ cui_le _ cui_le_trans cui_le_total).
  - intros g. rewrite merge_sort_Permutation, elem_of_remove_dups. by apply group_keys.
Qed.

End OverviewProperties.

Lemma overview_one_row_per_concept_witness :
  ∃ res,
    get_medcat_annotation_overview first_listed three_visits "Affirmed" = Ok res
    ∧ cui <$> res = ["C0010200"; "C0011849"; "C0015967"]
    ∧ StronglySorted cui_le (cui <$> res).
Proof.
  eexists. split; [reflexivity|]. split; [reflexivity|].
  destruct (overview_one_row_per_concept first_listed three_visits "Affirmed" _ eq_refl)
    as (df & _ & _ & Hsorted & _).
  exact Hsorted.
Defined.

(** A group has no more distinct values than the table. *)
Lemma nunique_filter_le (column : string) (P : list (string * cell) → Prop)
    `{!∀ r, Decision (P r)} (df : list (list (string * cell))) :
  nunique column (filter P df) ≤ nunique column df.
Proof.
  unfold nunique. apply submseteq_length, NoDup_submseteq; [apply NoDup_remove_dups|].
  intros v. rewrite !elem_of_remove_dups, !list_elem_of_omap.
  intros (r & [_ Hr]%list_elem_of_filter & Hv). by exists r.
Qed.

(** A group whose rows have row numbers has one at least. *)
Lemma nunique_pos (column : string) (df : list (list (string * cell)))
    (r : list (string * cell)) :
  r ∈ df → is_Some (dict_get column r) → 1 ≤ nunique column df.
Proof.
  intros Hr [v Hv]. unfold nunique.
  assert (Hin : v ∈ remove_dups (omap (dict_get column) df)).
  { rewrite elem_of_remove_dups, list_elem_of_omap. by exists r. }
  destruct (remove_dups _); [by apply elem_of_nil in Hin|simpl; lia].
Qed.

Section OverviewCounts.
Variable first_of_set : list (option cell) → result (option cell).

(** X30: in the overview, the number of visits of a concept is the number
    of distinct rows of its records in the table filtered by status: at most
    the number of distinct rows of that table, and at least one when every
    record has a row number. The percentage of the row is computed from
    these two numbers, (n / total) * 100 in binary64 arithmetic, and is
    returned as computed: the rounding of [res.round] is lost. *)
Theorem overview_visits_within_total (table : list (list (string * cell)))
    (status : string) (res : list overview_row) :
  get_medcat_annotation_overview first_of_set table status = Ok res →
  ∃ df,
    _filter_df_by_status table status = Ok df
    ∧ Forall (λ o,
        n_patient_visit o
          = nunique "row_nr" (filter (λ r, dict_get "cui" r = Some (CStr (cui o))) df)
        ∧ n_patient_visit o ≤ nunique "row_nr" df
        ∧ ((∀ r, r ∈ df → is_Some (dict_get "row_nr" r)) → 1 ≤ n_patient_visit o)
        ∧ n_patient_visit_percent o
          = visit_percent (n_patient_visit o) (nunique "row_nr" df)) res.
Proof.
  intros (df & keys & Hdf & Hkeys & Hcounts)%(overview_visit_counts first_of_set).
  exists df. split; [done|]. apply Forall_forall. intros o Ho.
  assert (Hin : visit_counts o ∈ visit_counts <$> res) by by apply list_elem_of_fmap_2.
  rewrite Hcounts in Hin. apply list_elem_of_fmap in Hin as (g & Heq & Hg).
  unfold visit_counts in Heq. injection Heq as -> -> ->.
  split_and!; [done|apply nunique_filter_le| |done].
  intros Hrows.
  rewrite merge_sort_Permutation, elem_of_remove_dups, (group_keys df keys g Hkeys) in Hg.
  destruct Hg as (r & Hr & Hcui).
  apply (nunique_pos "row_nr" _ r).
  - by apply list_elem_of_filter.
  - by apply Hrows.
Qed.

End OverviewCounts.

Lemma overview_visits_within_total_witness :
  ∃ res,
    get_medcat_annotation_overview first_listed three_visits "Both" = Ok res
    ∧ n_patient_visit <$> res = [1; 2; 1]
    ∧ n_patient_visit_percent <$> res
      = [visit_percent 1 3; visit_percent 2 3; visit_percent 1 3]
    ∧ Forall (λ o, 1 ≤ n_patient_visit o ∧ n_patient_visit o ≤ 3) res.
Proof.
  eexists. split; [reflexivity|]. split; [reflexivity|]. split; [reflexivity|].
  destruct (overview_visits_within_total first_listed three_visits "Both" _ eq_refl)
    as (df & Hdf & Hcounts).
  injection Hdf as <-. eapply Forall_impl; [exact Hcounts|].
  intros o (_ & Hle & Hpos & _). split; [|exact Hle].
  apply Hpos. apply Forall_forall. by_decide.
Defined.

(** *** Repeated mentions *)

Lemma first_occurrences_keys (subset : list string) (seen : list (list (option cell)))
    (rows : list (list (string * cell))) (key : list (option cell)) :
  key ∈ subset_key subset <$> first_occurrences subset seen rows
  ↔ key ∈ subset_key subset <$> rows ∧ key ∉ seen.
Proof.
  revert seen. induction rows as [|r rows IH]; intros seen; cbn [first_occurrences].
  - rewrite fmap_nil, elem_of_nil. tauto.
  - destruct (decide (subset_key subset r ∈ seen)) as [Hseen|Hseen].
    + rewrite IH, fmap_cons, elem_of_cons. split; [tauto|].
      intros [[->|Hin] Hkey]; [done|tauto].
    + rewrite !fmap_cons, !elem_of_cons, IH, not_elem_of_cons.
      destruct (decide (key = subset_key subset r)) as [->|Hne]; tauto.
Qed.

Lemma drop_duplicates_same_mentions (table deduplicated : list (list (string * cell))) :
  drop_duplicates table ["cui"; "row_nr"; "meta_anns"] = Ok deduplicated →
  same_mentions table deduplicated.
Proof.
  unfold drop_duplicates. intros Hdrop.
  assert (deduplicated = first_occurrences ["cui"; "row_nr"; "meta_anns"] [] table) as ->.
  { destruct table; [by injection Hdrop|].
    destruct (forallb _ _); [by injection Hdrop|done]. }
  intros key. rewrite first_occurrences_keys, elem_of_nil. tauto.
Qed.

(** The mentions of a table, read off its rows. *)
Lemma elem_of_mentions (df : list (list (string * cell))) (key : list (option cell)) :
  key ∈ subset_key ["cui"; "row_nr"; "meta_anns"] <$> df
  ↔ ∃ r, r ∈ df
         ∧ key = [dict_get "cui" r; dict_get "row_nr" r; dict_get "meta_anns" r].
Proof. rewrite list_elem_of_fmap. split; intros (r & ? & ?); by exists r. Qed.

Lemma same_mentions_filter (status : string) (df df' : list (list (string * cell))) :
  same_mentions df df' →
  same_mentions (filter (λ r, dict_get "meta_anns" r = Some (CStr status)) df)
                (filter (λ r, dict_get "meta_anns" r = Some (CStr status)) df').
Proof.
  assert (Hfilter : ∀ (l : list (list (string * cell))) (key : list (option cell)),
    key ∈ subset_key ["cui"; "row_nr"; "meta_anns"]
            <$> filter (λ r, dict_get "meta_anns" r = Some (CStr status)) l
    ↔ key ∈ subset_key ["cui"; "row_nr"; "meta_anns"] <$> l
      ∧ key !! 2 = Some (Some (CStr status))).
  { intros l key. rewrite !elem_of_mentions. split.
    - intros (r & [Hstatus Hr]%list_elem_of_filter & ->). split; [by exists r|].
      simpl. by rewrite Hstatus.
    - intros [(r & Hr & ->) Hstatus]. exists r. split; [|done].
      apply list_elem_of_filter. split; [|done]. simpl in Hstatus. congruence. }
  intros Hsame key. rewrite !Hfilter. by rewrite (Hsame key).
Qed.

Lemma same_mentions_rows (df df' : list (list (string * cell))) (v : cell) :
  same_mentions df df' →
  v ∈ omap (dict_get "row_nr") df ↔ v ∈ omap (dict_get "row_nr") df'.
Proof.
  assert (Hrows : ∀ l : list (list (string * cell)),
    v ∈ omap (dict_get "row_nr") l
    ↔ ∃ key : list (option cell), key ∈ subset_key ["cui"; "row_nr"; "meta_anns"] <$> l
             ∧ key !! 1 = Some (Some v)).
  { intros l. rewrite list_elem_of_omap. split.
    - intros (r & Hr & Hv). eexists. split; [by apply list_elem_of_fmap_2|].
      simpl. by rewrite Hv.
    - intros (key & (r & Hr & ->)%elem_of_mentions & Hv). exists r. split; [done|].
      simpl in Hv. congruence. }
  intros Hsame. rewrite !Hrows. by setoid_rewrite (Hsame _).
Qed.

Lemma same_mentions_group (df df' : list (list (string * cell))) (g : string) :
  same_mentions df df' →
  same_mentions (filter (λ r, dict_get "cui" r = Some (CStr g)) df)
                (filter (λ r, dict_get "cui" r = Some (CStr g)) df').
Proof.
  assert (Hfilter : ∀ (l : list (list (string * cell))) (key : list (option cell)),
    key ∈ subset_key ["cui"; "row_nr"; "meta_anns"]
            <$> filter (λ r, dict_get "cui" r = Some (CStr g)) l
    ↔ key ∈ subset_key ["cui"; "row_nr"; "meta_anns"] <$> l
      ∧ key !! 0 = Some (Some (CStr g))).
  { intros l key. rewrite !elem_of_mentions. split.
    - intros (r & [Hcui Hr]%list_elem_of_filter & ->). split; [by exists r|].
      simpl. by rewrite Hcui.
    - intros [(r & Hr & ->) Hcui]. exists r. split; [|done].
      apply list_elem_of_filter. split; [|done]. simpl in Hcui. congruence. }
  intros Hsame key. rewrite !Hfilter. by rewrite (Hsame key).
Qed.

Lemma same_mentions_concepts (df df' : list (list (string * cell))) (g : string) :
  same_mentions df df' →
  (∃ r, r ∈ df ∧ dict_get "cui" r = Some (CStr g))
  ↔ (∃ r, r ∈ df' ∧ dict_get "cui" r = Some (CStr g)).
Proof.
  assert (Hcui : ∀ l : list (list (string * cell)),
    (∃ r, r ∈ l ∧ dict_get "cui" r = Some (CStr g))
    ↔ ∃ key : list (option cell), key ∈ subset_key ["cui"; "row_nr"; "meta_anns"] <$> l
             ∧ key !! 0 = Some (Some (CStr g))).
  { intros l. split.
    - intros (r & Hr & Hg). eexists. split; [by apply list_elem_of_fmap_2|].
      simpl. by rewrite Hg.
    - intros (key & (r & Hr & ->)%elem_of_mentions & Hg). exists r. split; [done|].
      simpl in Hg. congruence. }
  intros Hsame. rewrite !Hcui. by setoid_rewrite (Hsame _).
Qed.

Lemma same_mentions_nunique (df df' : list (list (string * cell))) :
  same_mentions df df' → nunique "row_nr" df = nunique "row_nr" df'.
Proof.
  intros Hsame. unfold nunique. apply Permutation_length.
  apply NoDup_Permutation; [apply NoDup_remove_dups..|].
  intros v. rewrite !elem_of_remove_dups. by apply same_mentions_rows.
Qed.

Section OverviewRepeats.
Variable first_of_set : list (option cell) → result (option cell).

(** X2: the counting columns of the overview do not depend on repeated
    mentions: on the table and on the table without the rows that repeat a
    concept, row and status, the overview has the same concepts with the
    same numbers of visits and the same percentages (whenever both calls
    return). *)
Theorem overview_counts_ignore_repeated_mentions
    (table deduplicated : list (list (string * cell))) (status : string)
    (res res' : list overview_row) :
  drop_duplicates table ["cui"; "row_nr"; "meta_anns"] = Ok deduplicated →
  get_medcat_annotation_overview first_of_set table status = Ok res →
  get_medcat_annotation_overview first_of_set deduplicated status = Ok res' →
  visit_counts <$> res = visit_counts <$> res'.
Proof.
  intros Hsame%drop_duplicates_same_mentions
    (df & keys & Hdf & Hkeys & ->)%overview_visit_counts
    (df' & keys' & Hdf' & Hkeys' & ->)%overview_visit_counts.
  assert (Hfiltered : same_mentions df df').
  { revert Hdf Hdf'. unfold _filter_df_by_status.
    destruct (decide (status = "Both")); [by intros [= <-] [= <-]|].
    destruct (bool_decide _); [|done].
    destruct (has_column "meta_anns" table); [|done].
    destruct (has_column "meta_anns" deduplicated); [|done].
    intros [= <-] [= <-]. by apply same_mentions_filter. }
  assert (merge_sort cui_le (remove_dups (omap id keys))
          = merge_sort cui_le (remove_dups (omap id keys'))) as ->.
  { apply (@StronglySorted_unique _ cui_le cui_le_antisymm);
      [apply (@StronglySorted_merge_sort _ cui_le _ cui_le_trans cui_le_total)..|].
    rewrite !merge_sort_Permutation.
    apply NoDup_Permutation; [apply NoDup_remove_dups..|].
    intros g. rewrite !elem_of_remove_dups, (group_keys df keys g Hkeys),
      (group_keys df' keys' g Hkeys'). by apply same_mentions_concepts. }
  apply list_fmap_ext. intros _ g _.
  rewrite (same_mentions_nunique df df' Hfiltered).
  by rewrite (same_mentions_nunique _ _ (same_mentions_group df df' g Hfiltered)).
Qed.

End OverviewRepeats.

Lemma overview_counts_ignore_repeated_mentions_witness :
  ∃ deduplicated res res',
    drop_duplicates three_visits ["cui"; "row_nr"; "meta_anns"] = Ok deduplicated
    ∧ length deduplicated = 4
    ∧ get_medcat_annotation_overview first_listed three_visits "Both" = Ok res
    ∧ get_medcat_annotation_overview first_listed deduplicated "Both" = Ok res'
    ∧ visit_counts <$> res = visit_counts <$> res'.
Proof.
  eexists _, _, _. split_and!; [reflexivity..|].
  eapply (overview_counts_ignore_repeated_mentions first_listed three_visits _ "Both");
    reflexivity.
Defined.
